(** * reflectbuild: a cursor over Go values, driven by reflection

    Shallow embedding of [internal/reflectbuild/reflectbuild.go] and of the
    part of Go's [reflect] package that the file calls.

    - [Module reflect] is the model of package [reflect]: kinds, types,
      values living in a store, and the methods of [reflect.Value] that the
      Builder uses, each with the run-time panics the Go library raises.
    - The rest of the file is the Builder itself, one definition per Go
      function, written in a small state-and-panic monad. *)

From Stdlib Require Import ZArith Lia.
From stdpp Require Import base option list strings gmap.

Local Open Scope string_scope.
Local Open Scope Z_scope.
Local Open Scope nat_scope.
Local Open Scope list_scope.

(** ** Outcomes of running Go code *)

(** A Go call either returns, or panics (fatal unless recovered), or, in
    this model only, exhausts the fuel given to an unbounded loop. *)
Inductive outcome (A : Type) : Type :=
| Returns (a : A)
| Panics (msg : string)
| OutOfFuel.
Arguments Returns {A} a.
Arguments Panics {A} msg.
Arguments OutOfFuel {A}.

#[global] Instance outcome_ret : MRet outcome := fun A a => Returns a.
#[global] Instance outcome_bind : MBind outcome := fun A B f m =>
  match m with
  | Returns a => f a
  | Panics msg => Panics msg
  | OutOfFuel => OutOfFuel
  end.

(** A cell that a well-formed Go heap always has: reading a dangling
    reference, or a cell whose contents do not have the shape of its type,
    cannot happen in Go; the model stops with a panic that says so. *)
Definition fault {A : Type} (what : string) : outcome A :=
  Panics ("fault: " +:+ what).

Definition from_option {A : Type} (what : string) (o : option A) : outcome A :=
  match o with
  | Some a => Returns a
  | None => fault what
  end.

Module reflect.

(** *** Kinds: [reflect.Kind], in the order of the Go declaration *)
Inductive Kind : Set :=
| Invalid | Bool
| Int | Int8 | Int16 | Int32 | Int64
| Uint | Uint8 | Uint16 | Uint32 | Uint64 | Uintptr
| Float32 | Float64 | Complex64 | Complex128
| Array | Chan | Func | Interface | Map | Ptr | Slice | String | Struct
| UnsafePointer.

#[global] Instance Kind_eq_dec : EqDecision Kind.
Proof. solve_decision. Defined.

Definition Kind_String (k : Kind) : string :=
  match k with
  | Invalid => "invalid" | Bool => "bool"
  | Int => "int" | Int8 => "int8" | Int16 => "int16" | Int32 => "int32"
  | Int64 => "int64"
  | Uint => "uint" | Uint8 => "uint8" | Uint16 => "uint16"
  | Uint32 => "uint32" | Uint64 => "uint64" | Uintptr => "uintptr"
  | Float32 => "float32" | Float64 => "float64"
  | Complex64 => "complex64" | Complex128 => "complex128"
  | Array => "array" | Chan => "chan" | Func => "func"
  | Interface => "interface" | Map => "map" | Ptr => "ptr"
  | Slice => "slice" | String => "string" | Struct => "struct"
  | UnsafePointer => "unsafe.Pointer"
  end.

(** *** Types: [reflect.Type]

    Types are finite trees.  [TBasic] covers the kinds whose types have no
    component the Builder looks at: the scalars, and chan, func, map,
    complex and unsafe.Pointer, whose values stay opaque.  [TInterface] is
    the empty interface.  A struct type carries its name, so two struct
    types with the same fields and different names are different keys of
    the getter cache. *)
Inductive basic : Set :=
| BBool
| BInt | BInt8 | BInt16 | BInt32 | BInt64
| BUint | BUint8 | BUint16 | BUint32 | BUint64 | BUintptr
| BFloat32 | BFloat64 | BComplex64 | BComplex128
| BChan | BFunc | BMap | BString | BUnsafePointer.

#[global] Instance basic_eq_dec : EqDecision basic.
Proof. solve_decision. Defined.

Definition basic_Kind (b : basic) : Kind :=
  match b with
  | BBool => Bool
  | BInt => Int | BInt8 => Int8 | BInt16 => Int16 | BInt32 => Int32
  | BInt64 => Int64
  | BUint => Uint | BUint8 => Uint8 | BUint16 => Uint16 | BUint32 => Uint32
  | BUint64 => Uint64 | BUintptr => Uintptr
  | BFloat32 => Float32 | BFloat64 => Float64
  | BComplex64 => Complex64 | BComplex128 => Complex128
  | BChan => Chan | BFunc => Func | BMap => Map | BString => String
  | BUnsafePointer => UnsafePointer
  end.

(** [reflect.StructField], with the struct tag already split into its
    key/value pairs ([Tag.Lookup] returns the first pair with the key). *)
Record StructField (T : Type) : Type := mkStructField {
  Name : string;
  PkgPath : string;          (* empty for an exported field *)
  Anonymous : bool;          (* embedded field *)
  Tag : list (string * string);
  FieldType : T;
}.
Arguments mkStructField {T}.
Arguments Name {T}.
Arguments PkgPath {T}.
Arguments Anonymous {T}.
Arguments Tag {T}.
Arguments FieldType {T}.

Inductive rtype : Type :=
| TBasic (b : basic)
| TArray (n : nat) (elem : rtype)
| TInterface
| TPtr (elem : rtype)
| TSlice (elem : rtype)
| TStruct (name : string) (fields : list (StructField rtype)).

Definition Type_Kind (t : rtype) : Kind :=
  match t with
  | TBasic b => basic_Kind b
  | TArray _ _ => Array
  | TInterface => Interface
  | TPtr _ => Ptr
  | TSlice _ => Slice
  | TStruct _ _ => Struct
  end.

Fixpoint Type_String (t : rtype) : string :=
  match t with
  | TBasic b => Kind_String (basic_Kind b)
  | TArray _ e => "[...]" +:+ Type_String e
  | TInterface => "interface {}"
  | TPtr e => "*" +:+ Type_String e
  | TSlice e => "[]" +:+ Type_String e
  | TStruct name _ => name
  end.

(** [Type.Elem]: panics unless the kind is Array, Chan, Map, Ptr or Slice
    (chan and map types are opaque here, so they panic too). *)
Definition Type_Elem (t : rtype) : outcome rtype :=
  match t with
  | TArray _ e | TPtr e | TSlice e => Returns e
  | _ => Panics ("reflect: Elem of invalid type " +:+ Type_String t)
  end.

(** [Type.NumField] and [Type.Field]: panic unless the kind is Struct. *)
Definition Type_NumField (t : rtype) : outcome nat :=
  match t with
  | TStruct _ fs => Returns (List.length fs)
  | _ => Panics ("reflect: NumField of non-struct type " +:+ Type_String t)
  end.

Definition Type_Field (t : rtype) (i : nat) : outcome (StructField rtype) :=
  match t with
  | TStruct _ fs =>
      match fs !! i with
      | Some f => Returns f
      | None => Panics "reflect: Field index out of bounds"
      end
  | _ => Panics ("reflect: Field of non-struct type " +:+ Type_String t)
  end.

(** Identity of types, as a boolean function: the comparison behind the
    cache keys and behind assignability. *)
Definition tag_eqb (a b : list (string * string)) : bool :=
  bool_decide (a = b).

Fixpoint rtype_eqb (a b : rtype) {struct a} : bool :=
  match a, b with
  | TBasic x, TBasic y => bool_decide (x = y)
  | TArray n x, TArray m y => bool_decide (n = m) && rtype_eqb x y
  | TInterface, TInterface => true
  | TPtr x, TPtr y => rtype_eqb x y
  | TSlice x, TSlice y => rtype_eqb x y
  | TStruct n fs, TStruct m gs =>
      bool_decide (n = m) &&
      (fix fields_eqb (fs gs : list (StructField rtype)) {struct fs} : bool :=
         match fs, gs with
         | [], [] => true
         | f :: fs', g :: gs' =>
             bool_decide (Name f = Name g)
             && bool_decide (PkgPath f = PkgPath g)
             && bool_decide (Anonymous f = Anonymous g)
             && tag_eqb (Tag f) (Tag g)
             && rtype_eqb (FieldType f) (FieldType g)
             && fields_eqb fs' gs'
         | _, _ => false
         end) fs gs
  | _, _ => false
  end.

(** *** Memory

    The store is a list of allocated objects; an address is an index in it
    and allocation appends.  A location is an address and a path of field
    and element indices into the object: the address of [x.f[2]] is the
    address of [x] with path [f; 2]. *)
Record loc : Set := Loc { l_addr : nat; l_path : list nat }.

Definition loc_at (l : loc) (i : nat) : loc :=
  Loc (l_addr l) (l_path l ++ [i]).

Inductive val : Type :=
| VBool (b : bool)
| VInt (n : Z)                     (* every integer kind *)
| VFloat (bits : Z)                (* IEEE bits of a float32 or float64 *)
| VString (s : string)
| VPtr (p : option loc)            (* None is nil *)
| VSlice (data : option (loc * nat)) (len cap : nat)
    (* slice header: backing array and offset of element 0; None is the
       nil slice *)
| VArray (elems : list val)
| VStruct (fields : list val)
| VIface (dyn : option (rtype * val))   (* None is the nil interface *)
| VOpaque.                               (* chan, func, map, complex, ... *)

Abbreviation store := (list val) (only parsing).

Fixpoint get_path (v : val) (p : list nat) : option val :=
  match p with
  | [] => Some v
  | i :: p' =>
      match v with
      | VArray l | VStruct l => l !! i ≫= fun x => get_path x p'
      | _ => None
      end
  end.

Fixpoint set_path (v : val) (p : list nat) (x : val) : option val :=
  match p with
  | [] => Some x
  | i :: p' =>
      match v with
      | VArray l =>
          y ← l !! i; y' ← set_path y p' x; Some (VArray (<[i:=y']> l))
      | VStruct l =>
          y ← l !! i; y' ← set_path y p' x; Some (VStruct (<[i:=y']> l))
      | _ => None
      end
  end.

Definition load (h : store) (l : loc) : option val :=
  h !! l_addr l ≫= fun v => get_path v (l_path l).

Definition write (h : store) (l : loc) (x : val) : option store :=
  v ← h !! l_addr l;
  v' ← set_path v (l_path l) x;
  Some (<[l_addr l := v']> h).

Definition alloc (h : store) (v : val) : loc * store :=
  (Loc (List.length h) [], h ++ [v]).

(** The zero value of a type. *)
Fixpoint zero (t : rtype) : val :=
  match t with
  | TBasic b =>
      match b with
      | BBool => VBool false
      | BInt | BInt8 | BInt16 | BInt32 | BInt64
      | BUint | BUint8 | BUint16 | BUint32 | BUint64 | BUintptr => VInt 0
      | BFloat32 | BFloat64 => VFloat 0
      | BString => VString ""
      | BComplex64 | BComplex128 | BChan | BFunc | BMap | BUnsafePointer =>
          VOpaque
      end
  | TArray n e => VArray (replicate n (zero e))
  | TInterface => VIface None
  | TPtr _ => VPtr None
  | TSlice _ => VSlice None 0 0
  | TStruct _ fs =>
      VStruct ((fix zeros (fs : list (StructField rtype)) : list val :=
                  match fs with
                  | [] => []
                  | f :: fs' => zero (FieldType f) :: zeros fs'
                  end) fs)
  end.

(** *** [reflect.Value]

    A Value is the zero Value, or a type with the place of the data and the
    read-only flag.  The place is a location of the store (the Value is
    addressable, Go's flagAddr) or a private copy of the data (it is not).
    The two read-only bits of Go ([flagStickyRO], [flagEmbedRO]) are kept
    apart because [Field] inherits only the sticky one. *)
Inductive slot : Type :=
| Addr (l : loc)
| Copy (v : val).

Inductive flagRO : Set := RW | EmbedRO | StickyRO.

Inductive Value : Type :=
| ZeroValue
| Val (typ : rtype) (ptr : slot) (ro : flagRO).

Definition Value_Kind (v : Value) : Kind :=
  match v with
  | ZeroValue => Invalid
  | Val t _ _ => Type_Kind t
  end.

Definition Value_IsValid (v : Value) : bool :=
  match v with
  | ZeroValue => false
  | Val _ _ _ => true
  end.

Definition Value_Type (v : Value) : outcome rtype :=
  match v with
  | ZeroValue => Panics "reflect: call of reflect.Value.Type on zero Value"
  | Val t _ _ => Returns t
  end.

Definition Value_CanAddr (v : Value) : bool :=
  match v with
  | Val _ (Addr _) _ => true
  | _ => false
  end.

Definition Value_CanSet (v : Value) : bool :=
  match v with
  | Val _ (Addr _) RW => true
  | _ => false
  end.

(** [flag.ro()]: any read-only bit becomes the sticky one. *)
Definition ro_of (f : flagRO) : flagRO :=
  match f with
  | RW => RW
  | _ => StickyRO
  end.

(** The data a Value denotes in a store. *)
Definition read (h : store) (v : Value) : outcome val :=
  match v with
  | ZeroValue => fault "read of the zero Value"
  | Val _ (Addr l) _ => from_option "dangling location" (load h l)
  | Val _ (Copy x) _ => Returns x
  end.

Arguments read : simpl never.

Definition mustBeExported (what : string) (v : Value) : outcome unit :=
  match v with
  | ZeroValue => Panics ("reflect: call of " +:+ what +:+ " on zero Value")
  | Val _ _ RW => Returns tt
  | Val _ _ _ =>
      Panics ("reflect: " +:+ what
              +:+ " using value obtained using unexported field")
  end.

(** [mustBeAssignable] returns the location that will be written. *)
Definition mustBeAssignable (what : string) (v : Value) : outcome loc :=
  match v with
  | ZeroValue => Panics ("reflect: call of " +:+ what +:+ " on zero Value")
  | Val _ (Addr l) RW => Returns l
  | Val _ (Copy _) RW =>
      Panics ("reflect: " +:+ what +:+ " using unaddressable value")
  | Val _ _ _ =>
      Panics ("reflect: " +:+ what
              +:+ " using value obtained using unexported field")
  end.

(** [v.mustBe(k)] *)
Definition mustBe (what : string) (k : Kind) (v : Value) : outcome unit :=
  if decide (Value_Kind v = k) then Returns tt
  else Panics ("reflect: call of " +:+ what +:+ " on "
               +:+ Kind_String (Value_Kind v) +:+ " Value").

(** [Value.IsNil]: for the kinds whose values are modelled. *)
Definition Value_IsNil (h : store) (v : Value) : outcome bool :=
  match Value_Kind v with
  | Ptr =>
      x ← read h v;
      match x with
      | VPtr p => Returns (bool_decide (p = None))
      | _ => fault "IsNil: contents do not match the type"
      end
  | Interface =>
      x ← read h v;
      match x with
      | VIface d => Returns (match d with None => true | Some _ => false end)
      | _ => fault "IsNil: contents do not match the type"
      end
  | Slice =>
      x ← read h v;
      match x with
      | VSlice d _ _ => Returns (bool_decide (d = None))
      | _ => fault "IsNil: contents do not match the type"
      end
  | _ =>
      Panics ("reflect: call of reflect.Value.IsNil on "
              +:+ Kind_String (Value_Kind v) +:+ " Value")
  end.

(** [Value.Elem]: the pointee of a pointer (addressable, with the read-only
    bits of the pointer), the contents of an interface (a copy, not
    addressable, sticky read-only when the interface is read-only); the zero
    Value for nil. *)
Definition Value_Elem (h : store) (v : Value) : outcome Value :=
  match v with
  | Val (TPtr e) _ ro =>
      x ← read h v;
      match x with
      | VPtr None => Returns ZeroValue
      | VPtr (Some l) => Returns (Val e (Addr l) ro)
      | _ => fault "Elem: contents do not match the type"
      end
  | Val TInterface _ ro =>
      x ← read h v;
      match x with
      | VIface None => Returns ZeroValue
      | VIface (Some (t, y)) => Returns (Val t (Copy y) (ro_of ro))
      | _ => fault "Elem: contents do not match the type"
      end
  | _ =>
      Panics ("reflect: call of reflect.Value.Elem on "
              +:+ Kind_String (Value_Kind v) +:+ " Value")
  end.

(** [Value.Field]: the i-th field of a struct; it is addressable when the
    struct is, and read-only when the field is unexported. *)
Definition Value_Field (v : Value) (i : nat) : outcome Value :=
  match v with
  | Val (TStruct _ fs) p ro =>
      match fs !! i with
      | None => Panics "reflect: Field index out of range"
      | Some f =>
          let ro' :=
            match ro with
            | StickyRO => StickyRO
            | _ => if decide (PkgPath f = "") then RW
                   else if Anonymous f then EmbedRO else StickyRO
            end in
          match p with
          | Addr l => Returns (Val (FieldType f) (Addr (loc_at l i)) ro')
          | Copy (VStruct xs) =>
              x ← from_option "Field: contents do not match the type"
                    (xs !! i);
              Returns (Val (FieldType f) (Copy x) ro')
          | Copy _ => fault "Field: contents do not match the type"
          end
      end
  | _ =>
      Panics ("reflect: call of reflect.Value.Field on "
              +:+ Kind_String (Value_Kind v) +:+ " Value")
  end.

(** [Value.FieldByIndex]: the loop over the index path; from the second
    index on, a pointer to a struct is followed first. *)
Fixpoint FieldByIndex_loop (h : store) (first : bool) (v : Value)
    (index : list nat) : outcome Value :=
  match index with
  | [] => Returns v
  | x :: rest =>
      v1 ← (if first then Returns v
            else match v with
                 | Val (TPtr (TStruct _ _)) _ _ =>
                     isnil ← Value_IsNil h v;
                     if (isnil : bool)
                     then Panics "reflect: indirection through nil pointer to embedded struct"
                     else Value_Elem h v
                 | _ => Returns v
                 end);
      v2 ← Value_Field v1 x;
      FieldByIndex_loop h false v2 rest
  end.

Definition Value_FieldByIndex (h : store) (v : Value) (index : list nat)
    : outcome Value :=
  match index with
  | [x] => Value_Field v x
  | _ =>
      _ ← mustBe "reflect.Value.FieldByIndex" Struct v;
      FieldByIndex_loop h true v index
  end.

(** [Value.Len], for slices, arrays and strings. *)
Definition Value_Len (h : store) (v : Value) : outcome nat :=
  match v with
  | Val (TSlice _) _ _ =>
      x ← read h v;
      match x with
      | VSlice _ len _ => Returns len
      | _ => fault "Len: contents do not match the type"
      end
  | Val (TArray n _) _ _ => Returns n
  | Val (TBasic BString) _ _ =>
      x ← read h v;
      match x with
      | VString s => Returns (String.length s)
      | _ => fault "Len: contents do not match the type"
      end
  | _ =>
      Panics ("reflect: call of reflect.Value.Len on "
              +:+ Kind_String (Value_Kind v) +:+ " Value")
  end.

(** [Value.Index], for slices and arrays.  An element of a slice is always
    addressable; an element of an array is when the array is. *)
Definition Value_Index (h : store) (v : Value) (i : nat) : outcome Value :=
  match v with
  | Val (TSlice e) _ ro =>
      x ← read h v;
      match x with
      | VSlice data len _ =>
          if decide (i < len) then
            match data with
            | Some (arr, off) =>
                Returns (Val e (Addr (loc_at arr (off + i))) (ro_of ro))
            | None => fault "Index: nil slice with elements"
            end
          else Panics "reflect: slice index out of range"
      | _ => fault "Index: contents do not match the type"
      end
  | Val (TArray n e) p ro =>
      if decide (i < n) then
        match p with
        | Addr l => Returns (Val e (Addr (loc_at l i)) (ro_of ro))
        | Copy (VArray xs) =>
            x ← from_option "Index: contents do not match the type"
                  (xs !! i);
            Returns (Val e (Copy x) (ro_of ro))
        | Copy _ => fault "Index: contents do not match the type"
        end
      else Panics "reflect: array index out of range"
  | _ =>
      Panics ("reflect: call of reflect.Value.Index on "
              +:+ Kind_String (Value_Kind v) +:+ " Value")
  end.

(** [Value.Set]: [v] must be settable, [x] exported, and the type of [x]
    assignable to the type of [v]: the same type, or [v] is an interface,
    which then holds [x] with its dynamic type. *)
Definition Value_Set (h : store) (v x : Value) : outcome store :=
  l ← mustBeAssignable "reflect.Set" v;
  _ ← mustBeExported "reflect.Set" x;
  match v, x with
  | Val tv _ _, Val tx _ _ =>
      if rtype_eqb tx tv then
        y ← read h x;
        from_option "dangling location" (write h l y)
      else
        match tv with
        | TInterface =>
            y ← read h x;
            from_option "dangling location"
              (write h l (VIface (Some (tx, y))))
        | _ =>
            Panics ("reflect.Set: value of type " +:+ Type_String tx
                    +:+ " is not assignable to type " +:+ Type_String tv)
        end
  | _, _ => fault "Set: zero Value"
  end.

(** Integers: the width of each signed kind, and the conversion of an
    int64 to that width (two's complement wrap-around). *)
Definition intSize : Z := 64.

Definition int_bits (k : Kind) : option Z :=
  match k with
  | Int => Some intSize
  | Int8 => Some 8%Z
  | Int16 => Some 16%Z
  | Int32 => Some 32%Z
  | Int64 => Some 64%Z
  | _ => None
  end.

Definition wrap (bits n : Z) : Z :=
  (Z.modulo (n + 2 ^ (bits - 1)) (2 ^ bits) - 2 ^ (bits - 1))%Z.

(** [Value.SetInt]: panics on every kind but the five signed ones. *)
Definition Value_SetInt (h : store) (v : Value) (x : Z) : outcome store :=
  l ← mustBeAssignable "reflect.Value.SetInt" v;
  match int_bits (Value_Kind v) with
  | Some bits => from_option "dangling location" (write h l (VInt (wrap bits x)))
  | None =>
      Panics ("reflect: call of reflect.Value.SetInt on "
              +:+ Kind_String (Value_Kind v) +:+ " Value")
  end.

Definition Value_SetString (h : store) (v : Value) (x : string)
    : outcome store :=
  l ← mustBeAssignable "reflect.Value.SetString" v;
  _ ← mustBe "reflect.Value.SetString" String v;
  from_option "dangling location" (write h l (VString x)).

Definition Value_SetBool (h : store) (v : Value) (x : bool) : outcome store :=
  l ← mustBeAssignable "reflect.Value.SetBool" v;
  _ ← mustBe "reflect.Value.SetBool" Bool v;
  from_option "dangling location" (write h l (VBool x)).

(** [Value.SetFloat]: [x] holds the bits of a float64; [float32_of] is the
    conversion to float32, which the model does not compute. *)
Definition Value_SetFloat (float32_of : Z -> Z) (h : store) (v : Value)
    (x : Z) : outcome store :=
  l ← mustBeAssignable "reflect.Value.SetFloat" v;
  match Value_Kind v with
  | Float32 => from_option "dangling location" (write h l (VFloat (float32_of x)))
  | Float64 => from_option "dangling location" (write h l (VFloat x))
  | _ =>
      Panics ("reflect: call of reflect.Value.SetFloat on "
              +:+ Kind_String (Value_Kind v) +:+ " Value")
  end.

(** [reflect.New(t)]: a pointer to a fresh zero value of type [t]. *)
Definition New (h : store) (t : rtype) : Value * store :=
  let '(l, h') := alloc h (zero t) in
  (Val (TPtr t) (Copy (VPtr (Some l))) RW, h').

(** [reflect.ValueOf(i)]: an interface value is nil or a dynamic type with
    its data. *)
Definition ValueOf (i : option (rtype * val)) : Value :=
  match i with
  | None => ZeroValue
  | Some (t, x) => Val t (Copy x) RW
  end.

(** The elements [0 .. len) of a slice, read from its backing array. *)
Definition slice_elems (h : store) (data : option (loc * nat)) (len : nat)
    : outcome (list val) :=
  match data with
  | None =>
      if decide (len = 0) then Returns []
      else fault "nil slice with elements"
  | Some (arr, off) =>
      a ← from_option "dangling location" (load h arr);
      match a with
      | VArray xs =>
          if decide (off + len ≤ List.length xs)
          then Returns (take len (drop off xs))
          else fault "slice beyond its backing array"
      | _ => fault "slice data is not an array"
      end
  end.

(** [Value.extendSlice(1)]: a fresh, unaddressable slice header one longer
    than [v].  When the capacity is used up the elements move to a new
    backing array; [growcap cap needed] is the capacity the run time picks,
    never used below [needed]. *)
Definition extendSlice (growcap : nat -> nat -> nat) (h : store) (v : Value)
    : outcome (Value * store) :=
  _ ← mustBeExported "reflect.Append" v;
  _ ← mustBe "reflect.Append" Slice v;
  match v with
  | Val (TSlice e) _ _ =>
      x ← read h v;
      match x with
      | VSlice data len cap =>
          if decide (len + 1 ≤ cap) then
            Returns (Val (TSlice e) (Copy (VSlice data (len + 1) cap)) RW, h)
          else
            xs ← slice_elems h data len;
            let cap' := Nat.max (len + 1) (growcap cap (len + 1)) in
            let '(l, h') :=
              alloc h (VArray (xs ++ replicate (cap' - len) (zero e))) in
            Returns (Val (TSlice e) (Copy (VSlice (Some (l, 0)) (len + 1) cap'))
                         RW, h')
      | _ => fault "Append: contents do not match the type"
      end
  | _ => fault "Append: not a slice type"
  end.

(** [reflect.Append(s, x)] with one element, as the Builder calls it. *)
Definition Append (growcap : nat -> nat -> nat) (h : store) (s x : Value)
    : outcome (Value * store) :=
  _ ← mustBe "reflect.Append" Slice s;
  n ← Value_Len h s;
  '(s', h1) ← extendSlice growcap h s;
  e ← Value_Index h1 s' n;
  h2 ← Value_Set h1 e x;
  Returns (s', h2).

End reflect.

(** ** The Builder *)

Abbreviation store := (list reflect.val) (only parsing).

(** [fieldGetter]: the two closures the source builds, as data.
    [makeFieldGetterByIndex] captures one index and calls [Field],
    [makeFieldGetterByIndexes] captures an index path and calls
    [FieldByIndex]. *)
Inductive fieldGetter : Type :=
| makeFieldGetterByIndex (idx : nat)
| makeFieldGetterByIndexes (idx : list nat).

Definition call_fieldGetter (g : fieldGetter) (h : store) (s : reflect.Value)
    : outcome reflect.Value :=
  match g with
  | makeFieldGetterByIndex idx => reflect.Value_Field s idx
  | makeFieldGetterByIndexes idx => reflect.Value_FieldByIndex h s idx
  end.

(** [structFieldGetters] is a Go map, a reference: the Builder state holds
    the map objects in [maps] and passes their indices around, so that two
    cache entries can be one and the same map. *)
Abbreviation structFieldGetters := (gmap string fieldGetter).
Abbreviation mapref := nat (only parsing).

Inductive error : Type :=
| IncorrectKindError (Actual Expected : reflect.Kind)
| FieldNotFoundError (Struct : reflect.Value) (FieldName : string)
| errorString (s : string).             (* the result of fmt.Errorf *)

Record Builder : Type := mkBuilder {
  root : reflect.Value;
  stack : list reflect.Value;            (* cursor is the last element *)
  nameTag : string;
  fieldGettersCache : option (list (reflect.rtype * mapref));
      (* None is the nil map; the first entry with a key is its value *)
}.

(** [Builder{}] *)
Definition Builder_zero : Builder :=
  mkBuilder reflect.ZeroValue [] "" None.

Record World : Type := mkWorld {
  heap : store;                          (* the data being built *)
  maps : list structFieldGetters;        (* the map objects *)
  b : Builder;
}.

Definition M (A : Type) : Type := World -> outcome (A * World).

#[global] Instance M_ret : MRet M := fun A a w => Returns (a, w).
#[global] Instance M_bind : MBind M := fun A B f m w =>
  match m w with
  | Returns (a, w') => f a w'
  | Panics msg => Panics msg
  | OutOfFuel => OutOfFuel
  end.

Definition panic {A : Type} (msg : string) : M A := fun _ => Panics msg.

(** A call into [reflect] that reads the store. *)
Definition liftR {A : Type} (f : store -> outcome A) : M A := fun w =>
  a ← f (heap w); Returns (a, w).

(** A call into [reflect] that writes the store. *)
Definition liftW (f : store -> outcome store) : M unit := fun w =>
  h ← f (heap w); Returns (tt, mkWorld h (maps w) (b w)).

(** A call into [reflect] that computes a value and writes the store. *)
Definition liftA {A : Type} (f : store -> outcome (A * store)) : M A :=
  fun w => '(a, h) ← f (heap w); Returns (a, mkWorld h (maps w) (b w)).

Definition pure_outcome {A : Type} (o : outcome A) : M A :=
  liftR (fun _ => o).

Definition get_b : M Builder := fun w => Returns (b w, w).
Definition set_stack (s : list reflect.Value) : M unit := fun w =>
  Returns (tt, mkWorld (heap w) (maps w)
                 (mkBuilder (root (b w)) s (nameTag (b w))
                            (fieldGettersCache (b w)))).
Definition set_cache (c : option (list (reflect.rtype * mapref))) : M unit :=
  fun w =>
  Returns (tt, mkWorld (heap w) (maps w)
                 (mkBuilder (root (b w)) (stack (b w)) (nameTag (b w)) c)).

(** Go map operations on the map objects. *)
Definition make_map : M mapref := fun w =>
  Returns (List.length (maps w),
           mkWorld (heap w) (maps w ++ [∅]) (b w)).

Definition map_assign (m : mapref) (k : string) (g : fieldGetter) : M unit :=
  fun w =>
  match maps w !! m with
  | Some fm =>
      Returns (tt, mkWorld (heap w) (<[m := <[k := g]> fm]> (maps w)) (b w))
  | None => fault "dangling map"
  end.

Definition map_index (m : mapref) (k : string) : M (option fieldGetter) :=
  fun w =>
  match maps w !! m with
  | Some fm => Returns (fm !! k, w)
  | None => fault "dangling map"
  end.

(** Operations on [map[reflect.Type]structFieldGetters]. *)
Fixpoint cache_lookup (c : list (reflect.rtype * mapref)) (s : reflect.rtype)
    : option mapref :=
  match c with
  | [] => None
  | (k, m) :: c' => if reflect.rtype_eqb k s then Some m else cache_lookup c' s
  end.

Definition cache_index (s : reflect.rtype) : M (option mapref) :=
  bb ← get_b;
  mret (match fieldGettersCache bb with
        | None => None
        | Some c => cache_lookup c s
        end).

Definition cache_assign (s : reflect.rtype) (m : mapref) : M unit :=
  bb ← get_b;
  match fieldGettersCache bb with
  | None => panic "assignment to entry in nil map"
  | Some c => set_cache (Some ((s, m) :: c))
  end.

Definition Tag_Lookup (tag : list (string * string)) (key : string)
    : option string :=
  snd <$> List.find (fun kv => bool_decide (fst kv = key)) tag.

Definition copyAndAppend (s : list nat) (i : nat) : list nat :=
  s ++ [i].

Definition checkKindInt (rt : reflect.rtype) : option error :=
  match reflect.Type_Kind rt with
  | reflect.Int | reflect.Int8 | reflect.Int16 | reflect.Int32
  | reflect.Int64 => None
  | k => Some (IncorrectKindError k reflect.Int)
  end.

Definition checkKindFloat (rt : reflect.rtype) : option error :=
  match reflect.Type_Kind rt with
  | reflect.Float32 | reflect.Float64 => None
  | k => Some (IncorrectKindError k reflect.Float64)
  end.

Definition checkKind (rt : reflect.rtype) (expected : reflect.Kind)
    : option error :=
  if decide (reflect.Type_Kind rt ≠ expected)
  then Some (IncorrectKindError (reflect.Type_Kind rt) expected)
  else None.

(** [NewBuilder(tag, v)]: [v] is an interface value.  The store is only
    handed to [Elem]. *)
Definition NewBuilder (h : store) (tag : string)
    (v : option (reflect.rtype * reflect.val))
    : outcome (Builder * option error) :=
  match v with
  | None => Returns (Builder_zero, Some (errorString "cannot build a nil value"))
  | Some _ =>
      let rv := reflect.ValueOf v in
      rt ← reflect.Value_Type rv;
      if decide (reflect.Type_Kind rt ≠ reflect.Ptr) then
        Returns (Builder_zero,
                 Some (errorString
                         ("cannot build a "
                          +:+ reflect.Kind_String (reflect.Type_Kind rt)
                          +:+ ": need a pointer")))
      else
        e ← reflect.Value_Elem h rv;
        Returns (mkBuilder e [e] tag None, None)
  end.

Section Methods.

(** What the Go run time and [fmt] decide, and the model leaves open: the
    capacity of a grown slice, the conversion of a float64 to float32, and
    the text [fmt] prints for a value under [%s]. *)
Variable growcap : nat -> nat -> nat.
Variable float32_of : Z -> Z.
Variable fmt_s : store -> reflect.Value -> string.

(** The body of the [for] loop of [getOrGenerateFieldGettersRecursive], run
    on the fields from index [i] on; [recurse] is the function itself. *)
Definition fields_loop (recurse : list nat -> reflect.rtype -> M unit)
    (m : mapref) (idx : list nat)
    : nat -> list (reflect.StructField reflect.rtype) -> M unit :=
  fix loop (i : nat) (fs : list (reflect.StructField reflect.rtype))
      {struct fs} : M unit :=
    match fs with
    | [] => mret tt
    | f :: fs' =>
        _ ← (if decide (reflect.PkgPath f ≠ "") then
               (* only consider exported fields *)
               mret tt
             else if reflect.Anonymous f then
               recurse (copyAndAppend idx i) (reflect.FieldType f)
             else
               bb ← get_b;
               let fieldName :=
                 match Tag_Lookup (reflect.Tag f) (nameTag bb) with
                 | Some n => n
                 | None => reflect.Name f
                 end in
               if decide (List.length idx = 0) then
                 map_assign m fieldName (makeFieldGetterByIndex i)
               else
                 map_assign m fieldName
                   (makeFieldGetterByIndexes (copyAndAppend idx i)));
        loop (S i) fs'
    end.

Fixpoint getOrGenerateFieldGettersRecursive (m : mapref) (idx : list nat)
    (s : reflect.rtype) {struct s} : M unit :=
  match s with
  | reflect.TStruct _ fields =>
      _ ← fields_loop (getOrGenerateFieldGettersRecursive m) m idx 0 fields;
      bb ← get_b;
      _ ← (if decide (fieldGettersCache bb = None)
           then set_cache (Some [])
           else mret tt);
      cache_assign s m
  | _ =>
      panic ("reflect: NumField of non-struct type " +:+ reflect.Type_String s)
  end.

Definition getOrGenerateFieldGetters (s : reflect.rtype) : M mapref :=
  if decide (reflect.Type_Kind s ≠ reflect.Struct) then
    panic "generateFieldGetters can only be called on a struct"
  else
    found ← cache_index s;
    match found with
    | Some m => mret m
    | None =>
        m ← make_map;
        _ ← getOrGenerateFieldGettersRecursive m [] s;
        _ ← cache_assign s m;
        mret m
    end.

Definition fieldGetter_ (t : reflect.rtype) (s : string)
    : M (option fieldGetter * option error) :=
  m ← getOrGenerateFieldGetters t;
  g ← map_index m s;
  match g with
  | None =>
      mret (None, Some (errorString
                          ("field '" +:+ s +:+ "' not accessible on '"
                           +:+ reflect.Type_String t +:+ "'")))
  | Some g => mret (Some g, None)
  end.

Definition top : M reflect.Value :=
  bb ← get_b;
  match last (stack bb) with
  | Some v => mret v
  | None => panic "runtime error: index out of range [-1]"
  end.

Definition Dump : M string := fun w =>
  frames ← (fix frames (i : nat) (xs : list reflect.Value)
              : outcome string :=
              match xs with
              | [] => Returns ""
              | x :: xs' =>
                  t ← reflect.Value_Type x;
                  rest ← frames (S i) xs';
                  Returns ((if decide (0 < i) then " | " else "")
                           +:+ reflect.Type_String t +:+ " ("
                           +:+ fmt_s (heap w) x +:+ ")" +:+ rest)
              end) 0 (stack (b w));
  Returns ("[" +:+ frames +:+ "]", w).

Definition push (v : reflect.Value) : M unit :=
  bb ← get_b;
  _ ← set_stack (stack bb ++ [v]);
  _ ← Dump;
  mret tt.

Definition pop : M unit :=
  bb ← get_b;
  match stack bb with
  | [] => panic "runtime error: slice bounds out of range [:-1]"
  | _ => set_stack (removelast (stack bb))
  end.

Definition len : M nat :=
  bb ← get_b; mret (List.length (stack bb)).

Definition replace (v : reflect.Value) : M unit :=
  bb ← get_b;
  match stack bb with
  | [] => panic "runtime error: index out of range [-1]"
  | _ => set_stack (<[List.length (stack bb) - 1 := v]> (stack bb))
  end.

(** The loop of [DigField]: follow interfaces and pointers.  Go puts no
    bound on it (a pointer stored in the interface it points to makes it
    spin), so the model takes fuel. *)
Fixpoint deref (fuel : nat) (h : store) (t : reflect.Value)
    : outcome reflect.Value :=
  if decide (reflect.Value_Kind t = reflect.Interface
             ∨ reflect.Value_Kind t = reflect.Ptr) then
    match fuel with
    | O => OutOfFuel
    | S fuel' => t' ← reflect.Value_Elem h t; deref fuel' h t'
    end
  else Returns t.

Definition DigField (fuel : nat) (s : string) : M (option error) :=
  t ← top;
  t ← liftR (fun h => deref fuel h t);
  rt ← pure_outcome (reflect.Value_Type t);
  match checkKind rt reflect.Struct with
  | Some err => mret (Some err)
  | None =>
      '(g, err) ← fieldGetter_ rt s;
      match err with
      | Some _ => mret (Some (FieldNotFoundError t s))
      | None =>
          f ← match g with
              | Some g => liftR (fun h => call_fieldGetter g h t)
              | None => panic "runtime error: invalid memory address or nil pointer dereference"
              end;
          if negb (reflect.Value_IsValid f) then
            mret (Some (FieldNotFoundError t s))
          else
            _ ← replace f;
            mret None
      end
  end.

Definition Save : M unit :=
  t ← top; push t.

(** [Reset]: [b.stack[:1]] needs room for one frame; every stack that held
    a frame has it. *)
Definition Reset : M unit :=
  bb ← get_b;
  match stack bb with
  | [] => panic "runtime error: slice bounds out of range [:1] with capacity 0"
  | _ => set_stack (<[0 := root bb]> (take 1 (stack bb)))
  end.

Definition Load : M unit :=
  n ← len;
  if decide (n < 2) then
    panic "tried to Back() when cursor was already at root"
  else pop.

Definition Cursor : M reflect.Value := top.

Definition IsSlice : M bool :=
  t ← top; mret (bool_decide (reflect.Value_Kind t = reflect.Slice)).

Definition IsSliceOrPtr : M bool :=
  t ← top;
  if decide (reflect.Value_Kind t = reflect.Slice) then mret true
  else if decide (reflect.Value_Kind t = reflect.Ptr) then
    rt ← pure_outcome (reflect.Value_Type t);
    e ← pure_outcome (reflect.Type_Elem rt);
    mret (bool_decide (reflect.Type_Kind e = reflect.Slice))
  else mret false.

Definition Last : M unit :=
  c ← Cursor;
  match reflect.Value_Kind c with
  | reflect.Slice | reflect.Array =>
      length ← liftR (fun h => reflect.Value_Len h c);
      if decide (0 < length) then
        x ← liftR (fun h => reflect.Value_Index h c (length - 1));
        replace x
      else mret tt
  | _ => mret tt
  end.

Definition SliceNewElem : M (option error) :=
  t ← top;
  rt ← pure_outcome (reflect.Value_Type t);
  match checkKind rt reflect.Slice with
  | Some err => mret (Some err)
  | None =>
      et ← pure_outcome (reflect.Type_Elem rt);
      elem ← liftA (fun h => Returns (reflect.New h et));
      ev ← liftR (fun h => reflect.Value_Elem h elem);
      newSlice ← liftA (fun h => reflect.Append growcap h t ev);
      _ ← liftW (fun h => reflect.Value_Set h t newSlice);
      n ← liftR (fun h => reflect.Value_Len h t);
      x ← liftR (fun h => reflect.Value_Index h t (n - 1));
      _ ← replace x;
      mret None
  end.

Definition SliceLastOrCreate : M (option error) :=
  t ← top;
  rt ← pure_outcome (reflect.Value_Type t);
  match checkKind rt reflect.Slice with
  | Some err => mret (Some err)
  | None =>
      n ← liftR (fun h => reflect.Value_Len h t);
      if decide (n = 0) then SliceNewElem
      else
        _ ← Last;
        mret None
  end.

Definition assertPtr (v : reflect.Value) : M unit :=
  if decide (reflect.Value_Kind v ≠ reflect.Ptr) then
    w ← (fun w => Returns (w, w));
    panic ("value '" +:+ fmt_s (heap w) v +:+ "' should be a ptr, not '"
           +:+ reflect.Kind_String (reflect.Value_Kind v) +:+ "'")
  else mret tt.

Definition SliceAppend (v : reflect.Value) : M (option error) :=
  _ ← assertPtr v;
  t ← top;
  (* pointer to a slice *)
  t ← (if decide (reflect.Value_Kind t = reflect.Ptr) then
         (* if the pointer is nil we need to allocate the slice *)
         isnil ← liftR (fun h => reflect.Value_IsNil h t);
         _ ← (if (isnil : bool) then
                rt ← pure_outcome (reflect.Value_Type t);
                et ← pure_outcome (reflect.Type_Elem rt);
                x ← liftA (fun h => Returns (reflect.New h et));
                liftW (fun h => reflect.Value_Set h t x)
              else mret tt);
         (* target the slice itself *)
         liftR (fun h => reflect.Value_Elem h t)
       else mret t);
  rt ← pure_outcome (reflect.Value_Type t);
  match checkKind rt reflect.Slice with
  | Some err => mret (Some err)
  | None =>
      et ← pure_outcome (reflect.Type_Elem rt);
      v ← (if decide (reflect.Type_Kind et = reflect.Ptr) then
             (* if it is a slice of pointers, we can just append *)
             mret v
           else
             (* otherwise we need to reference the value *)
             liftR (fun h => reflect.Value_Elem h v));
      newSlice ← liftA (fun h => reflect.Append growcap h t v);
      _ ← liftW (fun h => reflect.Value_Set h t newSlice);
      n ← liftR (fun h => reflect.Value_Len h t);
      x ← liftR (fun h => reflect.Value_Index h t (n - 1));
      _ ← replace x;
      mret None
  end.

(** [reflect.ValueOf(&s)]: the parameter [s] moves to a fresh cell. *)
Definition ValueOf_addr_string (h : store) (s : string)
    : outcome (reflect.Value * store) :=
  let '(l, h') := reflect.alloc h (reflect.VString s) in
  Returns (reflect.Val (reflect.TPtr (reflect.TBasic reflect.BString))
             (reflect.Copy (reflect.VPtr (Some l))) reflect.RW, h').

Definition SetString (s : string) : M (option error) :=
  t ← top;
  if decide (reflect.Value_Kind t = reflect.Ptr) then
    p ← liftA (fun h => ValueOf_addr_string h s);
    _ ← liftW (fun h => reflect.Value_Set h t p);
    mret None
  else
    rt ← pure_outcome (reflect.Value_Type t);
    match checkKind rt reflect.String with
    | Some err => mret (Some err)
    | None =>
        _ ← liftW (fun h => reflect.Value_SetString h t s);
        mret None
    end.

Definition SetBool (v : bool) : M (option error) :=
  t ← top;
  rt ← pure_outcome (reflect.Value_Type t);
  match checkKind rt reflect.Bool with
  | Some err => mret (Some err)
  | None =>
      _ ← liftW (fun h => reflect.Value_SetBool h t v);
      mret None
  end.

Definition SetFloat (n : Z) : M (option error) :=
  t ← top;
  rt ← pure_outcome (reflect.Value_Type t);
  match checkKindFloat rt with
  | Some err => mret (Some err)
  | None =>
      _ ← liftW (fun h => reflect.Value_SetFloat float32_of h t n);
      mret None
  end.

Definition SetInt (n : Z) : M (option error) :=
  t ← top;
  rt ← pure_outcome (reflect.Value_Type t);
  match checkKindInt rt with
  | Some err => mret (Some err)
  | None =>
      _ ← liftW (fun h => reflect.Value_SetInt h t n);
      mret None
  end.

Definition Set_ (v : reflect.Value) : M (option error) :=
  t ← top;
  _ ← liftW (fun h => reflect.Value_Set h t v);
  mret None.

(** The public operations, as data, and the call of one of them. *)
Inductive op : Type :=
| OpDigField (s : string)
| OpSave
| OpReset
| OpLoad
| OpLast
| OpSliceLastOrCreate
| OpSliceNewElem
| OpSliceAppend (v : reflect.Value)
| OpSetString (s : string)
| OpSetBool (v : bool)
| OpSetFloat (n : Z)
| OpSetInt (n : Z)
| OpSet (v : reflect.Value).

Definition noerr (m : M unit) : M (option error) :=
  _ ← m; mret None.

Definition call (fuel : nat) (o : op) : M (option error) :=
  match o with
  | OpDigField s => DigField fuel s
  | OpSave => noerr Save
  | OpReset => noerr Reset
  | OpLoad => noerr Load
  | OpLast => noerr Last
  | OpSliceLastOrCreate => SliceLastOrCreate
  | OpSliceNewElem => SliceNewElem
  | OpSliceAppend v => SliceAppend v
  | OpSetString s => SetString s
  | OpSetBool v => SetBool v
  | OpSetFloat n => SetFloat n
  | OpSetInt n => SetInt n
  | OpSet v => Set_ v
  end.

(** The states a Builder made by [NewBuilder] can be in: any number of
    calls that returned, with the owner of the data free to write to it
    between two calls. *)
Inductive reachable (b0 : Builder) : World -> Prop :=
| reach_new h ms : reachable b0 (mkWorld h ms b0)
| reach_call w fuel o r w' :
    reachable b0 w -> call fuel o w = Returns (r, w') -> reachable b0 w'
| reach_owner w h' :
    reachable b0 w -> reachable b0 (mkWorld h' (maps w) (b w)).

End Methods.

(** ** Vocabulary of the properties *)

(** What a call leaves alone.  [same_cursor]: the whole cursor stack and
    the root.  [top_only]: the root, the depth and every frame below the
    cursor. *)
Definition same_cursor (w w' : World) : Prop :=
  root (b w') = root (b w) /\ stack (b w') = stack (b w).

Definition top_only (w w' : World) : Prop :=
  root (b w') = root (b w)
  /\ List.length (stack (b w')) = List.length (stack (b w))
  /\ removelast (stack (b w')) = removelast (stack (b w)).

(** [keeps R m]: every run of [m] that returns relates the state before to
    the state after by [R]. *)
Definition keeps (R : World -> World -> Prop) {A : Type} (m : M A) : Prop :=
  forall w a w', m w = Returns (a, w') -> R w w'.

(** [fails_clean m]: when [m] returns an error, the cursor is as before. *)
Definition fails_clean (m : M (option error)) : Prop :=
  forall w e w', m w = Returns (Some e, w') -> same_cursor w w'.

(** The calls that move the cursor by overwriting the top frame. *)
Definition moves_cursor (o : op) : bool :=
  match o with
  | OpDigField _ | OpLast | OpSliceLastOrCreate | OpSliceNewElem
  | OpSliceAppend _ => true
  | _ => false
  end.

(** What a pointer of type [*t] points to, as [Elem] returns it: an
    addressable value of type [t], or the zero Value when the pointer is
    nil. *)
Definition pointee (t : reflect.rtype) (p : option reflect.loc)
    : reflect.Value :=
  match p with
  | Some l => reflect.Val t (reflect.Addr l) reflect.RW
  | None => reflect.ZeroValue
  end.

(** One cell lies inside another: same object, longer path. *)
Definition inside (inner outer : reflect.loc) : Prop :=
  reflect.l_addr inner = reflect.l_addr outer
  /\ reflect.l_path outer `prefix_of` reflect.l_path inner.

Definition disjoint (l1 l2 : reflect.loc) : Prop :=
  ~ inside l1 l2 /\ ~ inside l2 l1.

(** A slice header whose backing array is there, with room for [cap]
    elements. *)
Definition slice_ok (h : store) (data : option (reflect.loc * nat))
    (len cap : nat) : Prop :=
  len <= cap /\
  match data with
  | None => cap = 0
  | Some (arr, off) =>
      exists ys, reflect.load h arr = Some (reflect.VArray ys)
                 /\ off + cap <= List.length ys
  end.

(** The cell that [append] writes next: element [len] of the slice, when
    it fits the capacity. *)
Definition next_cell (data : option (reflect.loc * nat)) (len : nat)
    : option reflect.loc :=
  match data with
  | None => None
  | Some (arr, off) => Some (reflect.loc_at arr (off + len))
  end.

(** A struct type the cache builder can walk: every exported embedded
    field, at any depth, is itself a struct. *)
Fixpoint walkable (s : reflect.rtype) : bool :=
  match s with
  | reflect.TStruct _ fields =>
      forallb (fun f =>
                 if decide (reflect.PkgPath f ≠ "") then true
                 else if reflect.Anonymous f
                      then walkable (reflect.FieldType f)
                      else true) fields
  | _ => false
  end.

(** The cache as a list of entries (the nil map has none) and the entry
    of a type. *)
Definition cache_list (w : World) : list (reflect.rtype * mapref) :=
  match fieldGettersCache (b w) with
  | None => []
  | Some c => c
  end.

Definition cache_of (w : World) (s : reflect.rtype) : option mapref :=
  cache_lookup (cache_list w) s.

(** [grows m w w' added]: from [w] to [w'] the cache got the entries
    [added], all for the map [m], and nothing else changed but the contents
    of the map objects. *)
Definition grows (m : mapref) (w w' : World)
    (added : list (reflect.rtype * mapref)) : Prop :=
  heap w' = heap w
  /\ root (b w') = root (b w)
  /\ stack (b w') = stack (b w)
  /\ nameTag (b w') = nameTag (b w)
  /\ List.length (maps w') = List.length (maps w)
  /\ cache_list w' = added ++ cache_list w
  /\ Forall (fun p => snd p = m) added.

(** *** Vocabulary of the field resolution *)

(** The name a field is addressed by: the value of the name tag when the
    field has one, else the declared name. *)
Definition field_key (tag : string) (f : reflect.StructField reflect.rtype)
    : string :=
  match Tag_Lookup (reflect.Tag f) tag with
  | Some n => n
  | None => reflect.Name f
  end.

(** The assignments [m[fieldName] = getter] that the walk of a struct type
    makes, in the order it makes them: unexported fields give none, an
    embedded field gives those of its type under the longer index path,
    any other field gives one. *)
Definition registrations_loop
    (recurse : list nat -> reflect.rtype -> list (string * fieldGetter))
    (tag : string) (idx : list nat)
    : nat -> list (reflect.StructField reflect.rtype)
      -> list (string * fieldGetter) :=
  fix loop (i : nat) (fs : list (reflect.StructField reflect.rtype))
      {struct fs} : list (string * fieldGetter) :=
    match fs with
    | [] => []
    | f :: fs' =>
        (if decide (reflect.PkgPath f ≠ "") then []
         else if reflect.Anonymous f then
           recurse (copyAndAppend idx i) (reflect.FieldType f)
         else if decide (List.length idx = 0) then
           [(field_key tag f, makeFieldGetterByIndex i)]
         else
           [(field_key tag f,
             makeFieldGetterByIndexes (copyAndAppend idx i))])
        ++ loop (S i) fs'
    end.

Fixpoint registrations (tag : string) (idx : list nat) (s : reflect.rtype)
    {struct s} : list (string * fieldGetter) :=
  match s with
  | reflect.TStruct _ fields =>
      registrations_loop (registrations tag) tag idx 0 fields
  | _ => []
  end.

(** A Go map after a run of assignments: a later one for a key replaces an
    earlier one. *)
Definition assign_all (regs : list (string * fieldGetter))
    (fm : gmap string fieldGetter) : gmap string fieldGetter :=
  foldl (fun acc kv => <[fst kv := snd kv]> acc) fm regs.

(** The getter that the name [k] resolves to in the struct type [s]. *)
Definition resolve (tag : string) (s : reflect.rtype) (k : string)
    : option fieldGetter :=
  assign_all (registrations tag [] s) ∅ !! k.

(** [walked tag m regs w w']: from [w] to [w'] the map object [m] got the
    assignments [regs], no other map object changed, and the name tag is
    [tag]. *)
Definition walked (tag : string) (m : mapref)
    (regs : list (string * fieldGetter)) (w w' : World) : Prop :=
  nameTag (b w') = tag
  /\ forall fm, maps w !! m = Some fm ->
                maps w' = <[m := assign_all regs fm]> (maps w).

(** The index path a getter follows. *)
Definition path_of (g : fieldGetter) : list nat :=
  match g with
  | makeFieldGetterByIndex i => [i]
  | makeFieldGetterByIndexes idx => idx
  end.

(** The field at the end of an index path that goes through exported
    embedded fields only. *)
Fixpoint field_at (s : reflect.rtype) (path : list nat) {struct path}
    : option (reflect.StructField reflect.rtype) :=
  match path with
  | [] => None
  | i :: rest =>
      match s with
      | reflect.TStruct _ fs =>
          f ← fs !! i;
          match rest with
          | [] => Some f
          | _ :: _ =>
              if decide (reflect.PkgPath f = "") then
                if reflect.Anonymous f
                then field_at (reflect.FieldType f) rest
                else None
              else None
          end
      | _ => None
      end
  end.

(** The state with another value under the cursor. *)
Definition with_top (v : reflect.Value) (w : World) : World :=
  mkWorld (heap w) (maps w)
    (mkBuilder (root (b w))
       (<[List.length (stack (b w)) - 1 := v]> (stack (b w)))
       (nameTag (b w)) (fieldGettersCache (b w))).

(** [moved_valid w w']: the root is the same, and the stack is the same
    or differs by a new value, a valid one, under the cursor. *)
Definition moved_valid (w w' : World) : Prop :=
  root (b w') = root (b w)
  /\ (stack (b w') = stack (b w)
      \/ exists x, reflect.Value_IsValid x = true
                   /\ stack (b w')
                      = <[List.length (stack (b w)) - 1 := x]> (stack (b w))).

(** Every frame of the cursor stack holds a value. *)
Definition frames_valid (w : World) : Prop :=
  Forall (fun v => reflect.Value_IsValid v = true) (stack (b w)).

(** The state with the frames [below] put under the cursor stack. *)
Definition deeper (below : list reflect.Value) (w : World) : World :=
  mkWorld (heap w) (maps w)
    (mkBuilder (root (b w)) (below ++ stack (b w)) (nameTag (b w))
       (fieldGettersCache (b w))).

(** [lifts below m]: a run of [m] that returns on a stack with a cursor
    returns the same result above the frames [below], and leaves them
    alone. *)
Definition lifts (below : list reflect.Value) {A : Type} (m : M A) : Prop :=
  forall w a w', stack (b w) <> [] -> m w = Returns (a, w') ->
  stack (b w') <> [] /\ m (deeper below w) = Returns (a, deeper below w').

(** [own_getters w s]: in [w] the names of the struct type [s] are resolved
    by the getters of [s] itself: the cache has no entry for [s] yet, or
    its entry is a map that holds the assignments of the walk of [s].  An
    entry that [s] got as the embedded type of another struct is not of
    this kind: it is the map of that other struct. *)
Definition own_getters (w : World) (s : reflect.rtype) : Prop :=
  match cache_of w s with
  | None => True
  | Some m =>
      maps w !! m
      = Some (assign_all (registrations (nameTag (b w)) [] s) ∅)
  end.

(** ** A value to run the Builder on

    [[
    type Inner struct { Tags []string }
    type Base struct { ID int }
    type hidden struct { Key string }
    type Person struct {
        Name string; Tags []string; Age int8; N uint; P *int
        Any interface{}; Base; Opt *string
    }
    type Record struct { hidden; Name string }
    ]]
    with [p := &Person{Any: Inner{}}] handed to [NewBuilder]. *)
Module Example.
Import reflect.

Definition tstring : rtype := TBasic BString.

Definition field (n : string) (t : rtype) : StructField rtype :=
  mkStructField n "" false [] t.

Definition Inner : rtype := TStruct "Inner" [field "Tags" (TSlice tstring)].
Definition Base : rtype := TStruct "Base" [field "ID" (TBasic BInt)].

Definition Person : rtype :=
  TStruct "Person"
    [field "Name" tstring; field "Tags" (TSlice tstring);
     field "Age" (TBasic BInt8); field "N" (TBasic BUint);
     field "P" (TPtr (TBasic BInt)); field "Any" TInterface;
     mkStructField "Base" "" true [] Base; field "Opt" (TPtr tstring)].


Definition h0 : list val :=
  [VStruct [VString ""; VSlice None 0 0; VInt 0; VInt 0; VPtr None;
            VIface (Some (Inner, VStruct [VSlice None 0 0]));
            VStruct [VInt 0]; VPtr None]].

Definition p0 : option (rtype * val) :=
  Some (TPtr Person, VPtr (Some (Loc 0 []))).

(** One choice for what the model leaves open. *)
Definition growcap (cap needed : nat) : nat := cap + cap.
Definition float32_of (bits : Z) : Z := bits.
Definition fmt_s (h : list val) (v : Value) : string := "?".

Definition b0 : Builder :=
  match NewBuilder h0 "toml" p0 with
  | Returns (bb, _) => bb
  | _ => Builder_zero
  end.

Definition w0 : World := mkWorld h0 [] b0.

(** The state after a run of calls (the state where the run stops when a
    call does not return). *)
Definition after (ops : list op) (w : World) : World :=
  foldl (fun w o =>
           match call growcap float32_of fmt_s 8 o w with
           | Returns (_, w') => w'
           | _ => w
           end) w ops.

Definition w_name : World := after [OpDigField "Name"] w0.
Definition w_age : World := after [OpDigField "Age"] w0.
Definition w_uint : World := after [OpDigField "N"] w0.
Definition w_ptr_int : World := after [OpDigField "P"] w0.
Definition w_opt : World := after [OpDigField "Opt"] w0.
Definition w_tags : World := after [OpDigField "Tags"] w0.
Definition w_tags1 : World :=
  after [OpDigField "Tags"; OpSliceNewElem; OpSetString "x"; OpReset;
         OpDigField "Tags"] w0.
Definition w_saved : World := after [OpSave; OpDigField "Tags"; OpSave] w0.
Definition w_any_tags : World :=
  after [OpDigField "Any"; OpDigField "Tags"] w0.
Definition w_depth2 : World := after [OpSave] w0.

(** The state after the getters of [Person], and of [Record], are built. *)
Definition built (s : rtype) (w : World) : World :=
  match getOrGenerateFieldGetters s w with
  | Returns (_, w') => w'
  | _ => w
  end.

Definition w_depth2_name : World := after [OpSave; OpDigField "Name"] w0.
Definition w_person : World := built Person w0.

(** The cursors of some of these states. *)
Definition t_root : Value := Val Person (Addr (Loc 0 [])) RW.
Definition t_name : Value := Val tstring (Addr (Loc 0 [0])) RW.
Definition t_tags : Value := Val (TSlice tstring) (Addr (Loc 0 [1])) RW.
Definition t_age : Value := Val (TBasic BInt8) (Addr (Loc 0 [2])) RW.
Definition t_uint : Value := Val (TBasic BUint) (Addr (Loc 0 [3])) RW.
Definition t_ptr_int : Value := Val (TPtr (TBasic BInt)) (Addr (Loc 0 [4])) RW.
Definition t_opt : Value := Val (TPtr tstring) (Addr (Loc 0 [7])) RW.
Definition t_any_tags : Value := Val (TSlice tstring) (Copy (VSlice None 0 0)) RW.
Definition t_room : Value := Val (TSlice tstring) (Addr (Loc 0 [0])) RW.
Definition f_Base : StructField rtype := mkStructField "Base" "" true [] Base.

(** A slice with room left: [Tags] has length 1 and capacity 3 over an
    array whose spare cells hold old data. *)
Definition h_room : list val :=
  [VStruct [VSlice (Some (Loc 1 [], 0)) 1 3];
   VArray [VString "a"; VString "stale"; VString "stale"]].

Definition w_room : World :=
  after [OpDigField "Tags"]
    (mkWorld h_room []
       (mkBuilder (Val Inner (Addr (Loc 0 [])) RW)
          [Val Inner (Addr (Loc 0 [])) RW] "toml" None)).


(** More values: a pointer to a struct, a slice of pointers, a nil pointer
    to a slice, scalars, a struct held in an interface, and a Builder made
    from a typed nil pointer.
    [[
    type Outer struct { In *Inner }
    type Items struct { Items []*int }
    type Holder struct { List *[]string; S string }
    type Flat struct { On bool; F64 float64; F32 float32; Name string }
    type Box struct { Any interface{} }
    ]] *)
Definition Outer : rtype := TStruct "Outer" [field "In" (TPtr Inner)].
Definition Items : rtype :=
  TStruct "Items" [field "Items" (TSlice (TPtr (TBasic BInt)))].
Definition Flat : rtype :=
  TStruct "Flat" [field "On" (TBasic BBool); field "F64" (TBasic BFloat64);
                  field "F32" (TBasic BFloat32); field "Name" tstring].
Definition Box : rtype := TStruct "Box" [field "Any" TInterface].

(** The state of a fresh Builder on the value of type [t] at address 0. *)
Definition fresh (t : rtype) (h : list val) : World :=
  mkWorld h []
    (mkBuilder (Val t (Addr (Loc 0 [])) RW) [Val t (Addr (Loc 0 [])) RW]
       "toml" None).

Definition w_outer_in : World :=
  after [OpDigField "In"]
    (fresh Outer [VStruct [VPtr (Some (Loc 1 []))];
                  VStruct [VSlice None 0 0]]).
Definition w_items : World :=
  after [OpDigField "Items"] (fresh Items [VStruct [VSlice None 0 0]; VInt 7]).
Definition h_flat : list val :=
  [VStruct [VBool false; VFloat 0; VFloat 0; VString ""]].
Definition w_on : World := after [OpDigField "On"] (fresh Flat h_flat).
Definition w_f64 : World := after [OpDigField "F64"] (fresh Flat h_flat).
Definition w_f32 : World := after [OpDigField "F32"] (fresh Flat h_flat).
Definition w_box_on : World :=
  after [OpDigField "Any"; OpDigField "On"]
    (fresh Box [VStruct [VIface (Some (Flat,
                  VStruct [VBool false; VFloat 0; VFloat 0; VString ""]))]]).

Definition fields_of (t : rtype) : list (StructField rtype) :=
  match t with
  | TStruct _ fs => fs
  | _ => []
  end.

(** Back at the root, with the getters of [Person] in the cache; back at
    the pointer [In], with those of [Inner] in the cache. *)
Definition w_back : World := after [OpSave; OpDigField "Name"; OpLoad] w0.
Definition w_outer_back : World :=
  after [OpSave; OpDigField "Tags"; OpLoad] w_outer_in.

Definition p_nil : option (rtype * val) := Some (TPtr Person, VPtr None).
Definition w_nil : World :=
  mkWorld [] []
    (match NewBuilder [] "toml" p_nil with
     | Returns (bb, _) => bb
     | _ => Builder_zero
     end).

End Example.

(** ** Reasoning about the monad *)

Lemma bind_returns {A B : Type} (m : M A) (f : A -> M B) w r w'' :
  (m ≫= f) w = Returns (r, w'') <->
  exists a w', m w = Returns (a, w') /\ f a w' = Returns (r, w'').
Proof.
  unfold mbind, M_bind. split.
  - destruct (m w) as [[a w']| |]; try discriminate. eauto.
  - intros (a & w' & -> & Hf). exact Hf.
Qed.

Lemma bind_returns_eq {A B : Type} (m : M A) (f : A -> M B) w a w' :
  m w = Returns (a, w') -> (m ≫= f) w = f a w'.
Proof. unfold mbind, M_bind. intros ->. reflexivity. Qed.

Lemma bind_panics {A B : Type} (m : M A) (f : A -> M B) w msg :
  m w = Panics msg -> (m ≫= f) w = Panics msg.
Proof. unfold mbind, M_bind. intros ->. reflexivity. Qed.

Lemma ret_returns {A : Type} (a : A) w : mret (M := M) a w = Returns (a, w).
Proof. reflexivity. Qed.

#[local] Instance same_cursor_refl : Reflexive same_cursor.
Proof. intros w. split; reflexivity. Qed.

#[local] Instance same_cursor_trans : Transitive same_cursor.
Proof.
  intros w1 w2 w3 [H1 H2] [H3 H4]. split; congruence.
Qed.

#[local] Instance top_only_refl : Reflexive top_only.
Proof. intros w. repeat split; reflexivity. Qed.

#[local] Instance top_only_trans : Transitive top_only.
Proof.
  intros w1 w2 w3 (H1 & H2 & H3) (H4 & H5 & H6). repeat split; congruence.
Qed.

Lemma same_cursor_top_only w w' : same_cursor w w' -> top_only w w'.
Proof. intros [H1 H2]. repeat split; congruence. Qed.

Section Keeps.
Context (R : World -> World -> Prop) `{!Reflexive R} `{!Transitive R}.

Lemma keeps_ret {A : Type} (a : A) : keeps R (mret a).
Proof. intros w x w' H. inversion H; subst. reflexivity. Qed.

Lemma keeps_bind {A B : Type} (m : M A) (f : A -> M B) :
  keeps R m -> (forall a, keeps R (f a)) -> keeps R (m ≫= f).
Proof.
  intros Hm Hf w r w'' H. apply bind_returns in H as (a & w' & H1 & H2).
  transitivity w'; [eapply Hm | eapply Hf]; eassumption.
Qed.

Lemma keeps_panic {A : Type} msg : keeps R (panic (A := A) msg).
Proof. intros w a w' H. discriminate. Qed.

End Keeps.

Lemma keeps_weaken (R R' : World -> World -> Prop) {A : Type} (m : M A) :
  (forall w w', R w w' -> R' w w') -> keeps R m -> keeps R' m.
Proof. intros HR Hm w a w' H. apply HR. eapply Hm. eassumption. Qed.

(** ** Induction on types *)

Section rtype_induction.
Variable P : reflect.rtype -> Prop.
Hypothesis HBasic : forall k, P (reflect.TBasic k).
Hypothesis HArray : forall n e, P e -> P (reflect.TArray n e).
Hypothesis HInterface : P reflect.TInterface.
Hypothesis HPtr : forall e, P e -> P (reflect.TPtr e).
Hypothesis HSlice : forall e, P e -> P (reflect.TSlice e).
Hypothesis HStruct : forall name fs,
  Forall (fun f => P (reflect.FieldType f)) fs -> P (reflect.TStruct name fs).

Fixpoint rtype_nested_ind (t : reflect.rtype) : P t :=
  match t with
  | reflect.TBasic k => HBasic k
  | reflect.TArray n e => HArray n e (rtype_nested_ind e)
  | reflect.TInterface => HInterface
  | reflect.TPtr e => HPtr e (rtype_nested_ind e)
  | reflect.TSlice e => HSlice e (rtype_nested_ind e)
  | reflect.TStruct name fs =>
      HStruct name fs
        ((fix all (fs : list (reflect.StructField reflect.rtype))
            : Forall (fun f => P (reflect.FieldType f)) fs :=
            match fs with
            | [] => @List.Forall_nil _ _
            | f :: fs' =>
                @List.Forall_cons _ _ f fs'
                  (rtype_nested_ind (reflect.FieldType f)) (all fs')
            end) fs)
  end.
End rtype_induction.

Lemma rtype_eqb_refl (t : reflect.rtype) : reflect.rtype_eqb t t = true.
Proof.
  induction t using rtype_nested_ind; simpl.
  - apply bool_decide_eq_true_2. reflexivity.
  - rewrite IHt. rewrite bool_decide_eq_true_2; reflexivity.
  - reflexivity.
  - assumption.
  - assumption.
  - rewrite bool_decide_eq_true_2 by reflexivity. simpl.
    induction H as [|f fs Hf _ IH]; [reflexivity|].
    rewrite !bool_decide_eq_true_2 by reflexivity.
    unfold reflect.tag_eqb. rewrite bool_decide_eq_true_2 by reflexivity.
    rewrite Hf. simpl. exact IH.
Qed.

(** ** The cursor is only moved by [replace] and the stack operations *)

Create HintDb keeps.

Lemma keeps_liftR {A : Type} (f : store -> outcome A) :
  keeps same_cursor (liftR f).
Proof.
  intros w a w' H. unfold liftR in H.
  destruct (f (heap w)); simpl in H; inversion H; subst. reflexivity.
Qed.

Lemma keeps_liftW (f : store -> outcome store) : keeps same_cursor (liftW f).
Proof.
  intros w a w' H. unfold liftW in H.
  destruct (f (heap w)); simpl in H; inversion H; subst. split; reflexivity.
Qed.

Lemma keeps_liftA {A : Type} (f : store -> outcome (A * store)) :
  keeps same_cursor (liftA f).
Proof.
  intros w a w' H. unfold liftA in H.
  destruct (f (heap w)) as [[x h]| |]; simpl in H; inversion H; subst.
  split; reflexivity.
Qed.

Lemma keeps_pure_outcome {A : Type} (o : outcome A) :
  keeps same_cursor (pure_outcome o).
Proof. apply keeps_liftR. Qed.

Lemma keeps_get_b : keeps same_cursor get_b.
Proof. intros w a w' H. inversion H; subst. reflexivity. Qed.

Lemma keeps_set_cache c : keeps same_cursor (set_cache c).
Proof. intros w a w' H. inversion H; subst. split; reflexivity. Qed.

Lemma keeps_make_map : keeps same_cursor make_map.
Proof. intros w a w' H. inversion H; subst. split; reflexivity. Qed.

Lemma keeps_map_assign m k g : keeps same_cursor (map_assign m k g).
Proof.
  intros w a w' H. unfold map_assign in H.
  destruct (maps w !! m); inversion H; subst. split; reflexivity.
Qed.

Lemma keeps_map_index m k : keeps same_cursor (map_index m k).
Proof.
  intros w a w' H. unfold map_index in H.
  destruct (maps w !! m); inversion H; subst. reflexivity.
Qed.

#[local] Hint Resolve keeps_liftR keeps_liftW keeps_liftA keeps_pure_outcome
  keeps_get_b keeps_set_cache keeps_make_map keeps_map_assign keeps_map_index
  : keeps.

(** Split a [keeps] goal along the binds of the code. *)
Ltac keeps_step :=
  first
    [ apply keeps_ret; typeclasses eauto
    | apply keeps_panic
    | solve [auto with keeps]
    | apply keeps_bind; [typeclasses eauto | | intros ?]
    | match goal with
      | |- keeps _ (if ?c then _ else _) => destruct c
      | |- keeps _ (match ?x with _ => _ end) => destruct x
      | |- keeps _ (let '(_, _) := ?x in _) => destruct x
      end ].

Ltac keeps_auto := repeat keeps_step.

Lemma keeps_cache_index s : keeps same_cursor (cache_index s).
Proof. unfold cache_index. keeps_auto. Qed.

Lemma keeps_cache_assign s m : keeps same_cursor (cache_assign s m).
Proof. unfold cache_assign. keeps_auto. Qed.

#[local] Hint Resolve keeps_cache_index keeps_cache_assign : keeps.

Lemma keeps_fields_loop recurse m idx :
  forall fs, Forall (fun f => forall idx', keeps same_cursor
                                 (recurse idx' (reflect.FieldType f))) fs ->
  forall i, keeps same_cursor (fields_loop recurse m idx i fs).
Proof.
  induction 1 as [|f fs Hf _ IH]; intros i; simpl.
  - keeps_auto.
  - apply keeps_bind; [typeclasses eauto| |intros _; apply IH].
    keeps_auto.
Qed.

Lemma keeps_getOrGenerateFieldGettersRecursive s :
  forall m idx,
  keeps same_cursor (getOrGenerateFieldGettersRecursive m idx s).
Proof.
  induction s using rtype_nested_ind; intros m idx; simpl;
    try apply keeps_panic.
  apply keeps_bind; [typeclasses eauto| |intros _].
  - apply keeps_fields_loop. eapply Forall_impl; [exact H|].
    intros f Hf idx'. apply Hf.
  - keeps_auto.
Qed.

#[local] Hint Resolve keeps_getOrGenerateFieldGettersRecursive : keeps.

Lemma keeps_getOrGenerateFieldGetters s :
  keeps same_cursor (getOrGenerateFieldGetters s).
Proof. unfold getOrGenerateFieldGetters. keeps_auto. Qed.

#[local] Hint Resolve keeps_getOrGenerateFieldGetters : keeps.

Lemma keeps_fieldGetter_ t s : keeps same_cursor (fieldGetter_ t s).
Proof. unfold fieldGetter_. keeps_auto. Qed.

Lemma keeps_top : keeps same_cursor top.
Proof. unfold top. keeps_auto. Qed.

#[local] Hint Resolve keeps_fieldGetter_ keeps_top : keeps.

Lemma keeps_set_stack_length s :
  forall w a w', set_stack s w = Returns (a, w') ->
  root (b w') = root (b w) /\ stack (b w') = s.
Proof. intros w a w' H. inversion H; subst. split; reflexivity. Qed.

Lemma insert_last {A : Type} (l : list A) (y x : A) :
  <[List.length (l ++ [y]) - 1 := x]> (l ++ [y]) = l ++ [x].
Proof.
  rewrite length_app. simpl.
  replace (List.length l + 1 - 1) with (List.length l + 0) by lia.
  rewrite insert_app_r. reflexivity.
Qed.

Lemma removelast_insert_last {A : Type} (l : list A) (x : A) :
  removelast (<[List.length l - 1 := x]> l) = removelast l.
Proof.
  destruct l as [|y l _] using rev_ind; [reflexivity|].
  rewrite insert_last, !removelast_last. reflexivity.
Qed.

Lemma keeps_replace v : keeps top_only (replace v).
Proof.
  intros w a w' H. unfold replace in H.
  apply bind_returns in H as (bb & w1 & H1 & H2). inversion H1; subst.
  destruct (stack (b w1)) eqn:E; [discriminate|].
  apply keeps_set_stack_length in H2 as [Hr Hs].
  repeat split; [exact Hr| |]; rewrite Hs, <- E.
  - apply length_insert.
  - apply removelast_insert_last.
Qed.

Lemma fails_clean_ret r : fails_clean (mret r).
Proof. intros w e w' H. inversion H; subst. reflexivity. Qed.

Lemma fails_clean_panic msg : fails_clean (panic msg).
Proof. intros w e w' H. discriminate. Qed.

Lemma fails_clean_bind {A : Type} (m : M A) (f : A -> M (option error)) :
  keeps same_cursor m -> (forall a, fails_clean (f a)) ->
  fails_clean (m ≫= f).
Proof.
  intros Hm Hf w e w'' H. apply bind_returns in H as (a & w' & H1 & H2).
  transitivity w'; [eapply Hm | eapply Hf]; eassumption.
Qed.

Lemma fails_clean_then_nil {A : Type} (m : M A) :
  fails_clean (m ≫= fun _ => mret None).
Proof.
  intros w e w'' H. apply bind_returns in H as (a & w' & _ & H2).
  inversion H2.
Qed.

Ltac fails_step :=
  first
    [ apply fails_clean_ret
    | apply fails_clean_panic
    | apply fails_clean_then_nil
    | apply fails_clean_bind; [solve [keeps_auto] | intros ?]
    | match goal with
      | |- fails_clean (if ?c then _ else _) => destruct c
      | |- fails_clean (match ?x with _ => _ end) => destruct x
      end ].

Ltac fails_auto := repeat fails_step.

Ltac top_step :=
  first
    [ apply keeps_ret; typeclasses eauto
    | apply keeps_panic
    | apply keeps_replace
    | solve [apply (keeps_weaken same_cursor);
             [exact same_cursor_top_only | keeps_auto]]
    | apply keeps_bind; [typeclasses eauto | | intros ?]
    | match goal with
      | |- keeps _ (if ?c then _ else _) => destruct c
      | |- keeps _ (match ?x with _ => _ end) => destruct x
      end ].

Ltac top_auto := repeat top_step.

Section Cursor.
Variable growcap : nat -> nat -> nat.
Variable float32_of : Z -> Z.
Variable fmt_s : store -> reflect.Value -> string.

Lemma DigField_fails_clean fuel s : fails_clean (DigField fuel s).
Proof. unfold DigField. fails_auto. Qed.

Lemma SliceNewElem_fails_clean : fails_clean (SliceNewElem growcap).
Proof. unfold SliceNewElem. fails_auto. Qed.

Lemma SliceLastOrCreate_fails_clean :
  fails_clean (SliceLastOrCreate growcap).
Proof.
  unfold SliceLastOrCreate. fails_auto.
Qed.

Lemma keeps_assertPtr v : keeps same_cursor (assertPtr fmt_s v).
Proof.
  unfold assertPtr. keeps_auto.
  intros w a w' H. inversion H; subst. reflexivity.
Qed.

Lemma SliceAppend_fails_clean v : fails_clean (SliceAppend growcap fmt_s v).
Proof.
  unfold SliceAppend.
  apply fails_clean_bind; [apply keeps_assertPtr|intros _].
  fails_auto.
Qed.

Lemma SetString_fails_clean s : fails_clean (SetString s).
Proof. unfold SetString. fails_auto. Qed.

Lemma SetBool_fails_clean v : fails_clean (SetBool v).
Proof. unfold SetBool. fails_auto. Qed.

Lemma SetFloat_fails_clean n : fails_clean (SetFloat float32_of n).
Proof. unfold SetFloat. fails_auto. Qed.

Lemma SetInt_fails_clean n : fails_clean (SetInt n).
Proof. unfold SetInt. fails_auto. Qed.

Lemma Set_fails_clean v : fails_clean (Set_ v).
Proof. unfold Set_. fails_auto. Qed.

Lemma noerr_fails_clean (m : M unit) : fails_clean (noerr m).
Proof. unfold noerr. apply fails_clean_then_nil. Qed.

Lemma call_fails_clean fuel o :
  fails_clean (call growcap float32_of fmt_s fuel o).
Proof.
  destruct o; simpl;
    auto using DigField_fails_clean, SliceNewElem_fails_clean,
      SliceLastOrCreate_fails_clean, SliceAppend_fails_clean,
      SetString_fails_clean, SetBool_fails_clean, SetFloat_fails_clean,
      SetInt_fails_clean, Set_fails_clean, noerr_fails_clean.
Qed.

(** The operations that move the cursor change the top frame only. *)
Lemma DigField_top_only fuel s : keeps top_only (DigField fuel s).
Proof. unfold DigField. top_auto. Qed.

Lemma Last_top_only : keeps top_only Last.
Proof. unfold Last, Cursor. top_auto. Qed.

Lemma SliceNewElem_top_only : keeps top_only (SliceNewElem growcap).
Proof. unfold SliceNewElem. top_auto. Qed.

Lemma SliceLastOrCreate_top_only : keeps top_only (SliceLastOrCreate growcap).
Proof.
  unfold SliceLastOrCreate. top_auto;
    auto using SliceNewElem_top_only, Last_top_only.
Qed.

Lemma SliceAppend_top_only v : keeps top_only (SliceAppend growcap fmt_s v).
Proof.
  unfold SliceAppend.
  apply keeps_bind; [typeclasses eauto| |intros _].
  - apply (keeps_weaken same_cursor);
      [exact same_cursor_top_only | apply keeps_assertPtr].
  - top_auto.
Qed.

Lemma setters_same_cursor o :
  match o with
  | OpSetString _ | OpSetBool _ | OpSetFloat _ | OpSetInt _ | OpSet _ => True
  | _ => False
  end ->
  forall fuel, keeps same_cursor (call growcap float32_of fmt_s fuel o).
Proof.
  destruct o; intros [] fuel; simpl.
  - unfold SetString. keeps_auto.
  - unfold SetBool. keeps_auto.
  - unfold SetFloat. keeps_auto.
  - unfold SetInt. keeps_auto.
  - unfold Set_. keeps_auto.
Qed.

End Cursor.

(** ** What each call does to the cursor stack *)

Lemma head_removelast {A : Type} (l : list A) :
  2 <= List.length l -> head (removelast l) = head l.
Proof.
  destruct l as [|x [|y l]]; simpl; intros; try lia. reflexivity.
Qed.

Lemma top_only_head w w' :
  top_only w w' -> 2 <= List.length (stack (b w)) ->
  head (stack (b w')) = head (stack (b w)).
Proof.
  intros (_ & Hl & Hr) H2.
  rewrite <- (head_removelast (stack (b w))) by exact H2.
  rewrite <- (head_removelast (stack (b w'))) by lia.
  congruence.
Qed.

Lemma top_returns w v w' :
  top w = Returns (v, w') -> w' = w /\ last (stack (b w)) = Some v.
Proof.
  unfold top. intros H. apply bind_returns in H as (bb & w1 & H1 & H2).
  inversion H1; subst. destruct (last (stack (b w1))); inversion H2; subst.
  split; reflexivity.
Qed.

Lemma top_of_last w v :
  last (stack (b w)) = Some v -> top w = Returns (v, w).
Proof.
  intros H. unfold top. erewrite bind_returns_eq by reflexivity.
  rewrite H. reflexivity.
Qed.

Lemma last_Some_nonempty {A : Type} (l : list A) v :
  last l = Some v -> l <> [].
Proof. intros H ->. discriminate. Qed.

Section Frames.
Variable growcap : nat -> nat -> nat.
Variable float32_of : Z -> Z.
Variable fmt_s : store -> reflect.Value -> string.

Lemma Dump_returns w s w' : Dump fmt_s w = Returns (s, w') -> w' = w.
Proof.
  unfold Dump. intros H.
  match type of H with mbind _ ?o = _ => destruct o end;
    simpl in H; inversion H. reflexivity.
Qed.

Lemma Save_frame w a w' :
  Save fmt_s w = Returns (a, w') ->
  root (b w') = root (b w)
  /\ exists v, last (stack (b w)) = Some v
               /\ stack (b w') = stack (b w) ++ [v].
Proof.
  unfold Save, push. intros H.
  apply bind_returns in H as (v & w1 & H1 & H).
  apply top_returns in H1 as [-> Hv].
  apply bind_returns in H as (bb & w1 & H1 & H). inversion H1; subst.
  apply bind_returns in H as (u & w2 & H2 & H).
  apply keeps_set_stack_length in H2 as [Hr Hs].
  apply bind_returns in H as (str & w3 & H3 & H).
  apply Dump_returns in H3 as ->. inversion H; subst.
  split; [exact Hr|]. exists v. split; [exact Hv|exact Hs].
Qed.

Lemma Load_frame w a w' :
  Load w = Returns (a, w') ->
  root (b w') = root (b w) /\ 2 <= List.length (stack (b w))
  /\ stack (b w') = removelast (stack (b w)).
Proof.
  unfold Load, len, pop. intros H.
  apply bind_returns in H as (n & w1 & H1 & H).
  apply bind_returns in H1 as (bb & w2 & H1 & H2).
  inversion H1; subst. inversion H2; subst. clear H1 H2.
  destruct (decide (List.length (stack (b w1)) < 2)); [discriminate|].
  apply bind_returns in H as (bb & w2 & H1 & H). inversion H1; subst.
  destruct (stack (b w2)) eqn:E; [discriminate|].
  apply keeps_set_stack_length in H as [Hr Hs].
  rewrite <- E in *. repeat split; [exact Hr|lia|exact Hs].
Qed.

Lemma Reset_frame w a w' :
  Reset w = Returns (a, w') ->
  root (b w') = root (b w) /\ stack (b w') = [root (b w)]
  /\ heap w' = heap w.
Proof.
  unfold Reset. intros H.
  apply bind_returns in H as (bb & w1 & H1 & H). inversion H1; subst.
  destruct (stack (b w1)) eqn:E; [discriminate|].
  inversion H; subst. simpl. repeat split; reflexivity.
Qed.

Lemma Reset_returns w :
  stack (b w) <> [] ->
  exists w', Reset w = Returns (tt, w') /\ stack (b w') = [root (b w)]
             /\ heap w' = heap w.
Proof.
  intros Hne. unfold Reset. erewrite bind_returns_eq by reflexivity.
  destruct (stack (b w)) eqn:E; [congruence|].
  eexists. split; [reflexivity|]. simpl. split; reflexivity.
Qed.

Lemma noerr_returns (m : M unit) w r w' :
  noerr m w = Returns (r, w') -> exists a, m w = Returns (a, w').
Proof.
  unfold noerr. intros H. apply bind_returns in H as (a & w1 & H1 & H2).
  inversion H2; subst. eauto.
Qed.

(** The frame of every call: the root never changes; [Reset] leaves
    [[root]]; [Save] adds a copy of the cursor; [Load] drops the cursor;
    the setters leave the stack alone; every other call changes the top
    frame only. *)
Lemma call_frame fuel o w r w' :
  call growcap float32_of fmt_s fuel o w = Returns (r, w') ->
  root (b w') = root (b w) /\
  match o with
  | OpReset => stack (b w') = [root (b w)]
  | OpSave => exists v, last (stack (b w)) = Some v
                        /\ stack (b w') = stack (b w) ++ [v]
  | OpLoad => 2 <= List.length (stack (b w))
              /\ stack (b w') = removelast (stack (b w))
  | OpSetString _ | OpSetBool _ | OpSetFloat _ | OpSetInt _ | OpSet _ =>
      stack (b w') = stack (b w)
  | _ => List.length (stack (b w')) = List.length (stack (b w))
         /\ removelast (stack (b w')) = removelast (stack (b w))
  end.
Proof.
  intros H.
  destruct o;
    try (match type of H with
         | call _ _ _ _ ?o _ = _ =>
             destruct (setters_same_cursor growcap float32_of fmt_s o I
                         fuel _ _ _ H) as [? ?]
         end; split; assumption);
    simpl in H.
  - apply DigField_top_only in H as (? & ? & ?). auto.
  - apply noerr_returns in H as [a H]. apply Save_frame in H. exact H.
  - apply noerr_returns in H as [a H]. apply Reset_frame in H as (?&?&?). auto.
  - apply noerr_returns in H as [a H]. apply Load_frame in H. exact H.
  - apply noerr_returns in H as [a H].
    apply Last_top_only in H as (? & ? & ?). auto.
  - apply SliceLastOrCreate_top_only in H as (? & ? & ?). auto.
  - apply SliceNewElem_top_only in H as (? & ? & ?). auto.
  - apply SliceAppend_top_only in H as (? & ? & ?). auto.
Qed.

Lemma call_root_nonempty fuel o w r w' :
  call growcap float32_of fmt_s fuel o w = Returns (r, w') ->
  stack (b w) <> [] ->
  root (b w') = root (b w) /\ stack (b w') <> [].
Proof.
  intros H Hne. apply call_frame in H as [Hr H]. split; [exact Hr|].
  assert (Hlen : forall l l' : list reflect.Value,
             List.length l' = List.length l -> l <> [] -> l' <> []).
  { intros [|] [|]; simpl; intros; congruence. }
  destruct o; simpl in H.
  - destruct H as [H _]. eapply Hlen; eassumption.
  - destruct H as (v & _ & ->). intros E. apply app_eq_nil in E as [_ E].
    discriminate.
  - rewrite H. discriminate.
  - destruct H as [H2 ->]. destruct (stack (b w)) as [|x [|y l]];
      simpl in *; try lia. discriminate.
  - destruct H as [H _]. eapply Hlen; eassumption.
  - destruct H as [H _]. eapply Hlen; eassumption.
  - destruct H as [H _]. eapply Hlen; eassumption.
  - destruct H as [H _]. eapply Hlen; eassumption.
  - rewrite H. assumption.
  - rewrite H. assumption.
  - rewrite H. assumption.
  - rewrite H. assumption.
  - rewrite H. assumption.
Qed.

Lemma reachable_root_nonempty b0 w :
  reachable growcap float32_of fmt_s b0 w ->
  stack b0 <> [] ->
  root (b w) = root b0 /\ stack (b w) <> [].
Proof.
  intros Hr Hne. induction Hr as [h ms|w fuel o r w' _ IH Hc|w h' _ IH].
  - split; [reflexivity|exact Hne].
  - destruct IH as [IH1 IH2].
    apply call_root_nonempty in Hc as [? ?]; [|exact IH2].
    split; congruence.
  - exact IH.
Qed.

End Frames.

(** ** The calls that move the cursor do not look below it

    A run of such a call on a stack is also a run of it on the same stack
    with more frames underneath: it reads the cursor with [top] and writes
    it with [replace], and nothing else of the stack. *)

Create HintDb lifts.

Section Lifts.
Variable below : list reflect.Value.

Lemma lifts_ret {A : Type} (a : A) : lifts below (mret a).
Proof.
  intros w x w' Hne H. inversion H; subst. split; [exact Hne|reflexivity].
Qed.

Lemma lifts_panic {A : Type} msg : lifts below (panic (A := A) msg).
Proof. intros w a w' _ H. discriminate. Qed.

Lemma lifts_bind {A B : Type} (m : M A) (f : A -> M B) :
  lifts below m -> (forall a, lifts below (f a)) -> lifts below (m ≫= f).
Proof.
  intros Hm Hf w r w'' Hne H. apply bind_returns in H as (a & w' & H1 & H2).
  destruct (Hm _ _ _ Hne H1) as [Hne' H1'].
  destruct (Hf _ _ _ _ Hne' H2) as [Hne'' H2'].
  split; [exact Hne''|]. erewrite bind_returns_eq by exact H1'. exact H2'.
Qed.

Lemma lifts_liftR {A : Type} (f : store -> outcome A) : lifts below (liftR f).
Proof.
  intros w a w' Hne H. unfold liftR in *. simpl.
  destruct (f (heap w)); simpl in *; inversion H; subst.
  split; [exact Hne|reflexivity].
Qed.

Lemma lifts_liftW (f : store -> outcome store) : lifts below (liftW f).
Proof.
  intros w a w' Hne H. unfold liftW in *. simpl.
  destruct (f (heap w)); simpl in *; inversion H; subst.
  split; [exact Hne|reflexivity].
Qed.

Lemma lifts_liftA {A : Type} (f : store -> outcome (A * store)) :
  lifts below (liftA f).
Proof.
  intros w a w' Hne H. unfold liftA in *. simpl.
  destruct (f (heap w)) as [[x h]| |]; simpl in *; inversion H; subst.
  split; [exact Hne|reflexivity].
Qed.

Lemma lifts_pure_outcome {A : Type} (o : outcome A) :
  lifts below (pure_outcome o).
Proof. apply lifts_liftR. Qed.

(** A read of the Builder that does not look at the stack. *)
Lemma lifts_with_b {A : Type} (k : Builder -> M A) :
  (forall bb, lifts below (k bb)) ->
  (forall w, k (b (deeper below w)) = k (b w)) ->
  lifts below (get_b ≫= k).
Proof.
  intros Hk Hb w a w' Hne H.
  change ((get_b ≫= k) w) with (k (b w) w) in H.
  change ((get_b ≫= k) (deeper below w))
    with (k (b (deeper below w)) (deeper below w)).
  rewrite Hb. apply Hk; assumption.
Qed.

Lemma lifts_set_cache c : lifts below (set_cache c).
Proof.
  intros w a w' Hne H. inversion H; subst. split; [exact Hne|reflexivity].
Qed.

Lemma lifts_make_map : lifts below make_map.
Proof.
  intros w a w' Hne H. inversion H; subst. split; [exact Hne|reflexivity].
Qed.

Lemma lifts_map_assign m k g : lifts below (map_assign m k g).
Proof.
  intros w a w' Hne H. unfold map_assign in *. simpl.
  destruct (maps w !! m); inversion H; subst. split; [exact Hne|reflexivity].
Qed.

Lemma lifts_map_index m k : lifts below (map_index m k).
Proof.
  intros w a w' Hne H. unfold map_index in *. simpl.
  destruct (maps w !! m); inversion H; subst. split; [exact Hne|reflexivity].
Qed.

Lemma last_under {A : Type} (l l' : list A) :
  l <> [] -> last (l' ++ l) = last l.
Proof.
  destruct l as [|y l _] using rev_ind; [congruence|]. intros _.
  rewrite app_assoc, !last_snoc. reflexivity.
Qed.

Lemma insert_last_under {A : Type} (l l' : list A) (x : A) :
  l <> [] ->
  <[List.length (l' ++ l) - 1 := x]> (l' ++ l)
  = l' ++ <[List.length l - 1 := x]> l.
Proof.
  destruct l as [|y l _] using rev_ind; [congruence|]. intros _.
  rewrite app_assoc, !insert_last, app_assoc. reflexivity.
Qed.

Lemma lifts_top : lifts below top.
Proof.
  intros w a w' Hne H. apply top_returns in H as [-> Hl].
  split; [exact Hne|]. apply top_of_last. simpl.
  rewrite last_under by exact Hne. exact Hl.
Qed.

Lemma lifts_replace v : lifts below (replace v).
Proof.
  intros w a w' Hne H.
  pose proof (keeps_replace v _ _ _ H) as (_ & Hlen & _).
  split.
  { intros E. rewrite E in Hlen. destruct (stack (b w)); [congruence|].
    discriminate. }
  assert (Hw : Returns (a, w')
               = set_stack (<[List.length (stack (b w)) - 1 := v]>
                              (stack (b w))) w).
  { rewrite <- H. unfold replace.
    change ((get_b ≫= ?k) ?w0) with (k (b w0) w0). cbv beta.
    destruct (stack (b w)); [congruence|reflexivity]. }
  inversion Hw; subst. unfold replace.
  change ((get_b ≫= ?k) ?w0) with (k (b w0) w0). cbv beta.
  change (stack (b (deeper below w))) with (below ++ stack (b w)).
  destruct (below ++ stack (b w)) eqn:E2.
  { apply app_eq_nil in E2 as [_ E2]. congruence. }
  rewrite <- E2. unfold set_stack, deeper.
  cbn [heap maps b root stack nameTag fieldGettersCache].
  rewrite insert_last_under by exact Hne. reflexivity.
Qed.


#[local] Hint Resolve lifts_liftR lifts_liftW lifts_liftA lifts_pure_outcome
  lifts_set_cache lifts_make_map lifts_map_assign lifts_map_index lifts_top
  lifts_replace : lifts.

Ltac lifts_step :=
  first
    [ apply lifts_ret
    | apply lifts_panic
    | solve [auto with lifts]
    | apply lifts_with_b; [intros ? | intros ?; reflexivity]
    | apply lifts_bind; [ | intros ?]
    | match goal with
      | |- lifts _ (if ?c then _ else _) => destruct c
      | |- lifts _ (match ?x with _ => _ end) => destruct x
      | |- lifts _ (let '(_, _) := ?x in _) => destruct x
      end ].

Ltac lifts_auto := repeat lifts_step.

Lemma lifts_cache_index s : lifts below (cache_index s).
Proof. unfold cache_index. lifts_auto. Qed.

Lemma lifts_cache_assign s m : lifts below (cache_assign s m).
Proof. unfold cache_assign. lifts_auto. Qed.

#[local] Hint Resolve lifts_cache_index lifts_cache_assign : lifts.

Lemma lifts_fields_loop recurse m idx :
  forall fs, Forall (fun f => forall idx', lifts below
                                 (recurse idx' (reflect.FieldType f))) fs ->
  forall i, lifts below (fields_loop recurse m idx i fs).
Proof.
  induction 1 as [|f fs Hf _ IH]; intros i; simpl.
  - lifts_auto.
  - apply lifts_bind; [|intros _; apply IH].
    lifts_auto.
Qed.

Lemma lifts_getOrGenerateFieldGettersRecursive s :
  forall m idx,
  lifts below (getOrGenerateFieldGettersRecursive m idx s).
Proof.
  induction s as [k|n e IHe| |e IHe|e IHe|name fs IHfs]
    using rtype_nested_ind; intros m idx; simpl;
    try apply lifts_panic.
  apply lifts_bind; [|intros _].
  - apply lifts_fields_loop. eapply Forall_impl; [exact IHfs|].
    intros f Hf idx'. apply Hf.
  - lifts_auto.
Qed.

#[local] Hint Resolve lifts_getOrGenerateFieldGettersRecursive : lifts.

Lemma lifts_getOrGenerateFieldGetters s :
  lifts below (getOrGenerateFieldGetters s).
Proof. unfold getOrGenerateFieldGetters. lifts_auto. Qed.

#[local] Hint Resolve lifts_getOrGenerateFieldGetters : lifts.

Lemma lifts_fieldGetter_ t s : lifts below (fieldGetter_ t s).
Proof. unfold fieldGetter_. lifts_auto. Qed.

#[local] Hint Resolve lifts_fieldGetter_ : lifts.

Section LiftsCalls.
Variable growcap : nat -> nat -> nat.
Variable float32_of : Z -> Z.
Variable fmt_s : store -> reflect.Value -> string.

Lemma lifts_DigField fuel s : lifts below (DigField fuel s).
Proof. unfold DigField. lifts_auto. Qed.

Lemma lifts_Last : lifts below Last.
Proof. unfold Last, Cursor. lifts_auto. Qed.

Lemma lifts_SliceNewElem : lifts below (SliceNewElem growcap).
Proof. unfold SliceNewElem. lifts_auto. Qed.

Lemma lifts_SliceLastOrCreate : lifts below (SliceLastOrCreate growcap).
Proof.
  unfold SliceLastOrCreate. lifts_auto;
    auto using lifts_SliceNewElem, lifts_Last.
Qed.

Lemma lifts_assertPtr v : lifts below (assertPtr fmt_s v).
Proof.
  unfold assertPtr. destruct (decide _); [|apply lifts_ret].
  intros w a w' _ H. discriminate.
Qed.

Lemma lifts_SliceAppend v : lifts below (SliceAppend growcap fmt_s v).
Proof.
  unfold SliceAppend.
  apply lifts_bind; [apply lifts_assertPtr|intros _].
  lifts_auto.
Qed.

Lemma lifts_call fuel o :
  moves_cursor o = true ->
  lifts below (call growcap float32_of fmt_s fuel o).
Proof.
  destruct o; try discriminate; intros _; simpl.
  - apply lifts_DigField.
  - unfold noerr.
    apply lifts_bind; [apply lifts_Last|intros _; apply lifts_ret].
  - apply lifts_SliceLastOrCreate.
  - apply lifts_SliceNewElem.
  - apply lifts_SliceAppend.
Qed.

End LiftsCalls.
End Lifts.

Lemma Kind_Ptr_inv t :
  reflect.Type_Kind t = reflect.Ptr -> exists e, t = reflect.TPtr e.
Proof.
  destruct t as [k| | | | |]; simpl; try discriminate; eauto.
  destruct k; discriminate.
Qed.

Lemma NewBuilder_returns h tag v bb :
  NewBuilder h tag v = Returns (bb, None) ->
  exists t p, v = Some (reflect.TPtr t, reflect.VPtr p)
              /\ bb = mkBuilder (pointee t p) [pointee t p] tag None.
Proof.
  unfold NewBuilder. destruct v as [[t x]|]; [|discriminate].
  simpl. destruct (decide (reflect.Type_Kind t ≠ reflect.Ptr)) as [|Hk];
    [discriminate|].
  apply dec_stable in Hk. apply Kind_Ptr_inv in Hk as [e0 ->].
  destruct x as [| | | |[l|]| | | | |]; simpl; try discriminate;
    intros H; inversion H; subst; eauto.
Qed.

(** ** The cursor stack: construction, errors, [Reset] *)

Section CursorStack.
Variable growcap : nat -> nat -> nat.
Variable float32_of : Z -> Z.
Variable fmt_s : store -> reflect.Value -> string.

(** [NewBuilder(tag, v)], case by case.  It returns an error exactly when
    [v] is the nil interface or its dynamic type is not of pointer kind.
    For every pointer [v], nil or not, it returns no error and a Builder
    whose root and whose single stack frame are [v.Elem()]. *)
Lemma NewBuilder_spec h tag v :
  ((exists bb e, NewBuilder h tag v = Returns (bb, Some e)) <->
   (v = None \/ exists t x, v = Some (t, x)
                            /\ reflect.Type_Kind t <> reflect.Ptr))
  /\ (forall t p, v = Some (reflect.TPtr t, reflect.VPtr p) ->
      NewBuilder h tag v
      = Returns (mkBuilder (pointee t p) [pointee t p] tag None, None))
  /\ (forall bb, NewBuilder h tag v = Returns (bb, None) ->
      exists t p, v = Some (reflect.TPtr t, reflect.VPtr p)
                  /\ root bb = pointee t p /\ stack bb = [pointee t p]).
Proof.
  split; [split|split].
  - intros (bb & e & H). destruct v as [[t x]|]; [right|left; reflexivity].
    exists t, x. split; [reflexivity|]. intros Hk.
    apply Kind_Ptr_inv in Hk as [e0 ->]. unfold NewBuilder in H. simpl in H.
    destruct x as [| | | |[l|]| | | | |]; simpl in H; discriminate.
  - intros [->|(t & x & -> & Hk)].
    + simpl. eauto.
    + unfold NewBuilder. simpl.
      destruct (decide (reflect.Type_Kind t ≠ reflect.Ptr)); [|contradiction].
      eauto.
  - intros t p ->. destruct p; reflexivity.
  - intros bb H. apply NewBuilder_returns in H as (t & p & -> & ->).
    exists t, p. repeat split; reflexivity.
Qed.

(** C4, the defect.  A nil pointer of any type [*t] is a null value, and
    the comment on [Builder.root] says "Root is always a pointer to a
    non-nil value", but [NewBuilder] does not reject it: the interface
    holding it is not nil and its kind is [Ptr], so both checks pass, and
    [Elem] of the nil pointer gives the zero Value.  [NewBuilder] returns
    no error and a Builder whose root and single frame are the zero Value,
    which holds no value at all; the first [DigField] on it panics. *)
Theorem NewBuilder_accepts_nil_pointer h tag t :
  NewBuilder h tag (Some (reflect.TPtr t, reflect.VPtr None))
  = Returns (mkBuilder reflect.ZeroValue [reflect.ZeroValue] tag None, None)
  /\ reflect.Value_IsValid
       (root (mkBuilder reflect.ZeroValue [reflect.ZeroValue] tag None))
     = false
  /\ forall fuel s ms,
       DigField fuel s
         (mkWorld h ms
            (mkBuilder reflect.ZeroValue [reflect.ZeroValue] tag None))
       = Panics "reflect: call of reflect.Value.Type on zero Value".
Proof.
  split; [reflexivity|]. split; [reflexivity|].
  intros fuel s ms. unfold DigField.
  erewrite bind_returns_eq by (apply top_of_last; reflexivity).
  erewrite bind_returns_eq.
  2:{ unfold liftR. simpl.
      replace (deref fuel h reflect.ZeroValue)
        with (Returns (A := reflect.Value) reflect.ZeroValue)
        by (destruct fuel; reflexivity).
      reflexivity. }
  reflexivity.
Qed.

(** C3.  When a call returns an error, the cursor stack is the one from
    before the call: same frames, hence same length and same top. *)
Theorem error_leaves_cursor_stack fuel o w e w' :
  call growcap float32_of fmt_s fuel o w = Returns (Some e, w') ->
  stack (b w') = stack (b w)
  /\ List.length (stack (b w')) = List.length (stack (b w))
  /\ last (stack (b w')) = last (stack (b w)).
Proof.
  intros H. apply call_fails_clean in H as [_ H]. rewrite H.
  repeat split; reflexivity.
Qed.

(** C1, amended.  No call changes the root.  [Reset] leaves the stack
    [[root]].  Every other call leaves the bottom frame as it was when the
    stack holds two frames or more, and [Save], [Load] and the setters do
    so at any depth.  On a stack of one frame, which is the bottom frame
    and the cursor at once, a call of [DigField], [Last], [SliceNewElem],
    [SliceLastOrCreate] or [SliceAppend] that returns leaves one frame
    again, and it is the cursor [c] the call moves to: the very call,
    made with any frames [below] underneath, returns the same, keeps those
    frames and leaves [c] on top of them. *)
Theorem bottom_frame fuel o w r w' :
  call growcap float32_of fmt_s fuel o w = Returns (r, w') ->
  root (b w') = root (b w)
  /\ (o = OpReset -> stack (b w') = [root (b w)])
  /\ (o <> OpReset ->
      2 <= List.length (stack (b w)) \/ moves_cursor o = false ->
      head (stack (b w')) = head (stack (b w)))
  /\ (moves_cursor o = true ->
      forall t, stack (b w) = [t] ->
      exists c,
        stack (b w') = [c]
        /\ forall below,
             call growcap float32_of fmt_s fuel o (deeper below w)
             = Returns (r, deeper below w')
             /\ stack (b (deeper below w)) = below ++ [t]
             /\ stack (b (deeper below w')) = below ++ [c]).
Proof.
  intros H. pose proof (call_frame _ _ _ _ _ _ _ _ H) as [Hr Hf].
  split; [exact Hr|]. split; [|split].
  - intros ->. exact Hf.
  - intros Hne Hd.
    assert (Hmove : forall l l' : list reflect.Value,
               List.length l' = List.length l /\ removelast l' = removelast l ->
               2 <= List.length l -> head l' = head l).
    { intros l l' [Hl Hrm] H2.
      rewrite <- (head_removelast l), <- (head_removelast l') by lia.
      congruence. }
    destruct o; simpl in Hf, Hd;
      try (destruct Hd as [Hd|Hd]; [|discriminate]; apply Hmove; assumption);
      try (rewrite Hf; reflexivity).
    + destruct Hf as (v & Hv & ->).
      apply last_Some_nonempty in Hv.
      destruct (stack (b w)); [congruence|reflexivity].
    + congruence.
    + destruct Hf as [H2 ->]. apply head_removelast. exact H2.
  - intros Hm t Ht.
    assert (Hlen : List.length (stack (b w')) = 1).
    { rewrite Ht in Hf. destruct o; try discriminate; simpl in Hf;
        destruct Hf as [Hf _]; exact Hf. }
    destruct (stack (b w')) as [|c [|c' l]] eqn:Hc; try discriminate.
    exists c. split; [reflexivity|]. intros below.
    assert (Hne : stack (b w) <> []) by (rewrite Ht; discriminate).
    destruct (lifts_call below growcap float32_of fmt_s fuel o Hm
                w r w' Hne H) as [_ Hd].
    split; [exact Hd|]. simpl. rewrite Ht, Hc. split; reflexivity.
Qed.

(** C8.  In every state a Builder made by [NewBuilder] can reach, [Reset]
    returns and leaves a stack of one frame, the root [NewBuilder] stored;
    the data is untouched. *)
Theorem Reset_restores_root h tag v b0 w :
  NewBuilder h tag v = Returns (b0, None) ->
  reachable growcap float32_of fmt_s b0 w ->
  exists w', Reset w = Returns (tt, w')
             /\ stack (b w') = [root b0]
             /\ List.length (stack (b w')) = 1
             /\ heap w' = heap w.
Proof.
  intros Hn Hr. apply NewBuilder_returns in Hn as (t & p & _ & ->).
  apply reachable_root_nonempty in Hr as [Hroot Hne]; [|discriminate].
  destruct (Reset_returns w Hne) as (w' & H1 & H2 & H3).
  exists w'. rewrite H2, Hroot. repeat split; assumption.
Qed.

End CursorStack.

(** C10.  With a nil pointer or an interface holding nothing under the
    cursor, [DigField] returns no error: the loop steps to the zero Value,
    stops there, and [Type] panics on it. *)
Theorem DigField_nil_panics fuel s w t :
  last (stack (b w)) = Some t ->
  reflect.Value_Kind t = reflect.Ptr
  \/ reflect.Value_Kind t = reflect.Interface ->
  reflect.Value_IsNil (heap w) t = Returns true ->
  DigField (S fuel) s w
  = Panics "reflect: call of reflect.Value.Type on zero Value".
Proof.
  intros Ht Hk Hnil. unfold DigField.
  rewrite (bind_returns_eq _ _ _ _ _ (top_of_last _ _ Ht)).
  assert (Hd : deref (S fuel) (heap w) t = Returns reflect.ZeroValue).
  { destruct t as [|ty p ro]; [destruct Hk; discriminate|].
    assert (Hz : forall n, deref n (heap w) reflect.ZeroValue
                           = Returns reflect.ZeroValue).
    { intros [|n]; reflexivity. }
    destruct Hk as [Hk|Hk]; simpl in Hk.
    - apply Kind_Ptr_inv in Hk as [e ->]. simpl.
      unfold reflect.Value_IsNil in Hnil. simpl in Hnil.
      destruct (reflect.read (heap w) (reflect.Val (reflect.TPtr e) p ro))
        as [x| |]; simpl in *; try discriminate.
      destruct x as [| | | |[l|]| | | | |]; simpl in *; try discriminate.
      apply Hz.
    - destruct ty as [k| | | | |]; try discriminate;
        [destruct k; discriminate|]. simpl.
      unfold reflect.Value_IsNil in Hnil. simpl in Hnil.
      destruct (reflect.read (heap w) (reflect.Val reflect.TInterface p ro))
        as [x| |]; simpl in *; try discriminate.
      destruct x as [| | | | | | | |[d|]|]; simpl in *; try discriminate.
      apply Hz. }
  erewrite bind_returns_eq; [|unfold liftR; rewrite Hd; reflexivity].
  reflexivity.
Qed.

(** ** The store *)

Lemma get_set_path_same v p x v' :
  reflect.set_path v p x = Some v' -> reflect.get_path v' p = Some x.
Proof.
  revert v v'. induction p as [|i p IH]; intros v v' H; simpl in *.
  - congruence.
  - destruct v; try discriminate;
      (destruct (_ !! i) as [y|] eqn:Ey; simpl in H; [|discriminate];
       destruct (reflect.set_path y p x) as [y'|] eqn:Es; simpl in H;
         [|discriminate];
       inversion H; subst; simpl;
       rewrite list_lookup_insert_eq by (eapply lookup_lt_Some; eassumption);
       simpl; eapply IH; eassumption).
Qed.

Lemma set_path_is_Some v p x :
  is_Some (reflect.get_path v p) -> is_Some (reflect.set_path v p x).
Proof.
  revert v. induction p as [|i p IH]; intros v [y H]; simpl in *.
  - eauto.
  - destruct v; try discriminate;
      (destruct (_ !! i) as [z|] eqn:Ez; simpl in H; [|discriminate];
       destruct (IH z (ex_intro _ y H)) as [z' Hz']; simpl;
       rewrite Hz'; simpl; eauto).
Qed.

Lemma get_set_path_disjoint v p q x v' :
  reflect.set_path v p x = Some v' ->
  ~ p `prefix_of` q -> ~ q `prefix_of` p ->
  reflect.get_path v' q = reflect.get_path v q.
Proof.
  revert v v' q. induction p as [|i p IH]; intros v v' q H Hpq Hqp.
  - exfalso. apply Hpq. apply prefix_nil.
  - destruct q as [|j q]; [exfalso; apply Hqp; apply prefix_nil|].
    simpl in H.
    destruct v; try discriminate;
      (destruct (_ !! i) as [y|] eqn:Ey; simpl in H; [|discriminate];
       destruct (reflect.set_path y p x) as [y'|] eqn:Es; simpl in H;
         [|discriminate];
       inversion H; subst; simpl;
       destruct (decide (i = j)) as [->|Hij];
       [ rewrite list_lookup_insert_eq
           by (eapply lookup_lt_Some; eassumption);
         rewrite Ey; simpl; eapply IH; [eassumption| |];
         intros Hp; [apply Hpq|apply Hqp]; apply prefix_cons; exact Hp
       | rewrite list_lookup_insert_ne by exact Hij; reflexivity ]).
Qed.

Lemma load_write_same h l x h' :
  reflect.write h l x = Some h' -> reflect.load h' l = Some x.
Proof.
  unfold reflect.write, reflect.load. intros H.
  destruct (h !! reflect.l_addr l) as [v|] eqn:Ev; simpl in H; [|discriminate].
  destruct (reflect.set_path v (reflect.l_path l) x) as [v'|] eqn:Es;
    simpl in H; [|discriminate].
  inversion H; subst.
  rewrite list_lookup_insert_eq by (eapply lookup_lt_Some; eassumption).
  simpl. eapply get_set_path_same; eassumption.
Qed.

Lemma write_is_Some h l x :
  is_Some (reflect.load h l) -> is_Some (reflect.write h l x).
Proof.
  unfold reflect.write, reflect.load. intros [y H].
  destruct (h !! reflect.l_addr l) as [v|] eqn:Ev; simpl in *; [|discriminate].
  destruct (set_path_is_Some v (reflect.l_path l) x (ex_intro _ y H))
    as [v' ->].
  simpl. eauto.
Qed.

Lemma load_write_disjoint h l x h' l' :
  reflect.write h l x = Some h' -> disjoint l l' ->
  reflect.load h' l' = reflect.load h l'.
Proof.
  unfold reflect.write, reflect.load. intros H [H1 H2].
  destruct (h !! reflect.l_addr l) as [v|] eqn:Ev; simpl in H; [|discriminate].
  destruct (reflect.set_path v (reflect.l_path l) x) as [v'|] eqn:Es;
    simpl in H; [|discriminate].
  inversion H; subst.
  destruct (decide (reflect.l_addr l = reflect.l_addr l')) as [Ha|Ha].
  - rewrite <- Ha.
    rewrite list_lookup_insert_eq by (eapply lookup_lt_Some; eassumption).
    rewrite Ev. simpl. eapply get_set_path_disjoint; [eassumption| |].
    + intros Hp. apply H2. split; [symmetry; exact Ha|exact Hp].
    + intros Hp. apply H1. split; [exact Ha|exact Hp].
  - rewrite list_lookup_insert_ne by exact Ha. reflexivity.
Qed.

Lemma load_write_length h l x h' :
  reflect.write h l x = Some h' -> List.length h' = List.length h.
Proof.
  unfold reflect.write. intros H.
  destruct (h !! reflect.l_addr l) as [v|]; simpl in H; [|discriminate].
  destruct (reflect.set_path v (reflect.l_path l) x); simpl in H;
    [|discriminate].
  inversion H. apply length_insert.
Qed.

Lemma load_lt h l y :
  reflect.load h l = Some y -> reflect.l_addr l < List.length h.
Proof.
  unfold reflect.load. intros H.
  destruct (h !! reflect.l_addr l) eqn:E; [|discriminate].
  eapply lookup_lt_Some; eassumption.
Qed.

Lemma load_alloc_old h v l y :
  reflect.load h l = Some y -> reflect.load (h ++ [v]) l = Some y.
Proof.
  intros H. pose proof (load_lt _ _ _ H) as Hlt.
  unfold reflect.load in *. rewrite lookup_app_l by exact Hlt. exact H.
Qed.

Lemma load_alloc_new h v :
  reflect.load (h ++ [v]) (reflect.Loc (List.length h) []) = Some v.
Proof.
  unfold reflect.load. simpl.
  rewrite lookup_app_r by lia. rewrite Nat.sub_diag. reflexivity.
Qed.

Lemma load_fresh_None h p :
  reflect.load h (reflect.Loc (List.length h) p) = None.
Proof.
  unfold reflect.load. simpl. rewrite lookup_ge_None_2 by lia. reflexivity.
Qed.

(** ** Stepping through the code *)

Lemma liftR_returns {A : Type} (f : store -> outcome A) w a :
  f (heap w) = Returns a -> liftR f w = Returns (a, w).
Proof. unfold liftR. intros ->. reflexivity. Qed.

Lemma liftW_returns (f : store -> outcome store) w h :
  f (heap w) = Returns h ->
  liftW f w = Returns (tt, mkWorld h (maps w) (b w)).
Proof. unfold liftW. intros ->. reflexivity. Qed.

Lemma liftA_returns {A : Type} (f : store -> outcome (A * store)) w a h :
  f (heap w) = Returns (a, h) ->
  liftA f w = Returns (a, mkWorld h (maps w) (b w)).
Proof. unfold liftA. intros ->. reflexivity. Qed.

Lemma pure_outcome_returns {A : Type} (a : A) w :
  pure_outcome (Returns a) w = Returns (a, w).
Proof. reflexivity. Qed.

Lemma replace_returns v w :
  stack (b w) <> [] ->
  replace v w
  = Returns (tt, mkWorld (heap w) (maps w)
                   (mkBuilder (root (b w))
                      (<[List.length (stack (b w)) - 1 := v]> (stack (b w)))
                      (nameTag (b w)) (fieldGettersCache (b w)))).
Proof.
  intros H. unfold replace. erewrite bind_returns_eq by reflexivity.
  destruct (stack (b w)); [congruence|reflexivity].
Qed.

Lemma last_insert_last {A : Type} (l : list A) (x : A) :
  l <> [] -> last (<[List.length l - 1 := x]> l) = Some x.
Proof.
  destruct l as [|y l _] using rev_ind; [congruence|]. intros _.
  rewrite insert_last. apply last_snoc.
Qed.

(** Run the next statement of a bind chain, given what it returns. *)
Ltac run H := erewrite bind_returns_eq by (exact H).
Ltac run_top Ht :=
  erewrite bind_returns_eq by (apply top_of_last; exact Ht).

(** ** The setters *)

Lemma wrap_small bits n :
  (0 < bits)%Z -> (- 2 ^ (bits - 1) <= n < 2 ^ (bits - 1))%Z ->
  reflect.wrap bits n = n.
Proof.
  intros Hb Hn. unfold reflect.wrap.
  assert (H2 : (2 ^ bits = 2 * 2 ^ (bits - 1))%Z).
  { rewrite <- Z.pow_succ_r by lia. f_equal. lia. }
  rewrite Z.mod_small by lia. lia.
Qed.

Lemma checkKindInt_signed ty bits :
  reflect.int_bits (reflect.Type_Kind ty) = Some bits -> checkKindInt ty = None.
Proof.
  unfold checkKindInt. destruct (reflect.Type_Kind ty); simpl; congruence.
Qed.

Lemma checkKindInt_other ty :
  reflect.int_bits (reflect.Type_Kind ty) = None ->
  checkKindInt ty = Some (IncorrectKindError (reflect.Type_Kind ty) reflect.Int).
Proof.
  unfold checkKindInt. destruct (reflect.Type_Kind ty); simpl; congruence.
Qed.

(** C2, amended.  On a settable cursor of one of the five signed integer
    kinds, [SetInt(n)] returns no error and the slot then holds [n]
    converted to the width of the kind, which is [n] itself when [n] fits.
    On a cursor of any other kind, the unsigned kinds among them, it
    returns [IncorrectKind] and changes nothing. *)
Theorem SetInt_spec n w t :
  last (stack (b w)) = Some t ->
  (forall ty l bits old,
      t = reflect.Val ty (reflect.Addr l) reflect.RW ->
      reflect.int_bits (reflect.Type_Kind ty) = Some bits ->
      reflect.load (heap w) l = Some old ->
      exists w',
        SetInt n w = Returns (None, w')
        /\ reflect.load (heap w') l = Some (reflect.VInt (reflect.wrap bits n))
        /\ ((- 2 ^ (bits - 1) <= n < 2 ^ (bits - 1))%Z ->
            reflect.load (heap w') l = Some (reflect.VInt n))
        /\ stack (b w') = stack (b w))
  /\ (forall ty p ro,
      t = reflect.Val ty p ro ->
      reflect.int_bits (reflect.Type_Kind ty) = None ->
      SetInt n w
      = Returns (Some (IncorrectKindError (reflect.Type_Kind ty) reflect.Int),
                 w)).
Proof.
  intros Ht. split.
  - intros ty l bits old -> Hb Hl.
    destruct (write_is_Some (heap w) l (reflect.VInt (reflect.wrap bits n))
                (ex_intro _ old Hl)) as [h' Hw].
    exists (mkWorld h' (maps w) (b w)).
    split; [|split; [|split]].
    + unfold SetInt. run_top Ht. rewrite bind_returns_eq with (a := ty) (w' := w) by reflexivity.
      rewrite (checkKindInt_signed _ _ Hb).
      erewrite bind_returns_eq.
      2:{ apply liftW_returns. unfold reflect.Value_SetInt. simpl. rewrite Hb. rewrite Hw. reflexivity. }
      reflexivity.
    + simpl. eapply load_write_same. exact Hw.
    + intros Hn. simpl. pose proof (load_write_same _ _ _ _ Hw) as E.
      rewrite wrap_small in E; [exact E| |exact Hn].
      destruct (reflect.Type_Kind ty); simpl in Hb; inversion Hb; reflexivity.
    + reflexivity.
  - intros ty p ro -> Hb. unfold SetInt. run_top Ht.
    rewrite bind_returns_eq with (a := ty) (w' := w) by reflexivity.
    rewrite (checkKindInt_other _ Hb). reflexivity.
Qed.

Lemma disjoint_addr l l' :
  reflect.l_addr l <> reflect.l_addr l' -> disjoint l l'.
Proof. intros H. split; intros [E _]; congruence. Qed.

Lemma checkKind_ok ty k :
  reflect.Type_Kind ty = k -> checkKind ty k = None.
Proof. intros <-. unfold checkKind. destruct (decide _); [contradiction|reflexivity]. Qed.

Lemma checkKind_wrong ty k :
  reflect.Type_Kind ty <> k ->
  checkKind ty k = Some (IncorrectKindError (reflect.Type_Kind ty) k).
Proof. intros H. unfold checkKind. destruct (decide _); [reflexivity|contradiction]. Qed.

(** C5, amended.  On a settable cursor of type pointer to string,
    [SetString(s)] returns no error, puts [s] in a fresh cell and makes the
    slot point to it.  On a cursor whose kind is neither pointer nor
    string it returns [IncorrectKind] and changes nothing.  On a settable
    cursor of kind string it stores [s] in the slot. *)
Theorem SetString_spec s w t :
  last (stack (b w)) = Some t ->
  (forall l old,
      t = reflect.Val (reflect.TPtr (reflect.TBasic reflect.BString))
            (reflect.Addr l) reflect.RW ->
      reflect.load (heap w) l = Some old ->
      exists w',
        SetString s w = Returns (None, w')
        /\ reflect.load (heap w) (reflect.Loc (List.length (heap w)) []) = None
        /\ reflect.load (heap w') (reflect.Loc (List.length (heap w)) [])
           = Some (reflect.VString s)
        /\ reflect.load (heap w') l
           = Some (reflect.VPtr (Some (reflect.Loc (List.length (heap w)) [])))
        /\ stack (b w') = stack (b w))
  /\ (forall ty p ro,
      t = reflect.Val ty p ro ->
      reflect.Type_Kind ty <> reflect.Ptr ->
      reflect.Type_Kind ty <> reflect.String ->
      SetString s w
      = Returns (Some (IncorrectKindError (reflect.Type_Kind ty)
                         reflect.String), w))
  /\ (forall l old,
      t = reflect.Val (reflect.TBasic reflect.BString) (reflect.Addr l)
            reflect.RW ->
      reflect.load (heap w) l = Some old ->
      exists w',
        SetString s w = Returns (None, w')
        /\ reflect.load (heap w') l = Some (reflect.VString s)
        /\ stack (b w') = stack (b w)).
Proof.
  intros Ht. split; [|split].
  - intros l old -> Hl.
    set (fresh := reflect.Loc (List.length (heap w)) []).
    set (h1 := heap w ++ [reflect.VString s]).
    assert (Hl1 : reflect.load h1 l = Some old) by (apply load_alloc_old; exact Hl).
    destruct (write_is_Some h1 l (reflect.VPtr (Some fresh)) (ex_intro _ old Hl1))
      as [h2 Hw].
    exists (mkWorld h2 (maps w) (b w)). split; [|split; [|split; [|split]]].
    + unfold SetString. run_top Ht. simpl.
      erewrite bind_returns_eq by (apply liftA_returns; reflexivity).
      erewrite bind_returns_eq.
      2:{ apply liftW_returns. unfold reflect.Value_Set. simpl.
          unfold reflect.read. simpl. fold fresh. fold h1. rewrite Hw. reflexivity. }
      reflexivity.
    + apply load_fresh_None.
    + simpl. erewrite load_write_disjoint; [apply load_alloc_new|exact Hw|].
      apply disjoint_addr. simpl. apply load_lt in Hl. lia.
    + simpl. eapply load_write_same. exact Hw.
    + reflexivity.
  - intros ty p ro -> Hp Hs. unfold SetString. run_top Ht. simpl.
    destruct (decide (reflect.Type_Kind ty = reflect.Ptr)); [contradiction|].
    rewrite bind_returns_eq with (a := ty) (w' := w) by reflexivity.
    rewrite (checkKind_wrong _ _ Hs). reflexivity.
  - intros l old -> Hl.
    destruct (write_is_Some (heap w) l (reflect.VString s) (ex_intro _ old Hl))
      as [h' Hw].
    exists (mkWorld h' (maps w) (b w)). split; [|split].
    + unfold SetString. run_top Ht. simpl.
      rewrite bind_returns_eq
        with (a := reflect.TBasic reflect.BString) (w' := w) by reflexivity.
      simpl.
      erewrite bind_returns_eq.
      2:{ apply liftW_returns. unfold reflect.Value_SetString. simpl.
          rewrite Hw. reflexivity. }
      reflexivity.
    + simpl. eapply load_write_same. exact Hw.
    + reflexivity.
Qed.

(** ** Slices *)

Section LastOrCreate.
Variable growcap : nat -> nat -> nat.

Lemma Kind_Slice_inv t :
  reflect.Type_Kind t = reflect.Slice -> exists e, t = reflect.TSlice e.
Proof.
  destruct t as [k| | | | |]; simpl; try discriminate; eauto.
  destruct k; discriminate.
Qed.

(** C6.  On a slice cursor, [SliceLastOrCreate] is [SliceNewElem] when the
    slice is empty, same outcome and same state after; it is [Last] with a
    nil error when the slice is not empty: the cursor moves to the last
    element and the data, so the length too, stay as they were.  On a
    cursor of any other kind it returns [IncorrectKind]. *)
Theorem SliceLastOrCreate_refines w t :
  last (stack (b w)) = Some t ->
  (forall n,
      reflect.Value_Kind t = reflect.Slice ->
      reflect.Value_Len (heap w) t = Returns n ->
      (n = 0 -> SliceLastOrCreate growcap w = SliceNewElem growcap w)
      /\ (n <> 0 ->
          SliceLastOrCreate growcap w = noerr Last w
          /\ forall x, reflect.Value_Index (heap w) t (n - 1) = Returns x ->
             exists w', SliceLastOrCreate growcap w = Returns (None, w')
                        /\ heap w' = heap w
                        /\ last (stack (b w')) = Some x
                        /\ removelast (stack (b w')) = removelast (stack (b w))
                        /\ reflect.Value_Len (heap w') t = Returns n))
  /\ (reflect.Value_IsValid t = true ->
      reflect.Value_Kind t <> reflect.Slice ->
      SliceLastOrCreate growcap w
      = Returns (Some (IncorrectKindError (reflect.Value_Kind t)
                         reflect.Slice), w)).
Proof.
  intros Ht. split.
  - intros n Hk Hn. destruct t as [|ty p ro]; [discriminate|].
    simpl in Hk. apply Kind_Slice_inv in Hk as [e ->].
    assert (Hstep : SliceLastOrCreate growcap w
                    = (if decide (n = 0) then SliceNewElem growcap
                       else _ ← Last; mret None) w).
    { unfold SliceLastOrCreate. run_top Ht.
      rewrite bind_returns_eq with (a := reflect.TSlice e) (w' := w)
        by reflexivity.
      simpl. erewrite bind_returns_eq by (apply liftR_returns; exact Hn).
      reflexivity. }
    split.
    + intros ->. exact Hstep.
    + intros Hne. rewrite Hstep. destruct (decide (n = 0)); [contradiction|].
      split; [reflexivity|]. intros x Hx.
      eexists. split; [|split; [|split; [|split]]].
      * erewrite (bind_returns_eq Last); [reflexivity|].
        unfold Last, Cursor. run_top Ht. simpl.
        erewrite bind_returns_eq by (apply liftR_returns; exact Hn).
        destruct (decide (0 < n)); [|lia].
        erewrite bind_returns_eq by (apply liftR_returns; exact Hx).
        apply replace_returns. eapply last_Some_nonempty; exact Ht.
      * reflexivity.
      * simpl. apply last_insert_last. eapply last_Some_nonempty; exact Ht.
      * simpl. apply removelast_insert_last.
      * simpl. exact Hn.
  - intros Hv Hk. destruct t as [|ty p ro]; [discriminate|]. simpl in Hk.
    unfold SliceLastOrCreate. run_top Ht.
    rewrite bind_returns_eq with (a := ty) (w' := w) by reflexivity.
    rewrite (checkKind_wrong _ _ Hk). reflexivity.
Qed.
End LastOrCreate.

Lemma get_path_app v p q :
  reflect.get_path v (p ++ q)
  = reflect.get_path v p ≫= fun x => reflect.get_path x q.
Proof.
  revert v. induction p as [|i p IH]; intros v; simpl; [reflexivity|].
  destruct v; try reflexivity;
    (destruct (_ !! i); simpl; [apply IH|reflexivity]).
Qed.

Lemma load_loc_at h arr ys i :
  reflect.load h arr = Some (reflect.VArray ys) ->
  reflect.load h (reflect.loc_at arr i) = ys !! i.
Proof.
  unfold reflect.load, reflect.loc_at. simpl. intros H.
  destruct (h !! reflect.l_addr arr) as [v|]; simpl in *; [|discriminate].
  rewrite get_path_app, H. simpl. destruct (ys !! i); reflexivity.
Qed.

Section AppendSpec.
Variable growcap : nat -> nat -> nat.

Lemma read_addr h ty l ro :
  reflect.read h (reflect.Val ty (reflect.Addr l) ro)
  = from_option "dangling location" (reflect.load h l).
Proof. reflexivity. Qed.

Lemma read_copy h ty x ro :
  reflect.read h (reflect.Val ty (reflect.Copy x) ro) = Returns x.
Proof. reflexivity. Qed.

Lemma read_alloc_old h v x y :
  reflect.read h x = Returns y -> reflect.read (h ++ [v]) x = Returns y.
Proof.
  destruct x as [|ty [l|z] ro]; [discriminate| |exact id].
  rewrite !read_addr. destruct (reflect.load h l) eqn:E; [|discriminate].
  intros H. inversion H; subst. erewrite load_alloc_old by exact E. reflexivity.
Qed.

Lemma Value_Set_returns h ty l px y h' :
  reflect.read h (reflect.Val ty px reflect.RW) = Returns y ->
  reflect.write h l y = Some h' ->
  reflect.Value_Set h (reflect.Val ty (reflect.Addr l) reflect.RW)
    (reflect.Val ty px reflect.RW) = Returns h'.
Proof.
  intros Hy Hw. unfold reflect.Value_Set. simpl.
  rewrite rtype_eqb_refl, Hy. simpl. rewrite Hw. reflexivity.
Qed.

(** [reflect.Append] on a settable slice with a well-formed header: the
    new header is one longer, the new element holds the appended value,
    and every cell away from the new element keeps its contents. *)
Lemma Append_spec h l e data n cap pv y :
  reflect.load h l = Some (reflect.VSlice data n cap) ->
  slice_ok h data n cap ->
  reflect.read h (reflect.Val e pv reflect.RW) = Returns y ->
  exists arr off cap' h',
    reflect.Append growcap h
      (reflect.Val (reflect.TSlice e) (reflect.Addr l) reflect.RW)
      (reflect.Val e pv reflect.RW)
    = Returns (reflect.Val (reflect.TSlice e)
                 (reflect.Copy (reflect.VSlice (Some (arr, off)) (n + 1) cap'))
                 reflect.RW, h')
    /\ reflect.load h' (reflect.loc_at arr (off + n)) = Some y
    /\ ((n + 1 <= cap /\ data = Some (arr, off))
        \/ reflect.l_addr arr = List.length h)
    /\ (forall l', is_Some (reflect.load h l') ->
                   disjoint (reflect.loc_at arr (off + n)) l' ->
                   reflect.load h' l' = reflect.load h l').
Proof.
  intros Hl [Hle Hd] Hy.
  unfold reflect.Append, reflect.extendSlice, reflect.Value_Len.
  rewrite read_addr, Hl. simpl.
  destruct (decide (n + 1 <= cap)) as [Hfit|Hgrow].
  - destruct data as [[arr off]|]; [|lia].
    destruct Hd as (ys & Harr & Hroom).
    assert (Hc : is_Some (reflect.load h (reflect.loc_at arr (off + n)))).
    { rewrite (load_loc_at _ _ _ _ Harr). apply lookup_lt_is_Some. lia. }
    destruct (write_is_Some h _ y Hc) as [h' Hw].
    exists arr, off, cap, h'. simpl.
    destruct (decide (n < n + 1)); [|lia]. simpl.
    rewrite (Value_Set_returns _ _ _ _ _ _ Hy Hw). simpl.
    split; [reflexivity|]. split; [eapply load_write_same; exact Hw|].
    split; [left; split; [exact Hfit|reflexivity]|].
    intros l' _ Hdis. eapply load_write_disjoint; eassumption.
  - assert (Hxs : exists xs, reflect.slice_elems h data n = Returns xs
                             /\ List.length xs = n).
    { unfold reflect.slice_elems. destruct data as [[arr off]|].
      - destruct Hd as (ys & Harr & Hroom). rewrite Harr. simpl.
        destruct (decide (off + n <= List.length ys)); [|lia].
        eexists. split; [reflexivity|].
        rewrite length_take, length_drop. lia.
      - destruct (decide (n = 0)); [|lia]. exists []. split; [reflexivity|].
        simpl. lia. }
    destruct Hxs as (xs & -> & Hlen). simpl.
    set (cap' := Nat.max (n + 1) (growcap cap (n + 1))).
    set (arr' := reflect.VArray (xs ++ replicate (cap' - n) (reflect.zero e))).
    set (a := reflect.Loc (List.length h) []).
    assert (Ha : reflect.load (h ++ [arr']) a = Some arr')
      by apply load_alloc_new.
    assert (Hc : is_Some (reflect.load (h ++ [arr']) (reflect.loc_at a n))).
    { rewrite (load_loc_at _ _ _ _ Ha). apply lookup_lt_is_Some.
      rewrite length_app, length_replicate. lia. }
    destruct (write_is_Some (h ++ [arr']) _ y Hc) as [h' Hw].
    exists a, 0, cap', h'.
    destruct (decide (n < n + 1)); [|lia]. simpl.
    rewrite (Value_Set_returns _ _ _ _ _ _ (read_alloc_old _ _ _ _ Hy) Hw).
    simpl.
    split; [reflexivity|]. split; [eapply load_write_same; exact Hw|].
    split; [right; reflexivity|].
    intros l' [z Hz] Hdis.
    erewrite load_write_disjoint; [|exact Hw|exact Hdis].
    rewrite Hz. eapply load_alloc_old. exact Hz.
Qed.

Lemma slice_ok_alloc h v data n cap :
  slice_ok h data n cap -> slice_ok (h ++ [v]) data n cap.
Proof.
  intros [Hle Hd]. split; [exact Hle|].
  destruct data as [[arr off]|]; [|exact Hd].
  destruct Hd as (ys & Harr & Hroom). exists ys.
  split; [apply load_alloc_old; exact Harr|exact Hroom].
Qed.

Lemma disjoint_sym l1 l2 : disjoint l1 l2 -> disjoint l2 l1.
Proof. intros [H1 H2]. split; assumption. Qed.

(** C7, amended.  On a settable slice cursor of length [n] whose header
    does not overlap the cell that [append] fills, [SliceNewElem] returns
    no error; the slice then has length [n + 1], the cursor is its element
    of index [n], and that element holds the zero value of the element
    type.  The frames below the cursor are untouched. *)
Theorem SliceNewElem_spec w e l data n cap :
  last (stack (b w))
  = Some (reflect.Val (reflect.TSlice e) (reflect.Addr l) reflect.RW) ->
  reflect.load (heap w) l = Some (reflect.VSlice data n cap) ->
  slice_ok (heap w) data n cap ->
  (forall c, n + 1 <= cap -> next_cell data n = Some c -> disjoint c l) ->
  exists w' x,
    SliceNewElem growcap w = Returns (None, w')
    /\ reflect.Value_Len (heap w')
         (reflect.Val (reflect.TSlice e) (reflect.Addr l) reflect.RW)
       = Returns (n + 1)
    /\ reflect.Value_Index (heap w')
         (reflect.Val (reflect.TSlice e) (reflect.Addr l) reflect.RW) n
       = Returns x
    /\ last (stack (b w')) = Some x
    /\ reflect.read (heap w') x = Returns (reflect.zero e)
    /\ removelast (stack (b w')) = removelast (stack (b w)).
Proof.
  intros Ht Hl Hok Hsep.
  set (h1 := heap w ++ [reflect.zero e]).
  set (z := reflect.Loc (List.length (heap w)) []).
  assert (Hl1 : reflect.load h1 l = Some (reflect.VSlice data n cap))
    by (apply load_alloc_old; exact Hl).
  assert (Hz : reflect.read h1 (reflect.Val e (reflect.Addr z) reflect.RW)
               = Returns (reflect.zero e)).
  { rewrite read_addr. unfold h1, z. rewrite load_alloc_new. reflexivity. }
  destruct (Append_spec h1 l e data n cap _ _ Hl1
              (slice_ok_alloc _ _ _ _ _ Hok) Hz)
    as (arr & off & cap' & h2 & Happ & Hnew & Hwhere & Hframe).
  set (c := reflect.loc_at arr (off + n)) in *.
  assert (Hdis : disjoint c l).
  { destruct Hwhere as [[Hfit ->]|Hfresh].
    - apply Hsep; [exact Hfit|reflexivity].
    - apply disjoint_addr. unfold c. simpl. rewrite Hfresh.
      apply load_lt in Hl1. lia. }
  assert (Hl2 : reflect.load h2 l = Some (reflect.VSlice data n cap)).
  { rewrite Hframe; [exact Hl1|eauto|exact Hdis]. }
  destruct (write_is_Some h2 l
              (reflect.VSlice (Some (arr, off)) (n + 1) cap')
              (ex_intro _ _ Hl2)) as [h3 Hw].
  assert (Hl3 : reflect.load h3 l
                = Some (reflect.VSlice (Some (arr, off)) (n + 1) cap'))
    by (eapply load_write_same; exact Hw).
  assert (Hne : stack (b w) <> []) by (eapply last_Some_nonempty; exact Ht).
  eexists. exists (reflect.Val e (reflect.Addr c) reflect.RW).
  split; [|split; [|split; [|split; [|split]]]].
  - unfold SliceNewElem. run_top Ht.
    rewrite bind_returns_eq with (a := reflect.TSlice e) (w' := w)
      by reflexivity.
    simpl.
    rewrite bind_returns_eq with (a := e) (w' := w) by reflexivity.
    erewrite bind_returns_eq by (apply liftA_returns; reflexivity).
    erewrite bind_returns_eq by (apply liftR_returns; reflexivity).
    erewrite bind_returns_eq by (apply liftA_returns; exact Happ).
    erewrite bind_returns_eq.
    2:{ apply liftW_returns. simpl.
        apply Value_Set_returns with (y := reflect.VSlice (Some (arr, off)) (n + 1) cap');
          [reflexivity|exact Hw]. }
    erewrite bind_returns_eq.
    2:{ apply liftR_returns. simpl. unfold reflect.Value_Len.
        rewrite read_addr, Hl3. reflexivity. }
    erewrite bind_returns_eq.
    2:{ apply liftR_returns. simpl. unfold reflect.Value_Index.
        rewrite read_addr, Hl3. simpl.
        destruct (decide (n + 1 - 1 < n + 1)); [|lia].
        replace (n + 1 - 1) with n by lia. reflexivity. }
    erewrite bind_returns_eq by (apply replace_returns; exact Hne).
    reflexivity.
  - simpl. unfold reflect.Value_Len. rewrite read_addr, Hl3. reflexivity.
  - simpl. unfold reflect.Value_Index. rewrite read_addr, Hl3. simpl.
    destruct (decide (n < n + 1)); [|lia]. reflexivity.
  - simpl. apply last_insert_last. exact Hne.
  - simpl. rewrite read_addr.
    erewrite load_write_disjoint; [|exact Hw|apply disjoint_sym; exact Hdis].
    fold c. rewrite Hnew. reflexivity.
  - simpl. apply removelast_insert_last.
Qed.

End AppendSpec.

(** ** The getter cache *)

Lemma grows_refl m w : grows m w w [].
Proof. repeat split; auto. Qed.

Lemma grows_trans m w1 w2 w3 a1 a2 :
  grows m w1 w2 a1 -> grows m w2 w3 a2 -> grows m w1 w3 (a2 ++ a1).
Proof.
  intros (H1 & H2 & H3 & H4 & H5 & H6 & H7) (G1 & G2 & G3 & G4 & G5 & G6 & G7).
  repeat split; try congruence.
  - rewrite G6, H6. apply app_assoc.
  - apply Forall_app. split; assumption.
Qed.

Lemma map_assign_grows m k g w :
  m < List.length (maps w) ->
  exists w', map_assign m k g w = Returns (tt, w') /\ grows m w w' [].
Proof.
  intros Hm. unfold map_assign.
  destruct (lookup_lt_is_Some_2 _ _ Hm) as [fm ->].
  eexists. split; [reflexivity|]. repeat split; simpl; auto.
  apply length_insert.
Qed.

Lemma cache_assign_grows s m w :
  exists w',
    (bb ← get_b;
     _ ← (if decide (fieldGettersCache bb = None)
          then set_cache (Some []) else mret tt);
     cache_assign s m) w = Returns (tt, w')
    /\ grows m w w' [(s, m)].
Proof.
  erewrite bind_returns_eq by reflexivity.
  unfold cache_assign, cache_list.
  destruct w as [h ms [r st tg [c|]]]; simpl.
  - eexists. split; [reflexivity|]. repeat split; simpl; auto.
  - eexists. split; [reflexivity|]. repeat split; simpl; auto.
Qed.

Lemma walkable_fields name fs :
  walkable (reflect.TStruct name fs) = true ->
  Forall (fun f => reflect.PkgPath f = "" -> reflect.Anonymous f = true ->
                   walkable (reflect.FieldType f) = true) fs.
Proof.
  simpl. intros H. apply Forall_forall. intros f Hf Hp Ha.
  rewrite forallb_forall in H. specialize (H f).
  rewrite <- list_elem_of_In in H. specialize (H Hf).
  destruct (decide (reflect.PkgPath f ≠ "")); [contradiction|].
  rewrite Ha in H. exact H.
Qed.

Lemma fields_loop_spec recurse m idx fs :
  Forall (fun f =>
            reflect.PkgPath f = "" -> reflect.Anonymous f = true ->
            forall idx' w, m < List.length (maps w) ->
            exists w' added,
              recurse idx' (reflect.FieldType f) w = Returns (tt, w')
              /\ grows m w w' added
              /\ (reflect.FieldType f, m) ∈ added) fs ->
  forall i w, m < List.length (maps w) ->
  exists w' added,
    fields_loop recurse m idx i fs w = Returns (tt, w')
    /\ grows m w w' added
    /\ (forall f, f ∈ fs -> reflect.PkgPath f = "" ->
                  reflect.Anonymous f = true ->
                  (reflect.FieldType f, m) ∈ added).
Proof.
  induction 1 as [|f fs Hf _ IH]; intros i w Hm.
  - exists w, []. split; [reflexivity|]. split; [apply grows_refl|].
    intros f Hin. inversion Hin.
  - assert (Hstep : exists w1 a1,
               (if decide (reflect.PkgPath f ≠ "") then mret tt
                else if reflect.Anonymous f
                     then recurse (copyAndAppend idx i) (reflect.FieldType f)
                     else
                       bb ← get_b;
                       let fieldName :=
                         match Tag_Lookup (reflect.Tag f) (nameTag bb) with
                         | Some n => n
                         | None => reflect.Name f
                         end in
                       if decide (List.length idx = 0)
                       then map_assign m fieldName (makeFieldGetterByIndex i)
                       else map_assign m fieldName
                              (makeFieldGetterByIndexes (copyAndAppend idx i)))
                 w = Returns (tt, w1)
               /\ grows m w w1 a1
               /\ (reflect.PkgPath f = "" -> reflect.Anonymous f = true ->
                   (reflect.FieldType f, m) ∈ a1)).
    { destruct (decide (reflect.PkgPath f ≠ "")) as [Hp|Hp].
      - exists w, []. split; [reflexivity|]. split; [apply grows_refl|].
        intros E. contradiction.
      - apply dec_stable in Hp. destruct (reflect.Anonymous f) eqn:Ha.
        + destruct (Hf Hp eq_refl (copyAndAppend idx i) w Hm)
            as (w1 & a1 & H1 & H2 & H3).
          exists w1, a1. auto.
        + erewrite bind_returns_eq by reflexivity. simpl.
          destruct (decide (List.length idx = 0));
            (edestruct map_assign_grows as (w1 & H1 & H2); [exact Hm|];
             exists w1, []; split; [exact H1|]; split; [exact H2|];
             intros _ E; discriminate). }
    destruct Hstep as (w1 & a1 & H1 & G1 & M1).
    assert (Hm1 : m < List.length (maps w1)).
    { destruct G1 as (_ & _ & _ & _ & Hl & _). lia. }
    destruct (IH (S i) w1 Hm1) as (w2 & a2 & H2 & G2 & M2).
    exists w2, (a2 ++ a1). split; [|split].
    + simpl. erewrite bind_returns_eq by exact H1. exact H2.
    + eapply grows_trans; eassumption.
    + intros g Hg Hp Ha. apply elem_of_app.
      apply elem_of_cons in Hg as [->|Hg]; [right; auto|left; auto].
Qed.

Lemma getOrGenerateFieldGettersRecursive_spec s :
  walkable s = true ->
  forall m idx w, m < List.length (maps w) ->
  exists w' added,
    getOrGenerateFieldGettersRecursive m idx s w = Returns (tt, w')
    /\ grows m w w' added
    /\ (s, m) ∈ added
    /\ (forall name fs f, s = reflect.TStruct name fs -> f ∈ fs ->
          reflect.PkgPath f = "" -> reflect.Anonymous f = true ->
          (reflect.FieldType f, m) ∈ added).
Proof.
  induction s as [| | | | |name fs IH] using rtype_nested_ind;
    intros Hw m idx w Hm; try discriminate.
  pose proof (walkable_fields _ _ Hw) as Hwf.
  destruct (fields_loop_spec (getOrGenerateFieldGettersRecursive m) m idx fs)
    with (i := 0) (w := w) as (w1 & a1 & H1 & G1 & M1); [|exact Hm|].
  { rewrite Forall_forall in IH, Hwf. apply Forall_forall.
    intros f Hf Hp Ha idx' w0 Hm0.
    destruct (IH f Hf (Hwf f Hf Hp Ha) m idx' w0 Hm0)
      as (w' & added & E1 & E2 & E3 & _).
    exists w', added. auto. }
  destruct (cache_assign_grows (reflect.TStruct name fs) m w1)
    as (w2 & H2 & G2).
  exists w2, ([(reflect.TStruct name fs, m)] ++ a1).
  split; [|split; [|split]].
  - simpl. erewrite bind_returns_eq by exact H1. exact H2.
  - eapply grows_trans; eassumption.
  - apply elem_of_app. left. apply list_elem_of_singleton. reflexivity.
  - intros name' fs' f E Hf Hp Ha. inversion E; subst.
    apply elem_of_app. right. apply M1; assumption.
Qed.

Lemma cache_lookup_added added c s m :
  Forall (fun p => snd p = m) added -> (s, m) ∈ added ->
  cache_lookup (added ++ c) s = Some m.
Proof.
  induction 1 as [|[k m'] added Hk _ IH]; intros Hin; [inversion Hin|].
  simpl in *. subst m'. destruct (reflect.rtype_eqb k s) eqn:E; [reflexivity|].
  apply IH. apply elem_of_cons in Hin as [Hin|Hin]; [|exact Hin].
  inversion Hin; subst. rewrite rtype_eqb_refl in E. discriminate.
Qed.

Lemma cache_index_returns s w :
  cache_index s w = Returns (cache_of w s, w).
Proof.
  unfold cache_index, cache_of, cache_list.
  erewrite bind_returns_eq by reflexivity.
  destruct (fieldGettersCache (b w)); reflexivity.
Qed.

Lemma walkable_struct s : walkable s = true -> reflect.Type_Kind s = reflect.Struct.
Proof. destruct s; simpl; try discriminate. reflexivity. Qed.

(** *** What the getter map holds *)

Lemma assign_all_app l1 l2 fm :
  assign_all (l1 ++ l2) fm = assign_all l2 (assign_all l1 fm).
Proof. apply foldl_app. Qed.

Lemma assign_all_snoc l k g fm k' :
  assign_all (l ++ [(k, g)]) fm !! k'
  = if decide (k = k') then Some g else assign_all l fm !! k'.
Proof.
  rewrite assign_all_app. simpl. destruct (decide (k = k')) as [->|Hne].
  - apply lookup_insert_eq.
  - apply lookup_insert_ne. exact Hne.
Qed.

Lemma map_assign_inv m k g w w' :
  map_assign m k g w = Returns (tt, w') ->
  exists fm, maps w !! m = Some fm
             /\ w' = mkWorld (heap w) (<[m := <[k := g]> fm]> (maps w)) (b w).
Proof.
  unfold map_assign. destruct (maps w !! m) as [fm|]; [|discriminate].
  intros H. inversion H. eauto.
Qed.

Lemma cache_tail_inv s m w w' :
  (bb ← get_b;
   _ ← (if decide (fieldGettersCache bb = None)
        then set_cache (Some []) else mret tt);
   cache_assign s m) w = Returns (tt, w') ->
  maps w' = maps w /\ nameTag (b w') = nameTag (b w) /\ heap w' = heap w.
Proof.
  intros H. destruct (cache_assign_grows s m w) as (w2 & H2 & G).
  rewrite H2 in H. inversion H; subst w2. clear H.
  revert H2. erewrite bind_returns_eq by reflexivity.
  unfold cache_assign.
  destruct w as [h ms [r st tg [c|]]]; simpl; intros H; inversion H;
    subst; repeat split.
Qed.

Lemma walked_nil tag m w : nameTag (b w) = tag -> walked tag m [] w w.
Proof.
  intros Ht. split; [exact Ht|]. intros fm Hfm. simpl.
  symmetry. apply list_insert_id. exact Hfm.
Qed.

Lemma walked_trans tag m r1 r2 w1 w2 w3 :
  walked tag m r1 w1 w2 -> walked tag m r2 w2 w3 ->
  walked tag m (r1 ++ r2) w1 w3.
Proof.
  intros [T1 H1] [T2 H2]. split; [exact T2|]. intros fm Hfm.
  pose proof (H1 fm Hfm) as E1.
  assert (Hm2 : maps w2 !! m = Some (assign_all r1 fm)).
  { rewrite E1. apply list_lookup_insert_eq.
    eapply lookup_lt_Some. exact Hfm. }
  rewrite (H2 _ Hm2), E1, list_insert_insert_eq, assign_all_app.
  reflexivity.
Qed.

Lemma fields_loop_walked tag m rc rs idx fs :
  Forall (fun f => forall idx' w w',
            nameTag (b w) = tag ->
            rc idx' (reflect.FieldType f) w = Returns (tt, w') ->
            walked tag m (rs idx' (reflect.FieldType f)) w w') fs ->
  forall i w w',
    nameTag (b w) = tag ->
    fields_loop rc m idx i fs w = Returns (tt, w') ->
    walked tag m (registrations_loop rs tag idx i fs) w w'.
Proof.
  induction 1 as [|f fs Hf _ IH]; intros i w w' Ht H.
  - injection H as <-. apply walked_nil. exact Ht.
  - simpl in H. apply bind_returns in H as ([] & w1 & H1 & H2).
    simpl. apply walked_trans with (w2 := w1).
    + destruct (decide (reflect.PkgPath f ≠ "")).
      * injection H1 as <-. apply walked_nil. exact Ht.
      * destruct (reflect.Anonymous f).
        -- apply Hf; assumption.
        -- apply bind_returns in H1 as (bb & w0 & E & H1).
           inversion E; subst bb w0. clear E. simpl in H1.
           unfold field_key. rewrite Ht in H1.
           destruct (decide (List.length idx = 0));
             (apply map_assign_inv in H1 as (fm0 & Hfm0 & ->);
              split; [exact Ht|]; intros fm Hfm; simpl;
              rewrite Hfm in Hfm0; inversion Hfm0; reflexivity).
    + apply IH; [|exact H2].
      destruct (decide (reflect.PkgPath f ≠ "")).
      * injection H1 as <-. exact Ht.
      * destruct (reflect.Anonymous f).
        -- eapply Hf; eassumption.
        -- apply bind_returns in H1 as (bb & w0 & E & H1).
           inversion E; subst bb w0. simpl in H1.
           destruct (decide (List.length idx = 0));
             apply map_assign_inv in H1 as (fm0 & Hfm0 & ->); exact Ht.
Qed.

Lemma getOrGenerateFieldGettersRecursive_walked tag m s :
  forall idx w w',
    nameTag (b w) = tag ->
    getOrGenerateFieldGettersRecursive m idx s w = Returns (tt, w') ->
    walked tag m (registrations tag idx s) w w'.
Proof.
  induction s as [| | | | |name fs IH] using rtype_nested_ind;
    intros idx w w' Ht H; try discriminate.
  simpl in H. apply bind_returns in H as ([] & w1 & H1 & H2).
  apply (fields_loop_walked tag m _ (registrations tag) idx fs) in H1;
    [|eapply Forall_impl; [exact IH|]; intros f Hf idx' w0 w0'; apply Hf
     |exact Ht].
  apply cache_tail_inv in H2 as (Em & Et & _).
  destruct H1 as [T1 M1]. split; [congruence|].
  intros fm Hfm. rewrite Em. simpl. apply M1. exact Hfm.
Qed.


Lemma getOrGenerateFieldGetters_miss s w :
  walkable s = true -> cache_of w s = None ->
  exists w',
    getOrGenerateFieldGetters s w = Returns (List.length (maps w), w')
    /\ maps w'
       = maps w ++ [assign_all (registrations (nameTag (b w)) [] s) ∅]
    /\ cache_of w' s = Some (List.length (maps w))
    /\ heap w' = heap w
    /\ root (b w') = root (b w)
    /\ stack (b w') = stack (b w)
    /\ nameTag (b w') = nameTag (b w).
Proof.
  intros Hw Hmiss.
  set (m := List.length (maps w)).
  set (w0 := mkWorld (heap w) (maps w ++ [∅]) (b w)).
  assert (Hm : m < List.length (maps w0)).
  { unfold w0, m. simpl. rewrite length_app. simpl. lia. }
  destruct (getOrGenerateFieldGettersRecursive_spec s Hw m [] w0 Hm)
    as (w1 & a1 & H1 & G1 & M1 & _).
  pose proof G1 as (Gh & Gr & Gs & Gt & Gl & Gc & Gf).
  pose proof (getOrGenerateFieldGettersRecursive_walked
                (nameTag (b w)) m s [] w0 w1 eq_refl H1) as [_ Hmaps].
  assert (Hm0 : maps w0 !! m = Some ∅).
  { unfold w0, m. simpl. rewrite lookup_app_r by lia.
    rewrite Nat.sub_diag. reflexivity. }
  specialize (Hmaps ∅ Hm0).
  assert (Hsome : exists c, fieldGettersCache (b w1) = Some c
                            /\ c = a1 ++ cache_list w0).
  { unfold cache_list in Gc at 1.
    destruct (fieldGettersCache (b w1)) as [c|]; [eauto|].
    apply list_elem_of_In in M1. destruct a1; [contradiction|discriminate]. }
  destruct Hsome as (c & Hc & Hceq).
  exists (mkWorld (heap w1) (maps w1)
            (mkBuilder (root (b w1)) (stack (b w1)) (nameTag (b w1))
               (Some ((s, m) :: c)))).
  split; [|split; [|split; [|repeat split]]].
  - unfold getOrGenerateFieldGetters.
    rewrite (walkable_struct _ Hw). simpl.
    erewrite bind_returns_eq by apply cache_index_returns.
    rewrite Hmiss.
    rewrite bind_returns_eq with (a := m) (w' := w0) by reflexivity.
    erewrite bind_returns_eq by exact H1.
    erewrite bind_returns_eq.
    2:{ unfold cache_assign. erewrite bind_returns_eq by reflexivity.
        rewrite Hc. reflexivity. }
    reflexivity.
  - simpl. rewrite Hmaps. unfold w0, m. simpl.
    replace (List.length (maps w)) with (List.length (maps w) + 0) at 1 by lia.
    rewrite insert_app_r. reflexivity.
  - change (cache_lookup ([(s, m)] ++ c) s = Some m).
    apply cache_lookup_added.
    + constructor; [reflexivity|constructor].
    + apply list_elem_of_singleton. reflexivity.
  - exact Gh.
  - exact Gr.
  - exact Gs.
  - exact Gt.
Qed.

Lemma getOrGenerateFieldGetters_hit s m w :
  reflect.Type_Kind s = reflect.Struct -> cache_of w s = Some m ->
  getOrGenerateFieldGetters s w = Returns (m, w).
Proof.
  intros Hk Hc. unfold getOrGenerateFieldGetters. rewrite Hk. simpl.
  erewrite bind_returns_eq by apply cache_index_returns.
  rewrite Hc. reflexivity.
Qed.

Lemma assign_all_lookup l k g :
  assign_all l ∅ !! k = Some g -> (k, g) ∈ l.
Proof.
  induction l as [|[k' g'] l IH] using rev_ind; intros H.
  - discriminate.
  - rewrite assign_all_snoc in H. apply elem_of_app.
    destruct (decide (k' = k)) as [->|Hne].
    + inversion H; subst. right. apply list_elem_of_singleton. reflexivity.
    + left. apply IH. exact H.
Qed.

Lemma field_at_cons name fs i rest f :
  fs !! i = Some f -> reflect.PkgPath f = "" -> reflect.Anonymous f = true ->
  rest <> [] ->
  field_at (reflect.TStruct name fs) (i :: rest)
  = field_at (reflect.FieldType f) rest.
Proof.
  intros Hi Hp Ha Hr. simpl. rewrite Hi. simpl.
  destruct rest as [|j rest]; [contradiction|].
  destruct (decide (reflect.PkgPath f = "")); [|contradiction].
  rewrite Ha. reflexivity.
Qed.

Lemma registrations_loop_sound rs tag idx fs :
  forall i k g,
    (k, g) ∈ registrations_loop rs tag idx i fs ->
    exists j f,
      fs !! j = Some f /\ reflect.PkgPath f = ""
      /\ ((reflect.Anonymous f = false /\ field_key tag f = k
           /\ path_of g = idx ++ [i + j])
          \/ (reflect.Anonymous f = true
              /\ (k, g) ∈ rs (idx ++ [i + j]) (reflect.FieldType f))).
Proof.
  induction fs as [|f fs IH]; intros i k g H; simpl in H.
  - inversion H.
  - apply elem_of_app in H as [H|H].
    + exists 0, f. rewrite Nat.add_0_r.
      destruct (decide (reflect.PkgPath f ≠ "")) as [|Hp]; [inversion H|].
      apply dec_stable in Hp. split; [reflexivity|]. split; [exact Hp|].
      destruct (reflect.Anonymous f) eqn:Ha.
      * right. split; [reflexivity|exact H].
      * left. split; [reflexivity|].
        destruct (decide (List.length idx = 0)) as [Hz|Hz];
          apply list_elem_of_singleton in H; inversion H; subst;
          (split; [reflexivity|]); simpl; [|reflexivity].
        destruct idx; [reflexivity|discriminate].
    + destruct (IH (S i) k g H) as (j & f' & Hj & Hp & Hcase).
      exists (S j), f'. replace (i + S j) with (S i + j) by lia.
      split; [exact Hj|]. split; [exact Hp|exact Hcase].
Qed.

Lemma registrations_sound tag s :
  forall idx k g,
    (k, g) ∈ registrations tag idx s ->
    exists path f,
      path_of g = idx ++ path
      /\ field_at s path = Some f
      /\ reflect.PkgPath f = "" /\ reflect.Anonymous f = false
      /\ field_key tag f = k.
Proof.
  induction s as [b0|n0 e0 _| |e0 _|e0 _|name fs IH] using rtype_nested_ind;
    intros idx k g H; try (inversion H; fail).
  simpl in H.
  apply registrations_loop_sound in H as (j & f & Hj & Hp & Hcase).
  simpl in Hcase. destruct Hcase as [(Ha & Hk & Hpath)|(Ha & Hin)].
  - exists [j], f. split; [exact Hpath|]. split; [|auto].
    simpl. rewrite Hj. reflexivity.
  - rewrite Forall_forall in IH.
    destruct (IH f (list_elem_of_lookup_2 _ _ _ Hj) _ _ _ Hin)
      as (path & f' & Hpath & Hat & Hp' & Ha' & Hk').
    exists (j :: path), f'. split; [|split; [|auto]].
    + rewrite Hpath. unfold copyAndAppend. rewrite <- app_assoc. reflexivity.
    + rewrite (field_at_cons _ _ _ _ f Hj Hp Ha); [exact Hat|].
      intros ->. discriminate.
Qed.


(** ** The claims on the example value *)

Module OnExample.
Import Example.

Abbreviation call' := (call growcap float32_of fmt_s 8).

Example NewBuilder_example :
  NewBuilder h0 "toml" p0 = Returns (b0, None)
  /\ stack b0 = [t_root] /\ root b0 = t_root.
Proof. vm_compute. repeat split. Qed.

Example cursors :
  last (stack (b w_name)) = Some t_name
  /\ last (stack (b w_tags)) = Some t_tags
  /\ last (stack (b w_age)) = Some t_age
  /\ last (stack (b w_uint)) = Some t_uint
  /\ last (stack (b w_ptr_int)) = Some t_ptr_int
  /\ last (stack (b w_opt)) = Some t_opt
  /\ last (stack (b w_any_tags)) = Some t_any_tags.
Proof. vm_compute. repeat split. Qed.

(** Appending in place: the spare cell is cleared, the array stays. *)
Example SliceNewElem_in_place :
  exists w',
    SliceNewElem growcap w_room = Returns (None, w')
    /\ heap w'
       = [reflect.VStruct [reflect.VSlice (Some (reflect.Loc 1 [], 0)) 2 3];
          reflect.VArray [reflect.VString "a"; reflect.VString "";
                          reflect.VString "stale"];
          reflect.VString ""]
    /\ last (stack (b w'))
       = Some (reflect.Val tstring (reflect.Addr (reflect.Loc 1 [1]))
                 reflect.RW).
Proof. eexists. split; [reflexivity|]. split; vm_compute; reflexivity. Qed.

(** The getters of [Person] reach [ID] through the embedded [Base]; the
    same getter, found under the key [Base], does not fit a [Base]. *)
Example getters_of_Base_are_those_of_Person :
  getOrGenerateFieldGetters Person w0 = Returns (0, w_person)
  /\ getOrGenerateFieldGetters Base w_person = Returns (0, w_person)
  /\ (maps w_person !! 0) ≫= (fun fm => fm !! "ID")
     = Some (makeFieldGetterByIndexes [6; 0])
  /\ call_fieldGetter (makeFieldGetterByIndexes [6; 0]) (heap w_person)
       (reflect.Val Base (reflect.Addr (reflect.Loc 0 [6])) reflect.RW)
     = Panics "reflect: Field index out of range".
Proof. vm_compute. repeat split. Qed.

(** C1 fails as stated: on the fresh Builder, whose stack has length 1,
    [DigField("Name")] returns no error and the bottom frame is then the
    field, not the root. *)
Lemma bottom_replaced_at_depth_one :
  NewBuilder h0 "toml" p0 = Returns (b0, None)
  /\ List.length (stack (b w0)) = 1
  /\ head (stack (b w0)) = Some (root (b w0))
  /\ call' (OpDigField "Name") w0 = Returns (None, w_name)
  /\ head (stack (b w_name)) = Some t_name
  /\ head (stack (b w_name)) <> Some (root (b w_name)).
Proof.
  vm_compute. repeat (split; [reflexivity|]). discriminate.
Qed.

(** C2 fails as stated: on a cursor of kind uint, an integer kind,
    [SetInt] does not store: it returns [IncorrectKind]. *)
Lemma SetInt_rejects_unsigned :
  last (stack (b w_uint)) = Some t_uint
  /\ reflect.Value_Kind t_uint = reflect.Uint
  /\ SetInt 3 w_uint
     = Returns (Some (IncorrectKindError reflect.Uint reflect.Int), w_uint).
Proof. vm_compute. repeat split. Qed.

(** C5 fails as stated: on a settable cursor of pointer kind whose type is
    pointer to int, [SetString] does not succeed: [Set] panics. *)
Lemma SetString_panics_on_pointer_to_int :
  last (stack (b w_ptr_int)) = Some t_ptr_int
  /\ reflect.Value_Kind t_ptr_int = reflect.Ptr
  /\ reflect.Value_CanSet t_ptr_int = true
  /\ SetString "x" w_ptr_int
     = Panics "reflect.Set: value of type *string is not assignable to type *int".
Proof. vm_compute. repeat split. Qed.

Lemma w_any_tags_reachable :
  reachable growcap float32_of fmt_s b0 w_any_tags.
Proof.
  apply (reach_call _ _ _ _ (after [OpDigField "Any"] w0) 8
           (OpDigField "Tags") None); [|vm_compute; reflexivity].
  apply (reach_call _ _ _ _ w0 8 (OpDigField "Any") None);
    [|vm_compute; reflexivity].
  apply reach_new.
Qed.

(** C7 fails as stated: the slice reached through the interface field
    [Any] is a slice of length 0 under the cursor of a reachable Builder,
    and [SliceNewElem] panics on it, because the slot cannot be set. *)
Lemma SliceNewElem_panics_on_unaddressable :
  reachable growcap float32_of fmt_s b0 w_any_tags
  /\ last (stack (b w_any_tags)) = Some t_any_tags
  /\ reflect.Value_Kind t_any_tags = reflect.Slice
  /\ reflect.Value_Len (heap w_any_tags) t_any_tags = Returns 0
  /\ SliceNewElem growcap w_any_tags
     = Panics "reflect: reflect.Set using unaddressable value".
Proof.
  split; [exact w_any_tags_reachable|]. vm_compute. repeat split.
Qed.


(** *** The theorems at work on the example *)

Ltac by_compute := vm_compute; reflexivity.

Lemma NewBuilder_spec_on_Person :
  p0 = Some (reflect.TPtr Person, reflect.VPtr (Some (reflect.Loc 0 [])))
  /\ NewBuilder h0 "toml" p0
     = Returns (mkBuilder t_root [t_root] "toml" None, None).
Proof.
  split; [reflexivity|].
  exact (proj1 (proj2 (NewBuilder_spec h0 "toml" p0))
           Person (Some (reflect.Loc 0 [])) eq_refl).
Defined.

Lemma error_leaves_cursor_stack_witness :
  call' (OpDigField "nope") w0
  = Returns (Some (FieldNotFoundError t_root "nope"), w_person)
  /\ stack (b w_person) = stack (b w0)
  /\ List.length (stack (b w_person)) = List.length (stack (b w0))
  /\ last (stack (b w_person)) = last (stack (b w0)).
Proof.
  assert (H : call' (OpDigField "nope") w0
              = Returns (Some (FieldNotFoundError t_root "nope"), w_person))
    by by_compute.
  split; [exact H|].
  exact (error_leaves_cursor_stack _ _ _ _ _ _ _ _ H).
Defined.

Lemma bottom_frame_witness :
  call' (OpDigField "Name") w_depth2 = Returns (None, w_depth2_name)
  /\ 2 <= List.length (stack (b w_depth2))
  /\ root (b w_depth2_name) = root (b w_depth2)
  /\ head (stack (b w_depth2_name)) = head (stack (b w_depth2))
  /\ call' (OpDigField "Name") w0 = Returns (None, w_name)
  /\ stack (b w0) = [t_root]
  /\ exists c,
       stack (b w_name) = [c]
       /\ forall below,
            call' (OpDigField "Name") (deeper below w0)
            = Returns (None, deeper below w_name)
            /\ stack (b (deeper below w0)) = below ++ [t_root]
            /\ stack (b (deeper below w_name)) = below ++ [c].
Proof.
  assert (H : call' (OpDigField "Name") w_depth2
              = Returns (None, w_depth2_name)) by by_compute.
  assert (H2 : 2 <= List.length (stack (b w_depth2)))
    by (vm_compute; lia).
  assert (H1 : call' (OpDigField "Name") w0 = Returns (None, w_name))
    by by_compute.
  assert (Hs : stack (b w0) = [t_root]) by by_compute.
  destruct (bottom_frame _ _ _ _ _ _ _ _ H) as (Hr & _ & Hb & _).
  destruct (bottom_frame _ _ _ _ _ _ _ _ H1) as (_ & _ & _ & Hone).
  split; [exact H|]. split; [exact H2|]. split; [exact Hr|].
  split; [apply Hb; [discriminate|left; exact H2]|].
  split; [exact H1|]. split; [exact Hs|].
  exact (Hone eq_refl t_root Hs).
Defined.

Lemma w_saved_reachable : reachable growcap float32_of fmt_s b0 w_saved.
Proof.
  apply (reach_call _ _ _ _ (after [OpSave; OpDigField "Tags"] w0) 8
           OpSave None); [|by_compute].
  apply (reach_call _ _ _ _ (after [OpSave] w0) 8 (OpDigField "Tags") None);
    [|by_compute].
  apply (reach_call _ _ _ _ w0 8 OpSave None); [|by_compute].
  apply reach_new.
Defined.

Lemma Reset_restores_root_witness :
  NewBuilder h0 "toml" p0 = Returns (b0, None)
  /\ reachable growcap float32_of fmt_s b0 w_saved
  /\ List.length (stack (b w_saved)) = 3
  /\ exists w', Reset w_saved = Returns (tt, w')
                /\ stack (b w') = [root b0]
                /\ List.length (stack (b w')) = 1
                /\ heap w' = heap w_saved.
Proof.
  assert (Hn : NewBuilder h0 "toml" p0 = Returns (b0, None)) by by_compute.
  split; [exact Hn|]. split; [exact w_saved_reachable|].
  split; [by_compute|].
  exact (Reset_restores_root _ _ _ _ _ _ _ _ Hn w_saved_reachable).
Defined.

Lemma DigField_nil_panics_witness :
  last (stack (b w_ptr_int)) = Some t_ptr_int
  /\ reflect.Value_Kind t_ptr_int = reflect.Ptr
  /\ reflect.Value_IsNil (heap w_ptr_int) t_ptr_int = Returns true
  /\ DigField 1 "x" w_ptr_int
     = Panics "reflect: call of reflect.Value.Type on zero Value".
Proof.
  assert (H1 : last (stack (b w_ptr_int)) = Some t_ptr_int) by by_compute.
  assert (H2 : reflect.Value_Kind t_ptr_int = reflect.Ptr) by reflexivity.
  assert (H3 : reflect.Value_IsNil (heap w_ptr_int) t_ptr_int = Returns true)
    by by_compute.
  repeat (split; [assumption|]).
  exact (DigField_nil_panics 0 "x" w_ptr_int t_ptr_int H1 (or_introl H2) H3).
Defined.

Lemma SetInt_spec_witness :
  last (stack (b w_age)) = Some t_age
  /\ reflect.load (heap w_age) (reflect.Loc 0 [2]) = Some (reflect.VInt 0)
  /\ (exists w', SetInt 300 w_age = Returns (None, w')
                 /\ reflect.load (heap w') (reflect.Loc 0 [2])
                    = Some (reflect.VInt (reflect.wrap 8 300)))
  /\ last (stack (b w_name)) = Some t_name
  /\ SetInt 300 w_name
     = Returns (Some (IncorrectKindError reflect.String reflect.Int), w_name).
Proof.
  assert (H1 : last (stack (b w_age)) = Some t_age) by by_compute.
  assert (H2 : reflect.load (heap w_age) (reflect.Loc 0 [2])
               = Some (reflect.VInt 0)) by by_compute.
  assert (H3 : last (stack (b w_name)) = Some t_name) by by_compute.
  split; [exact H1|]. split; [exact H2|]. split; [|split; [exact H3|]].
  - destruct (proj1 (SetInt_spec 300 w_age t_age H1) _ _ 8%Z _
                eq_refl eq_refl H2) as (w' & Hs & Hl & _).
    exists w'. split; assumption.
  - exact (proj2 (SetInt_spec 300 w_name t_name H3) _ _ _ eq_refl eq_refl).
Defined.

Lemma SetString_spec_witness :
  last (stack (b w_opt)) = Some t_opt
  /\ reflect.load (heap w_opt) (reflect.Loc 0 [7]) = Some (reflect.VPtr None)
  /\ (exists w', SetString "x" w_opt = Returns (None, w')
                 /\ reflect.load (heap w') (reflect.Loc 0 [7])
                    = Some (reflect.VPtr
                              (Some (reflect.Loc (List.length (heap w_opt)) [])))
                 /\ reflect.load (heap w')
                      (reflect.Loc (List.length (heap w_opt)) [])
                    = Some (reflect.VString "x"))
  /\ last (stack (b w_age)) = Some t_age
  /\ SetString "x" w_age
     = Returns (Some (IncorrectKindError reflect.Int8 reflect.String), w_age)
  /\ last (stack (b w_name)) = Some t_name
  /\ (exists w', SetString "x" w_name = Returns (None, w')
                 /\ reflect.load (heap w') (reflect.Loc 0 [0])
                    = Some (reflect.VString "x")).
Proof.
  assert (H1 : last (stack (b w_opt)) = Some t_opt) by by_compute.
  assert (H2 : reflect.load (heap w_opt) (reflect.Loc 0 [7])
               = Some (reflect.VPtr None)) by by_compute.
  assert (H3 : last (stack (b w_age)) = Some t_age) by by_compute.
  assert (H4 : last (stack (b w_name)) = Some t_name) by by_compute.
  assert (H5 : reflect.load (heap w_name) (reflect.Loc 0 [0])
               = Some (reflect.VString "")) by by_compute.
  split; [exact H1|]. split; [exact H2|].
  split; [|split; [exact H3|split; [|split; [exact H4|]]]].
  - destruct (proj1 (SetString_spec "x" w_opt t_opt H1) _ _ eq_refl H2)
      as (w' & Hs & _ & Hnew & Hl & _).
    exists w'. repeat split; assumption.
  - refine (proj1 (proj2 (SetString_spec "x" w_age t_age H3)) _ _ _
              eq_refl _ _); discriminate.
  - destruct (proj2 (proj2 (SetString_spec "x" w_name t_name H4)) _ _
                eq_refl H5) as (w' & Hs & Hl & _).
    exists w'. split; assumption.
Defined.

Lemma SliceLastOrCreate_refines_witness :
  last (stack (b w_tags)) = Some t_tags
  /\ reflect.Value_Len (heap w_tags) t_tags = Returns 0
  /\ SliceLastOrCreate growcap w_tags = SliceNewElem growcap w_tags
  /\ last (stack (b w_tags1)) = Some t_tags
  /\ reflect.Value_Len (heap w_tags1) t_tags = Returns 1
  /\ SliceLastOrCreate growcap w_tags1 = noerr Last w_tags1
  /\ last (stack (b w_name)) = Some t_name
  /\ SliceLastOrCreate growcap w_name
     = Returns (Some (IncorrectKindError reflect.String reflect.Slice),
                w_name).
Proof.
  assert (H1 : last (stack (b w_tags)) = Some t_tags) by by_compute.
  assert (H2 : reflect.Value_Len (heap w_tags) t_tags = Returns 0)
    by by_compute.
  assert (H3 : last (stack (b w_tags1)) = Some t_tags) by by_compute.
  assert (H4 : reflect.Value_Len (heap w_tags1) t_tags = Returns 1)
    by by_compute.
  assert (H5 : last (stack (b w_name)) = Some t_name) by by_compute.
  split; [exact H1|]. split; [exact H2|]. split; [|split; [exact H3|]].
  - exact (proj1 (proj1 (SliceLastOrCreate_refines growcap w_tags t_tags H1)
                    0 eq_refl H2) eq_refl).
  - split; [exact H4|]. split; [|split; [exact H5|]].
    + refine (proj1 (proj2 (proj1 (SliceLastOrCreate_refines growcap w_tags1
                                     t_tags H3) 1 eq_refl H4) _)).
      discriminate.
    + refine (proj2 (SliceLastOrCreate_refines growcap w_name t_name H5)
                eq_refl _).
      discriminate.
Defined.

Lemma SliceNewElem_spec_witness :
  last (stack (b w_room)) = Some t_room
  /\ reflect.load (heap w_room) (reflect.Loc 0 [0])
     = Some (reflect.VSlice (Some (reflect.Loc 1 [], 0)) 1 3)
  /\ slice_ok (heap w_room) (Some (reflect.Loc 1 [], 0)) 1 3
  /\ disjoint (reflect.Loc 1 [1]) (reflect.Loc 0 [0])
  /\ exists w' x,
       SliceNewElem growcap w_room = Returns (None, w')
       /\ reflect.Value_Len (heap w') t_room = Returns (1 + 1)
       /\ reflect.Value_Index (heap w') t_room 1 = Returns x
       /\ last (stack (b w')) = Some x
       /\ reflect.read (heap w') x = Returns (reflect.zero tstring)
       /\ removelast (stack (b w')) = removelast (stack (b w_room)).
Proof.
  assert (H1 : last (stack (b w_room)) = Some t_room) by by_compute.
  assert (H2 : reflect.load (heap w_room) (reflect.Loc 0 [0])
               = Some (reflect.VSlice (Some (reflect.Loc 1 [], 0)) 1 3))
    by by_compute.
  assert (H3 : slice_ok (heap w_room) (Some (reflect.Loc 1 [], 0)) 1 3).
  { split; [lia|].
    exists [reflect.VString "a"; reflect.VString "stale";
            reflect.VString "stale"].
    split; [by_compute|simpl; lia]. }
  assert (H4 : disjoint (reflect.Loc 1 [1]) (reflect.Loc 0 [0])).
  { apply disjoint_addr. simpl. lia. }
  repeat (split; [assumption|]).
  apply (SliceNewElem_spec growcap w_room tstring (reflect.Loc 0 [0])
           (Some (reflect.Loc 1 [], 0)) 1 3 H1 H2 H3).
  intros c _ Hc. inversion Hc. exact H4.
Defined.


End OnExample.

(** ** Field resolution: what [DigField] finds *)

(** X1.  The map built for a struct type holds exactly the assignments of the
    walk: for each name, the getter of the last exported field that takes
    the name, with embedded structs flattened in place. *)
Theorem getters_are_registrations s w :
  walkable s = true -> cache_of w s = None ->
  exists w',
    getOrGenerateFieldGetters s w = Returns (List.length (maps w), w')
    /\ maps w' !! List.length (maps w)
       = Some (assign_all (registrations (nameTag (b w)) [] s) ∅)
    /\ (forall m', m' < List.length (maps w) -> maps w' !! m' = maps w !! m')
    /\ heap w' = heap w /\ stack (b w') = stack (b w).
Proof.
  intros Hw Hmiss.
  destruct (getOrGenerateFieldGetters_miss s w Hw Hmiss)
    as (w' & Hrun & Hmaps & _ & Hh & _ & Hs & _).
  exists w'. split; [exact Hrun|]. rewrite Hmaps.
  split; [|split; [|split; assumption]].
  - rewrite lookup_app_r by lia. rewrite Nat.sub_diag. reflexivity.
  - intros m' Hm'. apply lookup_app_l. exact Hm'.
Qed.

Lemma fieldGetter_miss s k w :
  walkable s = true -> cache_of w s = None ->
  exists w' err,
    fieldGetter_ s k w = Returns ((resolve (nameTag (b w)) s k, err), w')
    /\ (resolve (nameTag (b w)) s k = None <-> err <> None)
    /\ heap w' = heap w
    /\ root (b w') = root (b w)
    /\ stack (b w') = stack (b w).
Proof.
  intros Hw Hmiss.
  destruct (getOrGenerateFieldGetters_miss s w Hw Hmiss)
    as (w' & Hrun & Hmaps & _ & Hh & Hr & Hs & _).
  assert (Hidx : map_index (List.length (maps w)) k w'
                 = Returns (resolve (nameTag (b w)) s k, w')).
  { unfold map_index. rewrite Hmaps. rewrite lookup_app_r by lia.
    rewrite Nat.sub_diag. reflexivity. }
  unfold fieldGetter_.
  erewrite bind_returns_eq by exact Hrun.
  erewrite bind_returns_eq by exact Hidx.
  destruct (resolve (nameTag (b w)) s k) as [g|].
  - exists w', None. split; [reflexivity|]. split; [|auto].
    split; [discriminate|intros H; contradiction].
  - eexists w', (Some _). split; [reflexivity|]. split; [|auto].
    split; [discriminate|reflexivity].
Qed.

Lemma fieldGetter_own s k w :
  walkable s = true -> own_getters w s ->
  exists w' err,
    fieldGetter_ s k w = Returns ((resolve (nameTag (b w)) s k, err), w')
    /\ (resolve (nameTag (b w)) s k = None <-> err <> None)
    /\ heap w' = heap w
    /\ root (b w') = root (b w)
    /\ stack (b w') = stack (b w).
Proof.
  intros Hw Hown. unfold own_getters in Hown.
  destruct (cache_of w s) as [m|] eqn:Hc; [|apply fieldGetter_miss; assumption].
  pose proof (getOrGenerateFieldGetters_hit s m w (walkable_struct _ Hw) Hc)
    as Hhit.
  assert (Hidx : map_index m k w
                 = Returns (resolve (nameTag (b w)) s k, w)).
  { unfold map_index. rewrite Hown. reflexivity. }
  unfold fieldGetter_.
  erewrite bind_returns_eq by exact Hhit.
  erewrite bind_returns_eq by exact Hidx.
  destruct (resolve (nameTag (b w)) s k) as [g|].
  - exists w, None. split; [reflexivity|]. split; [|auto].
    split; [discriminate|intros H; contradiction].
  - eexists w, (Some _). split; [reflexivity|]. split; [|auto].
    split; [discriminate|reflexivity].
Qed.

Lemma deref_struct fuel h name fs p ro :
  deref fuel h (reflect.Val (reflect.TStruct name fs) p ro)
  = Returns (reflect.Val (reflect.TStruct name fs) p ro).
Proof. destruct fuel; reflexivity. Qed.

(** What [DigField] does once the loop has reached a struct, by the
    outcome of the resolution. *)
Lemma DigField_missing fuel k w t name fs p ro :
  last (stack (b w)) = Some t ->
  deref fuel (heap w) t = Returns (reflect.Val (reflect.TStruct name fs) p ro) ->
  walkable (reflect.TStruct name fs) = true ->
  cache_of w (reflect.TStruct name fs) = None ->
  resolve (nameTag (b w)) (reflect.TStruct name fs) k = None ->
  exists w',
    DigField fuel k w
    = Returns (Some (FieldNotFoundError
                       (reflect.Val (reflect.TStruct name fs) p ro) k), w')
    /\ stack (b w') = stack (b w) /\ heap w' = heap w.
Proof.
  intros Ht Hd Hw Hmiss Hres.
  destruct (fieldGetter_miss _ k w Hw Hmiss)
    as (w' & err & Hg & Herr & Hh & _ & Hs).
  exists w'. split; [|split; assumption].
  unfold DigField. run_top Ht.
  erewrite bind_returns_eq by (apply liftR_returns; exact Hd).
  rewrite bind_returns_eq with (a := reflect.TStruct name fs) (w' := w)
    by reflexivity.
  simpl. erewrite bind_returns_eq by exact Hg.
  rewrite Hres. destruct err as [e|]; [reflexivity|].
  exfalso. apply (proj1 Herr Hres). reflexivity.
Qed.

(** X4.  [DigField] with a name that no exported field of the struct under the
    cursor takes: [FieldNotFound], carrying the struct and the name; cursor
    and data are as before. *)
Theorem DigField_unknown_field fuel k w name fs p ro :
  last (stack (b w)) = Some (reflect.Val (reflect.TStruct name fs) p ro) ->
  walkable (reflect.TStruct name fs) = true ->
  cache_of w (reflect.TStruct name fs) = None ->
  resolve (nameTag (b w)) (reflect.TStruct name fs) k = None ->
  exists w',
    DigField fuel k w
    = Returns (Some (FieldNotFoundError
                       (reflect.Val (reflect.TStruct name fs) p ro) k), w')
    /\ stack (b w') = stack (b w) /\ heap w' = heap w.
Proof.
  intros Ht. apply (DigField_missing fuel k w _ name fs p ro Ht).
  apply deref_struct.
Qed.

Lemma Value_Field_valid v i f :
  reflect.Value_Field v i = Returns f -> reflect.Value_IsValid f = true.
Proof.
  destruct v as [|[| | | | |name fs] p ro]; try discriminate. simpl.
  destruct (fs !! i); [|discriminate].
  destruct p as [l|[]]; try discriminate.
  - intros H. inversion H. reflexivity.
  - destruct (fields !! i); simpl; [|discriminate].
    intros H. inversion H. reflexivity.
Qed.

(** [DigField] with a name that resolves to a getter: no error, and the
    cursor becomes what the getter returns on the struct; the data and the
    frames below the cursor are as before. *)
Lemma DigField_resolved fuel k w t name fs p ro g f :
  last (stack (b w)) = Some t ->
  deref fuel (heap w) t = Returns (reflect.Val (reflect.TStruct name fs) p ro) ->
  walkable (reflect.TStruct name fs) = true ->
  own_getters w (reflect.TStruct name fs) ->
  resolve (nameTag (b w)) (reflect.TStruct name fs) k = Some g ->
  call_fieldGetter g (heap w) (reflect.Val (reflect.TStruct name fs) p ro)
  = Returns f ->
  reflect.Value_IsValid f = true ->
  exists w',
    DigField fuel k w = Returns (None, w')
    /\ last (stack (b w')) = Some f
    /\ removelast (stack (b w')) = removelast (stack (b w))
    /\ heap w' = heap w.
Proof.
  intros Ht Hd Hw Hmiss Hres Hcall Hvalid.
  destruct (fieldGetter_own _ k w Hw Hmiss)
    as (w' & err & Hg & Herr & Hh & _ & Hs).
  assert (Hne : stack (b w') <> []).
  { rewrite Hs. eapply last_Some_nonempty. exact Ht. }
  eexists. split; [|split; [|split]].
  - unfold DigField. run_top Ht.
    erewrite bind_returns_eq by (apply liftR_returns; exact Hd).
    rewrite bind_returns_eq with (a := reflect.TStruct name fs) (w' := w)
      by reflexivity.
    simpl. erewrite bind_returns_eq by exact Hg.
    rewrite Hres. destruct err as [e|].
    { assert (Hnone : resolve (nameTag (b w)) (reflect.TStruct name fs) k
                      = None) by (apply Herr; discriminate).
      congruence. }
    erewrite bind_returns_eq
      by (apply liftR_returns; rewrite Hh; exact Hcall).
    rewrite Hvalid. simpl.
    erewrite bind_returns_eq by (apply replace_returns; exact Hne).
    reflexivity.
  - simpl. apply last_insert_last. exact Hne.
  - simpl. rewrite removelast_insert_last, Hs. reflexivity.
  - simpl. exact Hh.
Qed.

(** X5.  [DigField] to a field of the struct itself.  Let the struct under
    the cursor be of a type the cache builder can walk and that resolves
    names by its own getters (no cache entry yet, or an entry holding the
    getters of this type).  When the name resolves to the getter of field
    [i], the cursor becomes that field of the struct under the cursor: it
    has the type of the field and its place is the field's own cell, so a
    write through the cursor is a write to the struct. *)
Theorem DigField_direct_field fuel k w name fs l i fi :
  last (stack (b w))
  = Some (reflect.Val (reflect.TStruct name fs) (reflect.Addr l) reflect.RW) ->
  walkable (reflect.TStruct name fs) = true ->
  own_getters w (reflect.TStruct name fs) ->
  resolve (nameTag (b w)) (reflect.TStruct name fs) k
  = Some (makeFieldGetterByIndex i) ->
  fs !! i = Some fi ->
  reflect.PkgPath fi = "" ->
  exists w',
    DigField fuel k w = Returns (None, w')
    /\ last (stack (b w'))
       = Some (reflect.Val (reflect.FieldType fi)
                 (reflect.Addr (reflect.loc_at l i)) reflect.RW)
    /\ removelast (stack (b w')) = removelast (stack (b w))
    /\ heap w' = heap w
    /\ (forall xs, reflect.load (heap w) l = Some (reflect.VStruct xs) ->
                   reflect.load (heap w') (reflect.loc_at l i) = xs !! i).
Proof.
  intros Ht Hw Hmiss Hres Hi Hp.
  destruct (DigField_resolved fuel k w _ name fs (reflect.Addr l) reflect.RW
              (makeFieldGetterByIndex i)
              (reflect.Val (reflect.FieldType fi)
                 (reflect.Addr (reflect.loc_at l i)) reflect.RW)
              Ht (deref_struct _ _ _ _ _ _) Hw Hmiss Hres)
    as (w' & Hrun & Hlast & Hrest & Hh).
  - simpl. rewrite Hi. destruct (decide (reflect.PkgPath fi = ""));
      [reflexivity|contradiction].
  - reflexivity.
  - exists w'. repeat (split; [assumption|]).
    intros xs Hl. rewrite Hh.
    unfold reflect.load, reflect.loc_at in *. simpl.
    destruct (heap w !! reflect.l_addr l) as [v|]; simpl in *; [|discriminate].
    rewrite get_path_app, Hl. simpl. destruct (xs !! i); reflexivity.
Qed.

(** X6.  [DigField] to a field of an embedded struct, the type of the
    struct under the cursor being walkable and resolving names by its own
    getters.  When the name resolves to the getter of the path [i; j],
    field [i] being an exported embedded struct and [j] an exported field
    of it, the cursor becomes field [j] of field [i] of the struct under
    the cursor, in place. *)
Theorem DigField_embedded_field fuel k w name fs l i fi ename efs j fj :
  last (stack (b w))
  = Some (reflect.Val (reflect.TStruct name fs) (reflect.Addr l) reflect.RW) ->
  walkable (reflect.TStruct name fs) = true ->
  own_getters w (reflect.TStruct name fs) ->
  resolve (nameTag (b w)) (reflect.TStruct name fs) k
  = Some (makeFieldGetterByIndexes [i; j]) ->
  fs !! i = Some fi ->
  reflect.PkgPath fi = "" ->
  reflect.FieldType fi = reflect.TStruct ename efs ->
  efs !! j = Some fj ->
  reflect.PkgPath fj = "" ->
  exists w',
    DigField fuel k w = Returns (None, w')
    /\ last (stack (b w'))
       = Some (reflect.Val (reflect.FieldType fj)
                 (reflect.Addr (reflect.loc_at (reflect.loc_at l i) j))
                 reflect.RW)
    /\ removelast (stack (b w')) = removelast (stack (b w))
    /\ heap w' = heap w.
Proof.
  intros Ht Hw Hmiss Hres Hi Hpi Hti Hj Hpj.
  apply (DigField_resolved fuel k w _ name fs (reflect.Addr l) reflect.RW
           (makeFieldGetterByIndexes [i; j]) _ Ht (deref_struct _ _ _ _ _ _)
           Hw Hmiss Hres);
    [|reflexivity].
  simpl. rewrite Hi. simpl.
  destruct (decide (reflect.PkgPath fi = "")); [|contradiction].
  rewrite Hti. simpl. rewrite Hj.
  destruct (decide (reflect.PkgPath fj = "")); [|contradiction].
  reflexivity.
Qed.

(** X2.  The getters of a struct type are built once: whatever the cache holds
    before, the first resolution against the type returns a map, and any
    resolution after it returns the same map and changes nothing. *)
Theorem getters_memoized s w :
  walkable s = true ->
  exists m w',
    getOrGenerateFieldGetters s w = Returns (m, w')
    /\ getOrGenerateFieldGetters s w' = Returns (m, w')
    /\ heap w' = heap w /\ stack (b w') = stack (b w).
Proof.
  intros Hw. pose proof (walkable_struct _ Hw) as Hk.
  destruct (cache_of w s) as [m|] eqn:Hc.
  - exists m, w. pose proof (getOrGenerateFieldGetters_hit s m w Hk Hc).
    repeat split; assumption.
  - destruct (getOrGenerateFieldGetters_miss s w Hw Hc)
      as (w' & Hrun & _ & Hc' & Hh & _ & Hs & _).
    exists (List.length (maps w)), w'. split; [exact Hrun|].
    split; [apply getOrGenerateFieldGetters_hit; assumption|].
    split; assumption.
Qed.

(** X7.  [DigField] follows a pointer: with a non-nil pointer to a struct
    under the cursor, of a walkable type that resolves names by its own
    getters, and a name that resolves to the getter of field [i] of the
    struct, the cursor becomes field [i] of the struct pointed to. *)
Theorem DigField_through_pointer fuel k w name fs p lp i fi :
  last (stack (b w))
  = Some (reflect.Val (reflect.TPtr (reflect.TStruct name fs)) p reflect.RW) ->
  reflect.read (heap w)
    (reflect.Val (reflect.TPtr (reflect.TStruct name fs)) p reflect.RW)
  = Returns (reflect.VPtr (Some lp)) ->
  walkable (reflect.TStruct name fs) = true ->
  own_getters w (reflect.TStruct name fs) ->
  resolve (nameTag (b w)) (reflect.TStruct name fs) k
  = Some (makeFieldGetterByIndex i) ->
  fs !! i = Some fi ->
  reflect.PkgPath fi = "" ->
  exists w',
    DigField (S fuel) k w = Returns (None, w')
    /\ last (stack (b w'))
       = Some (reflect.Val (reflect.FieldType fi)
                 (reflect.Addr (reflect.loc_at lp i)) reflect.RW)
    /\ removelast (stack (b w')) = removelast (stack (b w))
    /\ heap w' = heap w.
Proof.
  intros Ht Hread Hw Hmiss Hres Hi Hp.
  apply (DigField_resolved (S fuel) k w _ name fs (reflect.Addr lp)
           reflect.RW (makeFieldGetterByIndex i) _ Ht); try assumption.
  - simpl. rewrite Hread. simpl. apply deref_struct.
  - simpl. rewrite Hi. destruct (decide (reflect.PkgPath fi = ""));
      [reflexivity|contradiction].
  - reflexivity.
Qed.

(** X8.  [DigField] on a value that is neither a struct nor a pointer nor an
    interface: [IncorrectKind], and nothing at all has changed, the cache
    included. *)
Theorem DigField_not_struct fuel k w ty p ro :
  last (stack (b w)) = Some (reflect.Val ty p ro) ->
  reflect.Type_Kind ty <> reflect.Interface ->
  reflect.Type_Kind ty <> reflect.Ptr ->
  reflect.Type_Kind ty <> reflect.Struct ->
  DigField fuel k w
  = Returns (Some (IncorrectKindError (reflect.Type_Kind ty) reflect.Struct),
             w).
Proof.
  intros Ht Hi Hp Hs. unfold DigField. run_top Ht.
  assert (Hd : deref fuel (heap w) (reflect.Val ty p ro)
               = Returns (reflect.Val ty p ro)).
  { destruct fuel; simpl;
      (destruct (decide _) as [[E|E]|]; [contradiction|contradiction|]);
      reflexivity. }
  erewrite bind_returns_eq by (apply liftR_returns; exact Hd).
  rewrite bind_returns_eq with (a := ty) (w' := w) by reflexivity.
  rewrite (checkKind_wrong _ _ Hs). reflexivity.
Qed.

(** ** Frames stay valid; [Save] and [Load] *)

#[local] Instance moved_valid_refl : Reflexive moved_valid.
Proof. intros w. split; [reflexivity|left; reflexivity]. Qed.

#[local] Instance moved_valid_trans : Transitive moved_valid.
Proof.
  intros w1 w2 w3 [R1 [S1|(x & Vx & S1)]] [R2 [S2|(y & Vy & S2)]];
    (split; [congruence|]).
  - left. congruence.
  - right. exists y. split; [exact Vy|]. rewrite S2, S1. reflexivity.
  - right. exists x. split; [exact Vx|]. congruence.
  - right. exists y. split; [exact Vy|].
    rewrite S2, S1, length_insert, list_insert_insert_eq. reflexivity.
Qed.

Lemma same_cursor_moved_valid w w' : same_cursor w w' -> moved_valid w w'.
Proof. intros [H1 H2]. split; [exact H1|left; exact H2]. Qed.

Lemma keeps_replace_valid v :
  reflect.Value_IsValid v = true -> keeps moved_valid (replace v).
Proof.
  intros Hv w a w' H. unfold replace in H.
  apply bind_returns in H as (bb & w1 & H1 & H2). inversion H1; subst.
  destruct (stack (b w1)) eqn:E; [discriminate|].
  apply keeps_set_stack_length in H2 as [Hr Hs].
  split; [exact Hr|]. right. exists v. split; [exact Hv|].
  rewrite Hs, E. reflexivity.
Qed.

(** A bind whose first statement tells something about its result. *)
Lemma keeps_bind_post (R : World -> World -> Prop) `{!Transitive R}
    {A B : Type} (Q : A -> Prop) (m : M A) (f : A -> M B) :
  (forall w a w', m w = Returns (a, w') -> Q a) ->
  keeps R m -> (forall a, Q a -> keeps R (f a)) -> keeps R (m ≫= f).
Proof.
  intros HQ Hm Hf w r w'' H. apply bind_returns in H as (a & w' & H1 & H2).
  transitivity w'; [eapply Hm; eassumption|].
  eapply Hf; [eapply HQ|]; eassumption.
Qed.

Lemma Value_Index_valid h v i x :
  reflect.Value_Index h v i = Returns x -> reflect.Value_IsValid x = true.
Proof.
  destruct v as [|ty p ro]; [discriminate|].
  destruct ty as [k|n e| |e|e|name fs]; try discriminate; simpl.
  - destruct (decide (i < n)) as [Hlt|]; [|discriminate].
    destruct p as [l|y]; [intros H; inversion H; reflexivity|].
    destruct y as [| | | | | |xs| | |]; try discriminate.
    destruct (xs !! i); simpl; [|discriminate].
    intros H. inversion H. reflexivity.
  - destruct (reflect.read h _) as [y| |]; simpl; try discriminate.
    destruct y as [| | | | |data len cap| | | |]; try discriminate.
    destruct (decide (i < len)) as [Hlt|]; [|discriminate].
    destruct data as [[arr off]|]; [|discriminate].
    intros H. inversion H. reflexivity.
Qed.

Lemma liftR_Index_valid c i w x w' :
  liftR (fun h => reflect.Value_Index h c i) w = Returns (x, w') ->
  reflect.Value_IsValid x = true.
Proof.
  unfold liftR. destruct (reflect.Value_Index (heap w) c i) eqn:E;
    simpl; try discriminate.
  intros H. inversion H; subst. eapply Value_Index_valid. exact E.
Qed.

Ltac moved_step :=
  first
    [ apply keeps_ret; typeclasses eauto
    | apply keeps_panic
    | match goal with
      | |- keeps _ (replace ?x) =>
          apply keeps_replace_valid;
          first [assumption | apply negb_false_iff; assumption]
      end
    | solve [apply (keeps_weaken same_cursor);
             [exact same_cursor_moved_valid | keeps_auto]]
    | match goal with
      | |- keeps _ (liftR (fun h => reflect.Value_Index h ?c ?i) ≫= _) =>
          apply (keeps_bind_post moved_valid
                   (fun x => reflect.Value_IsValid x = true));
          [ apply liftR_Index_valid
          | apply (keeps_weaken same_cursor);
              [exact same_cursor_moved_valid | keeps_auto]
          | let x := fresh "x" in let Hx := fresh "Hx" in
            intros x Hx ]
      end
    | apply keeps_bind; [typeclasses eauto | | intros ?]
    | match goal with
      | |- keeps _ (if ?c then _ else _) => destruct c eqn:?
      | |- keeps _ (match ?x with _ => _ end) => destruct x
      end ].

Ltac moved_auto := repeat moved_step.

Section Valid.
Variable growcap : nat -> nat -> nat.
Variable float32_of : Z -> Z.
Variable fmt_s : store -> reflect.Value -> string.

Lemma DigField_moved fuel s : keeps moved_valid (DigField fuel s).
Proof.
  unfold DigField. moved_auto.
Qed.

Lemma Last_moved : keeps moved_valid Last.
Proof. unfold Last, Cursor. moved_auto. Qed.

Lemma SliceNewElem_moved : keeps moved_valid (SliceNewElem growcap).
Proof. unfold SliceNewElem. moved_auto. Qed.

Lemma SliceLastOrCreate_moved : keeps moved_valid (SliceLastOrCreate growcap).
Proof.
  unfold SliceLastOrCreate. moved_auto;
    auto using SliceNewElem_moved, Last_moved.
Qed.

Lemma SliceAppend_moved v : keeps moved_valid (SliceAppend growcap fmt_s v).
Proof.
  unfold SliceAppend.
  apply keeps_bind; [typeclasses eauto| |intros _].
  - apply (keeps_weaken same_cursor);
      [exact same_cursor_moved_valid | apply keeps_assertPtr].
  - moved_auto.
Qed.

Lemma Forall_insert_last {A : Type} (P : A -> Prop) (l : list A) x :
  Forall P l -> P x -> Forall P (<[List.length l - 1 := x]> l).
Proof. intros Hl Hx. apply Forall_insert; assumption. Qed.

Lemma moved_valid_frames w w' :
  moved_valid w w' -> frames_valid w -> frames_valid w'.
Proof.
  unfold frames_valid. intros [_ [->|(x & Hx & ->)]] H; [exact H|].
  apply Forall_insert_last; assumption.
Qed.

Lemma call_frames_valid fuel o w r w' :
  call growcap float32_of fmt_s fuel o w = Returns (r, w') ->
  reflect.Value_IsValid (root (b w)) = true ->
  frames_valid w -> frames_valid w'.
Proof.
  intros H Hroot Hv.
  assert (Hmove : moved_valid w w' -> frames_valid w')
    by (intros Hm; eapply moved_valid_frames; eassumption).
  pose proof (call_frame _ _ _ _ _ _ _ _ H) as [_ Hf].
  destruct o; simpl in H, Hf.
  - apply Hmove. eapply DigField_moved; exact H.
  - destruct Hf as (v & Hlast & Hs). unfold frames_valid in *. rewrite Hs.
    apply Forall_app. split; [exact Hv|]. constructor; [|constructor].
    rewrite Forall_forall in Hv. apply Hv.
    apply last_Some_elem_of. exact Hlast.
  - unfold frames_valid. rewrite Hf. constructor; [exact Hroot|constructor].
  - destruct Hf as [_ Hs]. unfold frames_valid in *. rewrite Hs.
    destruct (stack (b w)) as [|x l _] using rev_ind; [exact Hv|].
    rewrite removelast_last. apply Forall_app in Hv as [Hv _]. exact Hv.
  - apply noerr_returns in H as [a H]. apply Hmove. eapply Last_moved; exact H.
  - apply Hmove. eapply SliceLastOrCreate_moved; exact H.
  - apply Hmove. eapply SliceNewElem_moved; exact H.
  - apply Hmove. eapply SliceAppend_moved; exact H.
  - unfold frames_valid. rewrite Hf. exact Hv.
  - unfold frames_valid. rewrite Hf. exact Hv.
  - unfold frames_valid. rewrite Hf. exact Hv.
  - unfold frames_valid. rewrite Hf. exact Hv.
  - unfold frames_valid. rewrite Hf. exact Hv.
Qed.

Lemma reachable_frames_valid b0 w :
  reflect.Value_IsValid (root b0) = true ->
  stack b0 = [root b0] ->
  reachable growcap float32_of fmt_s b0 w ->
  stack (b w) <> [] /\ frames_valid w /\ root (b w) = root b0.
Proof.
  intros Hroot Hstack Hr.
  induction Hr as [h0 ms|w fuel o r w' _ IH Hc|w h' _ IH].
  - unfold frames_valid. simpl. rewrite Hstack.
    split; [discriminate|]. split; [|reflexivity].
    constructor; [exact Hroot|constructor].
  - destruct IH as (Hne & Hv & Hr0).
    pose proof (call_root_nonempty _ _ _ _ _ _ _ _ Hc Hne) as [Hr' Hne'].
    split; [exact Hne'|]. split; [|congruence].
    eapply call_frames_valid; [exact Hc| |exact Hv].
    rewrite Hr0. exact Hroot.
  - exact IH.
Qed.

(** X9.  The cursor stack of a Builder made from a non-nil pointer never
    becomes empty and never holds the zero Value, and its root stays the
    one [NewBuilder] stored, whatever calls returned in between. *)
Theorem frames_stay_valid h tag t l b0 w :
  NewBuilder h tag (Some (reflect.TPtr t, reflect.VPtr (Some l)))
  = Returns (b0, None) ->
  reachable growcap float32_of fmt_s b0 w ->
  stack (b w) <> []
  /\ frames_valid w
  /\ root (b w) = reflect.Val t (reflect.Addr l) reflect.RW.
Proof.
  intros Hn Hr. apply NewBuilder_returns in Hn as (t' & p' & E & ->).
  inversion E; subst t' p'.
  eapply reachable_frames_valid in Hr as (Hne & Hv & Hroot);
    [|reflexivity|reflexivity].
  split; [exact Hne|]. split; [exact Hv|]. rewrite Hroot. reflexivity.
Qed.

Lemma Dump_valid w :
  frames_valid w -> exists s, Dump fmt_s w = Returns (s, w).
Proof.
  unfold frames_valid, Dump. intros Hv.
  assert (Hf : forall i, exists s,
             (fix frames (i : nat) (xs : list reflect.Value)
                : outcome string :=
                match xs with
                | [] => Returns ""
                | x :: xs' =>
                    t ← reflect.Value_Type x;
                    rest ← frames (S i) xs';
                    Returns ((if decide (0 < i) then " | " else "")
                             +:+ reflect.Type_String t +:+ " ("
                             +:+ fmt_s (heap w) x +:+ ")" +:+ rest)
                end) i (stack (b w)) = Returns s).
  { induction Hv as [|x xs Hx _ IH]; intros i; [eauto|].
    destruct x as [|ty p ro]; [discriminate|]. simpl.
    destruct (IH (S i)) as [s ->]. simpl. eauto. }
  destruct (Hf 0) as [s ->]. simpl. eauto.
Qed.

Lemma Dump_zero w :
  ~ frames_valid w ->
  Dump fmt_s w = Panics "reflect: call of reflect.Value.Type on zero Value".
Proof.
  unfold frames_valid, Dump. intros Hv.
  assert (Hf : forall i,
             (fix frames (i : nat) (xs : list reflect.Value)
                : outcome string :=
                match xs with
                | [] => Returns ""
                | x :: xs' =>
                    t ← reflect.Value_Type x;
                    rest ← frames (S i) xs';
                    Returns ((if decide (0 < i) then " | " else "")
                             +:+ reflect.Type_String t +:+ " ("
                             +:+ fmt_s (heap w) x +:+ ")" +:+ rest)
                end) i (stack (b w))
             = Panics "reflect: call of reflect.Value.Type on zero Value").
  { induction (stack (b w)) as [|x xs IH]; intros i.
    - exfalso. apply Hv. constructor.
    - destruct x as [|ty p ro]; [reflexivity|]. simpl.
      rewrite IH; [reflexivity|].
      intros Hxs. apply Hv. constructor; [reflexivity|exact Hxs]. }
  rewrite Hf. reflexivity.
Qed.

Lemma Save_pushes w t :
  last (stack (b w)) = Some t ->
  frames_valid w ->
  Save fmt_s w
  = Returns (tt, mkWorld (heap w) (maps w)
                   (mkBuilder (root (b w)) (stack (b w) ++ [t])
                      (nameTag (b w)) (fieldGettersCache (b w)))).
Proof.
  intros Ht Hv.
  set (w1 := mkWorld (heap w) (maps w)
               (mkBuilder (root (b w)) (stack (b w) ++ [t]) (nameTag (b w))
                  (fieldGettersCache (b w)))).
  assert (Hv1 : frames_valid w1).
  { unfold frames_valid, w1. simpl. apply Forall_app. split; [exact Hv|].
    constructor; [|constructor]. unfold frames_valid in Hv.
    rewrite Forall_forall in Hv. apply Hv. apply last_Some_elem_of. exact Ht. }
  destruct (Dump_valid w1 Hv1) as [s Hs].
  unfold Save, push. run_top Ht.
  erewrite bind_returns_eq by reflexivity.
  rewrite bind_returns_eq with (a := tt) (w' := w1) by reflexivity.
  erewrite bind_returns_eq by exact Hs. reflexivity.
Qed.

(** X10.  [Save] then [Load] is the identity: on a stack of valid frames
    [Save] returns with a copy of the cursor on top, and [Load] then gives
    back the very state [Save] started from. *)
Theorem Save_Load_roundtrip w t :
  last (stack (b w)) = Some t ->
  frames_valid w ->
  exists w1,
    Save fmt_s w = Returns (tt, w1)
    /\ stack (b w1) = stack (b w) ++ [t]
    /\ heap w1 = heap w
    /\ Load w1 = Returns (tt, w).
Proof.
  intros Ht Hv.
  set (w1 := mkWorld (heap w) (maps w)
               (mkBuilder (root (b w)) (stack (b w) ++ [t]) (nameTag (b w))
                  (fieldGettersCache (b w)))).
  exists w1. split; [exact (Save_pushes w t Ht Hv)|].
  split; [reflexivity|split; [reflexivity|]].
  unfold Load, len, pop.
  erewrite bind_returns_eq
    by (erewrite bind_returns_eq by reflexivity; reflexivity).
  unfold w1 at 1. simpl. rewrite length_app. simpl.
  destruct (decide (List.length (stack (b w)) + 1 < 2)) as [Hlt|_].
  { apply last_Some_nonempty in Ht.
    destruct (stack (b w)); [congruence|simpl in Hlt; lia]. }
  erewrite bind_returns_eq by reflexivity.
  unfold w1. simpl.
  destruct (stack (b w) ++ [t]) eqn:E.
  { apply app_eq_nil in E as [_ E]. discriminate. }
  rewrite <- E. unfold set_stack. simpl. rewrite removelast_last.
  destruct w as [hw mw [rw sw tw cw]]. reflexivity.
Qed.

(** X11.  [Save] panics when a frame is the zero Value, as after [NewBuilder] on
    a typed nil pointer: [push] calls [Dump], which asks each frame for its
    type. *)
Theorem Save_panics_on_zero_frame w t :
  last (stack (b w)) = Some t ->
  ~ frames_valid w ->
  Save fmt_s w = Panics "reflect: call of reflect.Value.Type on zero Value".
Proof.
  intros Ht Hv. unfold Save, push. run_top Ht.
  erewrite bind_returns_eq by reflexivity.
  erewrite bind_returns_eq by reflexivity.
  apply bind_panics. apply Dump_zero.
  unfold frames_valid. simpl. intros H. apply Hv.
  apply Forall_app in H as [H _]. exact H.
Qed.

(** X13.  [Load] panics exactly when fewer than two frames are on the stack;
    otherwise it drops the cursor frame and touches nothing else. *)
Theorem Load_spec w :
  (List.length (stack (b w)) < 2 ->
   Load w = Panics "tried to Back() when cursor was already at root")
  /\ (2 <= List.length (stack (b w)) ->
      exists w', Load w = Returns (tt, w')
                 /\ stack (b w') = removelast (stack (b w))
                 /\ head (stack (b w')) = head (stack (b w))
                 /\ root (b w') = root (b w)
                 /\ heap w' = heap w).
Proof.
  unfold Load, len, pop. split; intros Hl.
  - erewrite bind_returns_eq
      by (erewrite bind_returns_eq by reflexivity; reflexivity).
    destruct (decide (List.length (stack (b w)) < 2)); [reflexivity|lia].
  - exists (mkWorld (heap w) (maps w)
              (mkBuilder (root (b w)) (removelast (stack (b w)))
                 (nameTag (b w)) (fieldGettersCache (b w)))).
    split; [|split; [|split; [|split]]].
    + erewrite bind_returns_eq
        by (erewrite bind_returns_eq by reflexivity; reflexivity).
      destruct (decide (List.length (stack (b w)) < 2)); [lia|].
      erewrite bind_returns_eq by reflexivity.
      destruct (stack (b w)) eqn:E; [simpl in Hl; lia|]. reflexivity.
    + reflexivity.
    + simpl. apply head_removelast. exact Hl.
    + reflexivity.
    + reflexivity.
Qed.

End Valid.

(** ** [SliceAppend] *)

Section Append.
Variable growcap : nat -> nat -> nat.
Variable fmt_s : store -> reflect.Value -> string.

Lemma assertPtr_ok v w :
  reflect.Value_Kind v = reflect.Ptr -> assertPtr fmt_s v w = Returns (tt, w).
Proof.
  intros Hk. unfold assertPtr. rewrite Hk.
  destruct (decide (reflect.Ptr ≠ reflect.Ptr)); [contradiction|reflexivity].
Qed.

(** The last statements of [SliceAppend] and [SliceNewElem]: append [va]
    to the slice [t'], store the new header, move the cursor to the new
    element. *)
Lemma append_tail w e l data n cap pv y :
  stack (b w) <> [] ->
  reflect.load (heap w) l = Some (reflect.VSlice data n cap) ->
  slice_ok (heap w) data n cap ->
  (forall c, n + 1 <= cap -> next_cell data n = Some c -> disjoint c l) ->
  reflect.read (heap w) (reflect.Val e pv reflect.RW) = Returns y ->
  exists w' x,
    (newSlice ← liftA (fun h =>
                 reflect.Append growcap h
                   (reflect.Val (reflect.TSlice e) (reflect.Addr l) reflect.RW)
                   (reflect.Val e pv reflect.RW));
     _ ← liftW (fun h =>
           reflect.Value_Set h
             (reflect.Val (reflect.TSlice e) (reflect.Addr l) reflect.RW)
             newSlice);
     k ← liftR (fun h =>
           reflect.Value_Len h
             (reflect.Val (reflect.TSlice e) (reflect.Addr l) reflect.RW));
     xk ← liftR (fun h =>
            reflect.Value_Index h
              (reflect.Val (reflect.TSlice e) (reflect.Addr l) reflect.RW)
              (k - 1));
     _ ← replace xk;
     mret (None : option error)) w = Returns (None, w')
    /\ reflect.Value_Len (heap w')
         (reflect.Val (reflect.TSlice e) (reflect.Addr l) reflect.RW)
       = Returns (n + 1)
    /\ reflect.Value_Index (heap w')
         (reflect.Val (reflect.TSlice e) (reflect.Addr l) reflect.RW) n
       = Returns x
    /\ last (stack (b w')) = Some x
    /\ reflect.read (heap w') x = Returns y
    /\ removelast (stack (b w')) = removelast (stack (b w))
    /\ (forall l', is_Some (reflect.load (heap w) l') ->
           reflect.l_addr l' <> reflect.l_addr l ->
           (forall arr off, data = Some (arr, off) ->
                            reflect.l_addr l' <> reflect.l_addr arr) ->
           reflect.load (heap w') l' = reflect.load (heap w) l').
Proof.
  intros Hne Hl Hok Hsep Hy.
  destruct (Append_spec growcap (heap w) l e data n cap _ _ Hl Hok Hy)
    as (arr & off & cap' & h2 & Happ & Hnew & Hwhere & Hframe).
  set (c := reflect.loc_at arr (off + n)) in *.
  assert (Hdis : disjoint c l).
  { destruct Hwhere as [[Hfit ->]|Hfresh].
    - apply Hsep; [exact Hfit|reflexivity].
    - apply disjoint_addr. unfold c. simpl. rewrite Hfresh.
      apply load_lt in Hl. lia. }
  assert (Hl2 : reflect.load h2 l = Some (reflect.VSlice data n cap)).
  { rewrite Hframe; [exact Hl|eauto|exact Hdis]. }
  destruct (write_is_Some h2 l
              (reflect.VSlice (Some (arr, off)) (n + 1) cap')
              (ex_intro _ _ Hl2)) as [h3 Hw].
  assert (Hl3 : reflect.load h3 l
                = Some (reflect.VSlice (Some (arr, off)) (n + 1) cap'))
    by (eapply load_write_same; exact Hw).
  eexists. exists (reflect.Val e (reflect.Addr c) reflect.RW).
  split; [|split; [|split; [|split; [|split; [|split]]]]].
  - erewrite bind_returns_eq by (apply liftA_returns; exact Happ).
    erewrite bind_returns_eq.
    2:{ apply liftW_returns. simpl.
        apply Value_Set_returns
          with (y := reflect.VSlice (Some (arr, off)) (n + 1) cap');
          [reflexivity|exact Hw]. }
    erewrite bind_returns_eq.
    2:{ apply liftR_returns. simpl. unfold reflect.Value_Len.
        rewrite read_addr, Hl3. reflexivity. }
    erewrite bind_returns_eq.
    2:{ apply liftR_returns. simpl. unfold reflect.Value_Index.
        rewrite read_addr, Hl3. simpl.
        destruct (decide (n + 1 - 1 < n + 1)); [|lia].
        replace (n + 1 - 1) with n by lia. reflexivity. }
    erewrite bind_returns_eq by (apply replace_returns; exact Hne).
    reflexivity.
  - simpl. unfold reflect.Value_Len. rewrite read_addr, Hl3. reflexivity.
  - simpl. unfold reflect.Value_Index. rewrite read_addr, Hl3. simpl.
    destruct (decide (n < n + 1)); [|lia]. reflexivity.
  - simpl. apply last_insert_last. exact Hne.
  - simpl. rewrite read_addr.
    erewrite load_write_disjoint; [|exact Hw|apply disjoint_sym; exact Hdis].
    fold c. rewrite Hnew. reflexivity.
  - simpl. apply removelast_insert_last.
  - intros l' Hsome Hl' Harr. simpl.
    erewrite load_write_disjoint;
      [|exact Hw|apply disjoint_addr; congruence].
    apply Hframe; [exact Hsome|]. apply disjoint_addr. unfold c. simpl.
    destruct Hwhere as [[_ ->]|Hfresh].
    + intros E. eapply Harr; [reflexivity|]. congruence.
    + rewrite Hfresh. destruct Hsome as [z Hz]. apply load_lt in Hz. lia.
Qed.


(** X15.  [SliceAppend(v)] on a settable slice of pointers: the pointer [v]
    itself becomes the new last element, so the element and [v] point to
    the same cell. *)
Theorem SliceAppend_pointer w e0 l data n cap pv p :
  last (stack (b w))
  = Some (reflect.Val (reflect.TSlice (reflect.TPtr e0)) (reflect.Addr l)
            reflect.RW) ->
  reflect.load (heap w) l = Some (reflect.VSlice data n cap) ->
  slice_ok (heap w) data n cap ->
  (forall c, n + 1 <= cap -> next_cell data n = Some c -> disjoint c l) ->
  reflect.read (heap w) (reflect.Val (reflect.TPtr e0) pv reflect.RW)
  = Returns (reflect.VPtr p) ->
  exists w' x,
    SliceAppend growcap fmt_s (reflect.Val (reflect.TPtr e0) pv reflect.RW) w
    = Returns (None, w')
    /\ reflect.Value_Len (heap w')
         (reflect.Val (reflect.TSlice (reflect.TPtr e0)) (reflect.Addr l)
            reflect.RW)
       = Returns (n + 1)
    /\ reflect.Value_Index (heap w')
         (reflect.Val (reflect.TSlice (reflect.TPtr e0)) (reflect.Addr l)
            reflect.RW) n
       = Returns x
    /\ last (stack (b w')) = Some x
    /\ reflect.read (heap w') x = Returns (reflect.VPtr p)
    /\ removelast (stack (b w')) = removelast (stack (b w)).
Proof.
  intros Ht Hl Hok Hsep Hv.
  assert (Hne : stack (b w) <> []) by (eapply last_Some_nonempty; exact Ht).
  destruct (append_tail w (reflect.TPtr e0) l data n cap _ _
              Hne Hl Hok Hsep Hv)
    as (w' & x & Hrun & H1 & H2 & H3 & H4 & H5 & _).
  exists w', x. split; [|repeat split; assumption].
  unfold SliceAppend.
  erewrite bind_returns_eq by (apply assertPtr_ok; reflexivity).
  run_top Ht. simpl.
  rewrite bind_returns_eq
    with (a := reflect.Val (reflect.TSlice (reflect.TPtr e0))
                 (reflect.Addr l) reflect.RW)
         (w' := w) by reflexivity.
  rewrite bind_returns_eq
    with (a := reflect.TSlice (reflect.TPtr e0)) (w' := w) by reflexivity.
  simpl.
  rewrite bind_returns_eq with (a := reflect.TPtr e0) (w' := w)
    by reflexivity.
  simpl.
  rewrite bind_returns_eq
    with (a := reflect.Val (reflect.TPtr e0) pv reflect.RW) (w' := w)
    by reflexivity.
  exact Hrun.
Qed.


(** The first statements of [SliceAppend] on a nil pointer: a zero value is
    allocated, the pointer is set to it, and the value pointed to becomes
    the target. *)
Lemma SliceAppend_allocates w e lp :
  reflect.load (heap w) lp = Some (reflect.VPtr None) ->
  exists h2,
    reflect.write (heap w ++ [reflect.zero e]) lp
      (reflect.VPtr (Some (reflect.Loc (List.length (heap w)) [])))
    = Some h2
    /\ (isnil ← liftR (fun h =>
                 reflect.Value_IsNil h
                   (reflect.Val (reflect.TPtr e) (reflect.Addr lp) reflect.RW));
        _ ← (if (isnil : bool) then
               rt ← pure_outcome
                      (reflect.Value_Type
                         (reflect.Val (reflect.TPtr e) (reflect.Addr lp)
                            reflect.RW));
               et ← pure_outcome (reflect.Type_Elem rt);
               x ← liftA (fun h => Returns (reflect.New h et));
               liftW (fun h =>
                        reflect.Value_Set h
                          (reflect.Val (reflect.TPtr e) (reflect.Addr lp)
                             reflect.RW) x)
             else mret tt);
        liftR (fun h =>
                 reflect.Value_Elem h
                   (reflect.Val (reflect.TPtr e) (reflect.Addr lp) reflect.RW)))
         w
       = Returns (reflect.Val e
                    (reflect.Addr (reflect.Loc (List.length (heap w)) []))
                    reflect.RW,
                  mkWorld h2 (maps w) (b w))
    /\ reflect.load h2 lp
       = Some (reflect.VPtr (Some (reflect.Loc (List.length (heap w)) [])))
    /\ reflect.load h2 (reflect.Loc (List.length (heap w)) [])
       = Some (reflect.zero e)
    /\ (forall l', is_Some (reflect.load (heap w) l') -> disjoint lp l' ->
                   reflect.load h2 l' = reflect.load (heap w) l').
Proof.
  intros Hnil.
  set (z := reflect.Loc (List.length (heap w)) []).
  set (h1 := heap w ++ [reflect.zero e]).
  assert (Hl1 : reflect.load h1 lp = Some (reflect.VPtr None))
    by (apply load_alloc_old; exact Hnil).
  destruct (write_is_Some h1 lp (reflect.VPtr (Some z)) (ex_intro _ _ Hl1))
    as [h2 Hw].
  assert (Hl2 : reflect.load h2 lp = Some (reflect.VPtr (Some z)))
    by (eapply load_write_same; exact Hw).
  exists h2. split; [exact Hw|]. split; [|split; [exact Hl2|split]].
  - erewrite bind_returns_eq.
    2:{ apply liftR_returns. unfold reflect.Value_IsNil. simpl.
        rewrite read_addr, Hnil. reflexivity. }
    simpl.
    erewrite bind_returns_eq.
    2:{ rewrite bind_returns_eq
          with (a := reflect.TPtr e) (w' := w) by reflexivity.
        rewrite bind_returns_eq with (a := e) (w' := w) by reflexivity.
        erewrite bind_returns_eq by (apply liftA_returns; reflexivity).
        apply liftW_returns. simpl.
        apply Value_Set_returns with (y := reflect.VPtr (Some z));
          [reflexivity|exact Hw]. }
    apply liftR_returns. simpl. rewrite read_addr, Hl2. reflexivity.
  - erewrite load_write_disjoint; [apply load_alloc_new|exact Hw|].
    apply disjoint_addr. simpl. apply load_lt in Hnil. lia.
  - intros l' [y Hy] Hdis.
    erewrite load_write_disjoint; [|exact Hw|exact Hdis].
    rewrite Hy. apply load_alloc_old. exact Hy.
Qed.

(** X17.  [SliceAppend] writes before it fails: on a settable nil pointer to
    anything but a slice it returns [IncorrectKind], yet the pointer has
    been set to a fresh zero value by then.  The cursor stack is as
    before. *)
Theorem SliceAppend_allocates_before_failing w e lp v :
  last (stack (b w))
  = Some (reflect.Val (reflect.TPtr e) (reflect.Addr lp) reflect.RW) ->
  reflect.load (heap w) lp = Some (reflect.VPtr None) ->
  reflect.Type_Kind e <> reflect.Slice ->
  reflect.Value_Kind v = reflect.Ptr ->
  exists w',
    SliceAppend growcap fmt_s v w
    = Returns (Some (IncorrectKindError (reflect.Type_Kind e) reflect.Slice),
               w')
    /\ stack (b w') = stack (b w)
    /\ reflect.load (heap w) (reflect.Loc (List.length (heap w)) []) = None
    /\ reflect.load (heap w') lp
       = Some (reflect.VPtr (Some (reflect.Loc (List.length (heap w)) [])))
    /\ reflect.load (heap w') (reflect.Loc (List.length (heap w)) [])
       = Some (reflect.zero e).
Proof.
  intros Ht Hnil Hk Hv.
  destruct (SliceAppend_allocates w e lp Hnil)
    as (h2 & _ & Hrun & Hl2 & Hz & _).
  exists (mkWorld h2 (maps w) (b w)).
  split; [|split; [reflexivity|split; [apply load_fresh_None|split]]];
    [|exact Hl2|exact Hz].
  unfold SliceAppend.
  erewrite bind_returns_eq by (apply assertPtr_ok; exact Hv).
  run_top Ht. simpl.
  erewrite bind_returns_eq by exact Hrun.
  rewrite bind_returns_eq
    with (a := e) (w' := mkWorld h2 (maps w) (b w)) by reflexivity.
  rewrite (checkKind_wrong _ _ Hk). reflexivity.
Qed.


End Append.

(** ** The other setters, the queries, [Last] *)

Lemma rtype_eqb_eq (a : reflect.rtype) :
  forall c, reflect.rtype_eqb a c = true -> a = c.
Proof.
  induction a as [k|n e IH| |e IH|e IH|name fs IH] using rtype_nested_ind;
    intros c H; destruct c as [k'|n' e'| |e'|e'|name' fs'];
    simpl in H; try discriminate.
  - apply bool_decide_eq_true in H. congruence.
  - apply andb_true_iff in H as [H1 H2].
    apply bool_decide_eq_true in H1. rewrite (IH _ H2). congruence.
  - reflexivity.
  - rewrite (IH _ H). reflexivity.
  - rewrite (IH _ H). reflexivity.
  - apply andb_true_iff in H as [H1 H2].
    apply bool_decide_eq_true in H1. subst name'. f_equal.
    revert fs' H2. induction IH as [|f fs Hf _ IHfs]; intros [|g gs] H2;
      try discriminate; [reflexivity|].
    repeat (apply andb_true_iff in H2 as [H2 ?]).
    repeat match goal with
           | H : bool_decide _ = true |- _ => apply bool_decide_eq_true in H
           end.
    unfold reflect.tag_eqb in *.
    repeat match goal with
           | H : bool_decide _ = true |- _ => apply bool_decide_eq_true in H
           end.
    f_equal; [|apply IHfs; assumption].
    destruct f, g; simpl in *. f_equal; auto.
Qed.

Lemma rtype_eqb_neq a c : a <> c -> reflect.rtype_eqb a c = false.
Proof.
  intros Hne. destruct (reflect.rtype_eqb a c) eqn:E; [|reflexivity].
  exfalso. apply Hne. apply rtype_eqb_eq. exact E.
Qed.

Lemma Kind_Bool_inv ty :
  reflect.Type_Kind ty = reflect.Bool -> ty = reflect.TBasic reflect.BBool.
Proof.
  destruct ty as [k| | | | |]; simpl; try discriminate.
  destruct k; simpl; try discriminate. reflexivity.
Qed.

(** X18.  [SetBool]: on a settable cursor of kind bool it stores the value; on
    a cursor of any other kind it returns [IncorrectKind] and changes
    nothing. *)
Theorem SetBool_spec v w t :
  last (stack (b w)) = Some t ->
  (forall ty l old,
      t = reflect.Val ty (reflect.Addr l) reflect.RW ->
      reflect.Type_Kind ty = reflect.Bool ->
      reflect.load (heap w) l = Some old ->
      exists w',
        SetBool v w = Returns (None, w')
        /\ reflect.load (heap w') l = Some (reflect.VBool v)
        /\ stack (b w') = stack (b w))
  /\ (forall ty p ro,
      t = reflect.Val ty p ro ->
      reflect.Type_Kind ty <> reflect.Bool ->
      SetBool v w
      = Returns (Some (IncorrectKindError (reflect.Type_Kind ty)
                         reflect.Bool), w)).
Proof.
  intros Ht. split.
  - intros ty l old -> Hk Hl.
    destruct (write_is_Some (heap w) l (reflect.VBool v) (ex_intro _ old Hl))
      as [h' Hw].
    exists (mkWorld h' (maps w) (b w)). split; [|split].
    + unfold SetBool. run_top Ht.
      rewrite bind_returns_eq with (a := ty) (w' := w) by reflexivity.
      rewrite (checkKind_ok _ _ Hk).
      erewrite bind_returns_eq.
      2:{ apply liftW_returns. unfold reflect.Value_SetBool. simpl.
          unfold reflect.mustBe. simpl. rewrite Hk. simpl.
          rewrite Hw. reflexivity. }
      reflexivity.
    + simpl. eapply load_write_same. exact Hw.
    + reflexivity.
  - intros ty p ro -> Hk. unfold SetBool. run_top Ht.
    rewrite bind_returns_eq with (a := ty) (w' := w) by reflexivity.
    rewrite (checkKind_wrong _ _ Hk). reflexivity.
Qed.

Section Float.
Variable float32_of : Z -> Z.

Lemma checkKindFloat_other ty :
  reflect.Type_Kind ty <> reflect.Float32 ->
  reflect.Type_Kind ty <> reflect.Float64 ->
  checkKindFloat ty
  = Some (IncorrectKindError (reflect.Type_Kind ty) reflect.Float64).
Proof.
  unfold checkKindFloat. destruct (reflect.Type_Kind ty); congruence.
Qed.

(** X19.  [SetFloat]: on a settable float64 cursor it stores the value, on a
    settable float32 cursor the value converted to float32; on a cursor of
    any other kind it returns [IncorrectKind], expecting float64, and
    changes nothing. *)
Theorem SetFloat_spec n w t :
  last (stack (b w)) = Some t ->
  (forall ty l old,
      t = reflect.Val ty (reflect.Addr l) reflect.RW ->
      reflect.Type_Kind ty = reflect.Float64 ->
      reflect.load (heap w) l = Some old ->
      exists w',
        SetFloat float32_of n w = Returns (None, w')
        /\ reflect.load (heap w') l = Some (reflect.VFloat n)
        /\ stack (b w') = stack (b w))
  /\ (forall ty l old,
      t = reflect.Val ty (reflect.Addr l) reflect.RW ->
      reflect.Type_Kind ty = reflect.Float32 ->
      reflect.load (heap w) l = Some old ->
      exists w',
        SetFloat float32_of n w = Returns (None, w')
        /\ reflect.load (heap w') l = Some (reflect.VFloat (float32_of n))
        /\ stack (b w') = stack (b w))
  /\ (forall ty p ro,
      t = reflect.Val ty p ro ->
      reflect.Type_Kind ty <> reflect.Float32 ->
      reflect.Type_Kind ty <> reflect.Float64 ->
      SetFloat float32_of n w
      = Returns (Some (IncorrectKindError (reflect.Type_Kind ty)
                         reflect.Float64), w)).
Proof.
  intros Ht. split; [|split].
  - intros ty l old -> Hk Hl.
    destruct (write_is_Some (heap w) l (reflect.VFloat n) (ex_intro _ old Hl))
      as [h' Hw].
    exists (mkWorld h' (maps w) (b w)). split; [|split].
    + unfold SetFloat. run_top Ht.
      rewrite bind_returns_eq with (a := ty) (w' := w) by reflexivity.
      unfold checkKindFloat. rewrite Hk.
      erewrite bind_returns_eq.
      2:{ apply liftW_returns. unfold reflect.Value_SetFloat. simpl.
          rewrite Hk, Hw. reflexivity. }
      reflexivity.
    + simpl. eapply load_write_same. exact Hw.
    + reflexivity.
  - intros ty l old -> Hk Hl.
    destruct (write_is_Some (heap w) l (reflect.VFloat (float32_of n))
                (ex_intro _ old Hl)) as [h' Hw].
    exists (mkWorld h' (maps w) (b w)). split; [|split].
    + unfold SetFloat. run_top Ht.
      rewrite bind_returns_eq with (a := ty) (w' := w) by reflexivity.
      unfold checkKindFloat. rewrite Hk.
      erewrite bind_returns_eq.
      2:{ apply liftW_returns. unfold reflect.Value_SetFloat. simpl.
          rewrite Hk, Hw. reflexivity. }
      reflexivity.
    + simpl. eapply load_write_same. exact Hw.
    + reflexivity.
  - intros ty p ro -> H32 H64. unfold SetFloat. run_top Ht.
    rewrite bind_returns_eq with (a := ty) (w' := w) by reflexivity.
    rewrite (checkKindFloat_other _ H32 H64). reflexivity.
Qed.

End Float.

(** X20.  [Set]: no kind check.  On a settable cursor it stores a value of the
    cursor's own type as it is, and stores a value of another type in a
    cursor of interface type together with its type; it panics when the
    types do not fit, and never returns an error. *)
Theorem Set_spec w l ty tv pv y old :
  last (stack (b w)) = Some (reflect.Val ty (reflect.Addr l) reflect.RW) ->
  reflect.load (heap w) l = Some old ->
  reflect.read (heap w) (reflect.Val tv pv reflect.RW) = Returns y ->
  (tv = ty ->
   exists w', Set_ (reflect.Val tv pv reflect.RW) w = Returns (None, w')
              /\ reflect.load (heap w') l = Some y
              /\ stack (b w') = stack (b w))
  /\ (tv <> ty -> ty = reflect.TInterface ->
      exists w', Set_ (reflect.Val tv pv reflect.RW) w = Returns (None, w')
                 /\ reflect.load (heap w') l
                    = Some (reflect.VIface (Some (tv, y)))
                 /\ stack (b w') = stack (b w))
  /\ (tv <> ty -> ty <> reflect.TInterface ->
      exists msg, Set_ (reflect.Val tv pv reflect.RW) w = Panics msg)
  /\ (forall v r w', Set_ v w = Returns (r, w') -> r = None).
Proof.
  intros Ht Hl Hy. split; [|split; [|split]].
  - intros ->.
    destruct (write_is_Some (heap w) l y (ex_intro _ old Hl)) as [h' Hw].
    exists (mkWorld h' (maps w) (b w)). split; [|split].
    + unfold Set_. run_top Ht.
      erewrite bind_returns_eq
        by (apply liftW_returns; eapply Value_Set_returns; eassumption).
      reflexivity.
    + simpl. eapply load_write_same. exact Hw.
    + reflexivity.
  - intros Hne ->.
    destruct (write_is_Some (heap w) l (reflect.VIface (Some (tv, y)))
                (ex_intro _ old Hl)) as [h' Hw].
    exists (mkWorld h' (maps w) (b w)). split; [|split].
    + unfold Set_. run_top Ht.
      erewrite bind_returns_eq.
      2:{ apply liftW_returns. unfold reflect.Value_Set. simpl.
          rewrite (rtype_eqb_neq _ _ Hne), Hy. simpl. rewrite Hw.
          reflexivity. }
      reflexivity.
    + simpl. eapply load_write_same. exact Hw.
    + reflexivity.
  - intros Hne Hi. eexists. unfold Set_. run_top Ht.
    apply bind_panics. unfold liftW, reflect.Value_Set. simpl.
    rewrite (rtype_eqb_neq _ _ Hne).
    destruct ty; try reflexivity. contradiction.
  - intros v r w' H. unfold Set_ in H.
    apply bind_returns in H as (t0 & w1 & _ & H).
    apply bind_returns in H as (u & w2 & _ & H).
    inversion H. reflexivity.
Qed.

(** X21.  The setters need a settable cursor: on a valid cursor of the right
    kind that cannot be set, such as a field of a struct held in an
    interface, [SetInt], [SetBool] and [SetString] panic instead of
    returning an error. *)
Theorem setters_panic_when_unsettable w t :
  last (stack (b w)) = Some t ->
  reflect.Value_IsValid t = true ->
  reflect.Value_CanSet t = false ->
  (reflect.int_bits (reflect.Value_Kind t) <> None ->
   forall n, exists msg, SetInt n w = Panics msg)
  /\ (reflect.Value_Kind t = reflect.Bool ->
      forall v, exists msg, SetBool v w = Panics msg)
  /\ (reflect.Value_Kind t = reflect.String ->
      forall s, exists msg, SetString s w = Panics msg).
Proof.
  intros Ht Hv Hs. destruct t as [|ty p ro]; [discriminate|].
  assert (Hm : forall what,
             exists msg,
               reflect.mustBeAssignable what (reflect.Val ty p ro)
               = Panics msg).
  { intros what. destruct p as [l|y], ro; simpl in *;
      try discriminate; eauto. }
  split; [|split].
  - intros Hk n. destruct (Hm "reflect.Value.SetInt") as [msg Hmsg].
    exists msg. unfold SetInt. run_top Ht.
    rewrite bind_returns_eq with (a := ty) (w' := w) by reflexivity.
    destruct (reflect.int_bits (reflect.Type_Kind ty)) as [bits|] eqn:Hb;
      [|contradiction].
    rewrite (checkKindInt_signed _ _ Hb).
    apply bind_panics. unfold liftW, reflect.Value_SetInt.
    rewrite Hmsg. reflexivity.
  - intros Hk v. destruct (Hm "reflect.Value.SetBool") as [msg Hmsg].
    exists msg. unfold SetBool. run_top Ht.
    rewrite bind_returns_eq with (a := ty) (w' := w) by reflexivity.
    rewrite (checkKind_ok _ _ Hk).
    apply bind_panics. unfold liftW, reflect.Value_SetBool.
    rewrite Hmsg. reflexivity.
  - intros Hk s. destruct (Hm "reflect.Value.SetString") as [msg Hmsg].
    exists msg. unfold SetString. run_top Ht. simpl in Hk.
    simpl (reflect.Value_Kind _). rewrite Hk.
    destruct (decide (reflect.String = reflect.Ptr)); [discriminate|].
    rewrite bind_returns_eq with (a := ty) (w' := w) by reflexivity.
    rewrite (checkKind_ok _ _ Hk).
    apply bind_panics. unfold liftW, reflect.Value_SetString.
    rewrite Hmsg. reflexivity.
Qed.

(** X22.  [IsSlice] and [IsSliceOrPtr] only look: they return, even on the zero
    Value, and leave the state alone.  [IsSliceOrPtr] answers true exactly
    for a slice and for a pointer to a slice type (nil or not). *)
Theorem IsSliceOrPtr_spec w t :
  last (stack (b w)) = Some t ->
  IsSlice w = Returns (bool_decide (reflect.Value_Kind t = reflect.Slice), w)
  /\ exists r,
       IsSliceOrPtr w = Returns (r, w)
       /\ (r = true <->
           exists e p ro,
             t = reflect.Val (reflect.TSlice e) p ro
             \/ t = reflect.Val (reflect.TPtr (reflect.TSlice e)) p ro).
Proof.
  intros Ht. split.
  - unfold IsSlice. run_top Ht. reflexivity.
  - unfold IsSliceOrPtr. run_top Ht.
    destruct t as [|ty p ro].
    { exists false. split; [reflexivity|]. split; [discriminate|].
      intros (e & p & ro & [H|H]); discriminate. }
    destruct ty as [k|n e| |e|e|name fs].
    + exists false. split.
      * simpl. destruct k; reflexivity.
      * split; [discriminate|]. intros (e & p' & ro' & [H|H]); discriminate.
    + exists false. split; [reflexivity|]. split; [discriminate|].
      intros (e' & p' & ro' & [H|H]); discriminate.
    + exists false. split; [reflexivity|]. split; [discriminate|].
      intros (e' & p' & ro' & [H|H]); discriminate.
    + exists (bool_decide (reflect.Type_Kind e = reflect.Slice)).
      split; [reflexivity|]. split.
      * intros H. apply bool_decide_eq_true in H.
        apply Kind_Slice_inv in H as [e' ->]. exists e', p, ro. right.
        reflexivity.
      * intros (e' & p' & ro' & [H|H]); inversion H; subst. reflexivity.
    + exists true. split; [reflexivity|]. split; [|reflexivity].
      intros _. exists e, p, ro. left. reflexivity.
    + exists false. split; [reflexivity|]. split; [discriminate|].
      intros (e' & p' & ro' & [H|H]); discriminate.
Qed.

(** X23.  [Last]: on a slice with elements the cursor becomes the last element,
    an addressable place in the backing array; on an empty slice, and on
    anything that is neither slice nor array, nothing changes.  The data is
    never touched. *)
Theorem Last_spec w t :
  last (stack (b w)) = Some t ->
  (forall e p ro arr off n cap,
      t = reflect.Val (reflect.TSlice e) p ro ->
      reflect.read (heap w) t
      = Returns (reflect.VSlice (Some (arr, off)) (S n) cap) ->
      exists w',
        Last w = Returns (tt, w')
        /\ last (stack (b w'))
           = Some (reflect.Val e
                     (reflect.Addr (reflect.loc_at arr (off + n)))
                     (reflect.ro_of ro))
        /\ removelast (stack (b w')) = removelast (stack (b w))
        /\ heap w' = heap w)
  /\ (forall e p ro data cap,
      t = reflect.Val (reflect.TSlice e) p ro ->
      reflect.read (heap w) t = Returns (reflect.VSlice data 0 cap) ->
      Last w = Returns (tt, w))
  /\ (reflect.Value_Kind t <> reflect.Slice ->
      reflect.Value_Kind t <> reflect.Array ->
      Last w = Returns (tt, w)).
Proof.
  intros Ht. assert (Hne : stack (b w) <> [])
    by (eapply last_Some_nonempty; exact Ht).
  split; [|split].
  - intros e p ro arr off n cap -> Hr.
    eexists. split; [|split; [|split]].
    + unfold Last, Cursor. run_top Ht. simpl.
      erewrite bind_returns_eq.
      2:{ apply liftR_returns. unfold reflect.Value_Len. rewrite Hr.
          reflexivity. }
      destruct (decide (0 < S n)); [|lia].
      erewrite bind_returns_eq.
      2:{ apply liftR_returns. unfold reflect.Value_Index. rewrite Hr. simpl.
          destruct (decide (n - 0 < S n)); [|lia].
          rewrite Nat.sub_0_r. reflexivity. }
      apply replace_returns. exact Hne.
    + simpl. apply last_insert_last. exact Hne.
    + simpl. apply removelast_insert_last.
    + reflexivity.
  - intros e p ro data cap -> Hr.
    unfold Last, Cursor. run_top Ht. simpl.
    erewrite bind_returns_eq.
    2:{ apply liftR_returns. unfold reflect.Value_Len. rewrite Hr.
        reflexivity. }
    reflexivity.
  - intros Hs Ha. unfold Last, Cursor. run_top Ht.
    destruct (reflect.Value_Kind t); try reflexivity; contradiction.
Qed.

(** ** What a name can resolve to *)

(** X3.  For a struct type the cache builder can walk and that resolves
    names by its own getters, [fieldGetter] never returns a getter for an
    unexported field, nor for an embedded field itself: the getter it
    returns for a name follows an index path that goes through exported
    embedded fields and ends at an exported field that is not embedded and
    is addressed by that name (its name tag if it has one, else its
    declared name); no error comes with it. *)
Theorem fieldGetter_sound s k w g err w' :
  walkable s = true ->
  own_getters w s ->
  fieldGetter_ s k w = Returns ((Some g, err), w') ->
  err = None
  /\ exists f,
       field_at s (path_of g) = Some f
       /\ reflect.PkgPath f = ""
       /\ reflect.Anonymous f = false
       /\ field_key (nameTag (b w)) f = k.
Proof.
  intros Hw Hown H.
  destruct (fieldGetter_own s k w Hw Hown) as (w1 & err1 & Hrun & Herr & _).
  rewrite Hrun in H. injection H as Hres <- <-.
  split.
  { destruct err1 as [e|]; [|reflexivity].
    assert (Hnone : resolve (nameTag (b w)) s k = None)
      by (apply Herr; discriminate).
    congruence. }
  unfold resolve in Hres. apply assign_all_lookup in Hres.
  apply registrations_sound in Hres as (path & f & Hpath & Hrest).
  exists f. rewrite Hpath. exact Hrest.
Qed.

Section SaveReturns.
Variable growcap : nat -> nat -> nat.
Variable float32_of : Z -> Z.
Variable fmt_s : store -> reflect.Value -> string.

(** X12.  On a Builder made from a non-nil pointer [Save] always returns,
    whatever calls returned before: it pushes a copy of the cursor and
    changes nothing else. *)
Theorem Save_returns_when_reachable h tag t l b0 w :
  NewBuilder h tag (Some (reflect.TPtr t, reflect.VPtr (Some l)))
  = Returns (b0, None) ->
  reachable growcap float32_of fmt_s b0 w ->
  exists v w1,
    last (stack (b w)) = Some v
    /\ Save fmt_s w = Returns (tt, w1)
    /\ stack (b w1) = stack (b w) ++ [v]
    /\ heap w1 = heap w
    /\ reachable growcap float32_of fmt_s b0 w1.
Proof.
  intros Hn Hr. pose proof Hn as Hn'.
  apply NewBuilder_returns in Hn' as (t' & p' & E & ->).
  inversion E; subst t' p'.
  pose proof Hr as Hr'.
  eapply reachable_frames_valid in Hr' as (Hne & Hv & _);
    [|reflexivity|reflexivity].
  destruct (last (stack (b w))) as [v|] eqn:Hl.
  2:{ apply last_None in Hl. contradiction. }
  pose proof (Save_pushes fmt_s w v Hl Hv) as Hs.
  exists v. eexists. split; [reflexivity|]. split; [exact Hs|].
  split; [reflexivity|]. split; [reflexivity|].
  apply (reach_call _ _ _ _ w 0 OpSave None); [exact Hr|].
  simpl. unfold noerr. erewrite bind_returns_eq by exact Hs. reflexivity.
Qed.

End SaveReturns.

(** ** The further properties on the example values *)

Module MoreOnExample.
Import Example.

Ltac by_compute := vm_compute; reflexivity.

Example resolution_of_Person :
  resolve "toml" Person "Name" = Some (makeFieldGetterByIndex 0)
  /\ resolve "toml" Person "ID" = Some (makeFieldGetterByIndexes [6; 0])
  /\ resolve "toml" Person "Base" = None
  /\ resolve "toml" Person "nope" = None.
Proof. vm_compute. repeat split. Qed.

Lemma getters_are_registrations_witness :
  walkable Person = true
  /\ cache_of w0 Person = None
  /\ exists w',
       getOrGenerateFieldGetters Person w0
       = Returns (List.length (maps w0), w')
       /\ maps w' !! List.length (maps w0)
          = Some (assign_all (registrations (nameTag (b w0)) [] Person) ∅)
       /\ (forall m', m' < List.length (maps w0) ->
                      maps w' !! m' = maps w0 !! m')
       /\ heap w' = heap w0 /\ stack (b w') = stack (b w0).
Proof.
  assert (H1 : walkable Person = true) by by_compute.
  assert (H2 : cache_of w0 Person = None) by by_compute.
  split; [exact H1|]. split; [exact H2|].
  exact (getters_are_registrations Person w0 H1 H2).
Defined.

Lemma getters_memoized_witness :
  walkable Person = true
  /\ exists m w',
       getOrGenerateFieldGetters Person w0 = Returns (m, w')
       /\ getOrGenerateFieldGetters Person w' = Returns (m, w')
       /\ heap w' = heap w0 /\ stack (b w') = stack (b w0).
Proof.
  assert (H1 : walkable Person = true) by by_compute.
  split; [exact H1|]. exact (getters_memoized Person w0 H1).
Defined.

Lemma DigField_unknown_field_witness :
  last (stack (b w0)) = Some t_root
  /\ resolve (nameTag (b w0)) Person "nope" = None
  /\ exists w',
       DigField 0 "nope" w0
       = Returns (Some (FieldNotFoundError t_root "nope"), w')
       /\ stack (b w') = stack (b w0) /\ heap w' = heap w0.
Proof.
  assert (H1 : last (stack (b w0)) = Some t_root) by by_compute.
  assert (H2 : walkable Person = true) by by_compute.
  assert (H3 : cache_of w0 Person = None) by by_compute.
  assert (H4 : resolve (nameTag (b w0)) Person "nope" = None) by by_compute.
  split; [exact H1|]. split; [exact H4|].
  exact (DigField_unknown_field 0 "nope" w0 "Person" (fields_of Person)
           (reflect.Addr (reflect.Loc 0 [])) reflect.RW H1 H2 H3 H4).
Defined.

Lemma DigField_direct_field_witness :
  last (stack (b w_back)) = Some t_root
  /\ cache_of w_back Person = Some 0
  /\ own_getters w_back Person
  /\ resolve (nameTag (b w_back)) Person "Age"
     = Some (makeFieldGetterByIndex 2)
  /\ exists w',
       DigField 0 "Age" w_back = Returns (None, w')
       /\ last (stack (b w')) = Some t_age
       /\ removelast (stack (b w')) = removelast (stack (b w_back))
       /\ heap w' = heap w_back.
Proof.
  assert (H1 : last (stack (b w_back)) = Some t_root) by by_compute.
  assert (H2 : walkable Person = true) by by_compute.
  assert (H3 : own_getters w_back Person) by by_compute.
  assert (H4 : resolve (nameTag (b w_back)) Person "Age"
               = Some (makeFieldGetterByIndex 2)) by by_compute.
  split; [exact H1|]. split; [by_compute|]. split; [exact H3|].
  split; [exact H4|].
  destruct (DigField_direct_field 0 "Age" w_back "Person" (fields_of Person)
              (reflect.Loc 0 []) 2 (field "Age" (reflect.TBasic reflect.BInt8))
              H1 H2 H3 H4 eq_refl eq_refl)
    as (w' & Hrun & Hlast & Hrest & Hh & _).
  exists w'. repeat split; assumption.
Defined.

Lemma DigField_embedded_field_witness :
  last (stack (b w_back)) = Some t_root
  /\ own_getters w_back Person
  /\ resolve (nameTag (b w_back)) Person "ID"
     = Some (makeFieldGetterByIndexes [6; 0])
  /\ exists w',
       DigField 0 "ID" w_back = Returns (None, w')
       /\ last (stack (b w'))
          = Some (reflect.Val (reflect.TBasic reflect.BInt)
                    (reflect.Addr (reflect.Loc 0 [6; 0])) reflect.RW)
       /\ removelast (stack (b w')) = removelast (stack (b w_back))
       /\ heap w' = heap w_back.
Proof.
  assert (H1 : last (stack (b w_back)) = Some t_root) by by_compute.
  assert (H2 : walkable Person = true) by by_compute.
  assert (H3 : own_getters w_back Person) by by_compute.
  assert (H4 : resolve (nameTag (b w_back)) Person "ID"
               = Some (makeFieldGetterByIndexes [6; 0])) by by_compute.
  split; [exact H1|]. split; [exact H3|]. split; [exact H4|].
  exact (DigField_embedded_field 0 "ID" w_back "Person" (fields_of Person)
           (reflect.Loc 0 []) 6 f_Base "Base" (fields_of Base) 0
           (field "ID" (reflect.TBasic reflect.BInt))
           H1 H2 H3 H4 eq_refl eq_refl eq_refl eq_refl eq_refl).
Defined.

Lemma DigField_through_pointer_witness :
  last (stack (b w_outer_back))
  = Some (reflect.Val (reflect.TPtr Inner)
            (reflect.Addr (reflect.Loc 0 [0])) reflect.RW)
  /\ reflect.load (heap w_outer_back) (reflect.Loc 0 [0])
     = Some (reflect.VPtr (Some (reflect.Loc 1 [])))
  /\ cache_of w_outer_back Inner = Some 1
  /\ own_getters w_outer_back Inner
  /\ exists w',
       DigField 1 "Tags" w_outer_back = Returns (None, w')
       /\ last (stack (b w'))
          = Some (reflect.Val (reflect.TSlice tstring)
                    (reflect.Addr (reflect.Loc 1 [0])) reflect.RW)
       /\ removelast (stack (b w')) = removelast (stack (b w_outer_back))
       /\ heap w' = heap w_outer_back.
Proof.
  assert (H1 : last (stack (b w_outer_back))
               = Some (reflect.Val (reflect.TPtr Inner)
                         (reflect.Addr (reflect.Loc 0 [0])) reflect.RW))
    by by_compute.
  assert (H2 : reflect.load (heap w_outer_back) (reflect.Loc 0 [0])
               = Some (reflect.VPtr (Some (reflect.Loc 1 []))))
    by by_compute.
  assert (H3 : reflect.read (heap w_outer_back)
                 (reflect.Val (reflect.TPtr Inner)
                    (reflect.Addr (reflect.Loc 0 [0])) reflect.RW)
               = Returns (reflect.VPtr (Some (reflect.Loc 1 []))))
    by by_compute.
  assert (H4 : walkable Inner = true) by by_compute.
  assert (H5 : own_getters w_outer_back Inner) by by_compute.
  assert (H6 : resolve (nameTag (b w_outer_back)) Inner "Tags"
               = Some (makeFieldGetterByIndex 0)) by by_compute.
  split; [exact H1|]. split; [exact H2|]. split; [by_compute|].
  split; [exact H5|].
  exact (DigField_through_pointer 0 "Tags" w_outer_back "Inner"
           (fields_of Inner) (reflect.Addr (reflect.Loc 0 [0]))
           (reflect.Loc 1 []) 0 (field "Tags" (reflect.TSlice tstring))
           H1 H3 H4 H5 H6 eq_refl eq_refl).
Defined.

Lemma DigField_not_struct_witness :
  last (stack (b w_name)) = Some t_name
  /\ DigField 0 "x" w_name
     = Returns (Some (IncorrectKindError reflect.String reflect.Struct),
                w_name).
Proof.
  assert (H1 : last (stack (b w_name)) = Some t_name) by by_compute.
  split; [exact H1|].
  refine (DigField_not_struct 0 "x" w_name tstring
            (reflect.Addr (reflect.Loc 0 [0])) reflect.RW H1 _ _ _);
    discriminate.
Defined.

Lemma frames_stay_valid_witness :
  NewBuilder h0 "toml"
    (Some (reflect.TPtr Person, reflect.VPtr (Some (reflect.Loc 0 []))))
  = Returns (b0, None)
  /\ reachable growcap float32_of fmt_s b0 w_saved
  /\ stack (b w_saved) <> []
  /\ frames_valid w_saved
  /\ root (b w_saved) = t_root.
Proof.
  assert (H1 : NewBuilder h0 "toml"
                 (Some (reflect.TPtr Person,
                        reflect.VPtr (Some (reflect.Loc 0 []))))
               = Returns (b0, None)) by by_compute.
  split; [exact H1|]. split; [exact OnExample.w_saved_reachable|].
  exact (frames_stay_valid growcap float32_of fmt_s h0 "toml" Person
           (reflect.Loc 0 []) b0 w_saved H1 OnExample.w_saved_reachable).
Defined.

Lemma w_tags_frames_valid : frames_valid w_tags.
Proof.
  unfold frames_valid.
  replace (stack (b w_tags)) with [t_tags] by by_compute.
  constructor; [reflexivity|constructor].
Defined.

Lemma Save_Load_roundtrip_witness :
  last (stack (b w_tags)) = Some t_tags
  /\ frames_valid w_tags
  /\ exists w1,
       Save fmt_s w_tags = Returns (tt, w1)
       /\ stack (b w1) = stack (b w_tags) ++ [t_tags]
       /\ heap w1 = heap w_tags
       /\ Load w1 = Returns (tt, w_tags).
Proof.
  assert (H1 : last (stack (b w_tags)) = Some t_tags) by by_compute.
  split; [exact H1|]. split; [exact w_tags_frames_valid|].
  exact (Save_Load_roundtrip fmt_s w_tags t_tags H1 w_tags_frames_valid).
Defined.

Lemma Save_panics_on_zero_frame_witness :
  NewBuilder [] "toml" p_nil = Returns (b w_nil, None)
  /\ last (stack (b w_nil)) = Some reflect.ZeroValue
  /\ ~ frames_valid w_nil
  /\ Save fmt_s w_nil
     = Panics "reflect: call of reflect.Value.Type on zero Value".
Proof.
  assert (H0 : NewBuilder [] "toml" p_nil = Returns (b w_nil, None))
    by by_compute.
  assert (H1 : last (stack (b w_nil)) = Some reflect.ZeroValue)
    by by_compute.
  assert (H2 : ~ frames_valid w_nil).
  { unfold frames_valid.
    replace (stack (b w_nil)) with [reflect.ZeroValue] by by_compute.
    intros H. inversion H as [|x xs Hx]. discriminate. }
  split; [exact H0|]. split; [exact H1|]. split; [exact H2|].
  exact (Save_panics_on_zero_frame fmt_s w_nil reflect.ZeroValue H1 H2).
Defined.

Lemma Load_spec_witness :
  List.length (stack (b w0)) < 2
  /\ Load w0 = Panics "tried to Back() when cursor was already at root"
  /\ 2 <= List.length (stack (b w_depth2))
  /\ exists w', Load w_depth2 = Returns (tt, w')
                /\ stack (b w') = removelast (stack (b w_depth2))
                /\ head (stack (b w')) = head (stack (b w_depth2))
                /\ root (b w') = root (b w_depth2)
                /\ heap w' = heap w_depth2.
Proof.
  assert (H1 : List.length (stack (b w0)) < 2) by (vm_compute; lia).
  assert (H2 : 2 <= List.length (stack (b w_depth2))) by (vm_compute; lia).
  split; [exact H1|]. split; [exact (proj1 (Load_spec w0) H1)|].
  split; [exact H2|]. exact (proj2 (Load_spec w_depth2) H2).
Defined.




Lemma SliceAppend_pointer_witness :
  last (stack (b w_items))
  = Some (reflect.Val (reflect.TSlice (reflect.TPtr (reflect.TBasic reflect.BInt)))
            (reflect.Addr (reflect.Loc 0 [0])) reflect.RW)
  /\ reflect.load (heap w_items) (reflect.Loc 0 [0])
     = Some (reflect.VSlice None 0 0)
  /\ exists w' x,
       SliceAppend growcap fmt_s
         (reflect.Val (reflect.TPtr (reflect.TBasic reflect.BInt))
            (reflect.Copy (reflect.VPtr (Some (reflect.Loc 1 []))))
            reflect.RW) w_items
       = Returns (None, w')
       /\ reflect.Value_Len (heap w')
            (reflect.Val
               (reflect.TSlice (reflect.TPtr (reflect.TBasic reflect.BInt)))
               (reflect.Addr (reflect.Loc 0 [0])) reflect.RW)
          = Returns (0 + 1)
       /\ reflect.Value_Index (heap w')
            (reflect.Val
               (reflect.TSlice (reflect.TPtr (reflect.TBasic reflect.BInt)))
               (reflect.Addr (reflect.Loc 0 [0])) reflect.RW) 0
          = Returns x
       /\ last (stack (b w')) = Some x
       /\ reflect.read (heap w') x
          = Returns (reflect.VPtr (Some (reflect.Loc 1 [])))
       /\ removelast (stack (b w')) = removelast (stack (b w_items)).
Proof.
  assert (H1 : last (stack (b w_items))
               = Some (reflect.Val
                         (reflect.TSlice
                            (reflect.TPtr (reflect.TBasic reflect.BInt)))
                         (reflect.Addr (reflect.Loc 0 [0])) reflect.RW))
    by by_compute.
  assert (H2 : reflect.load (heap w_items) (reflect.Loc 0 [0])
               = Some (reflect.VSlice None 0 0)) by by_compute.
  split; [exact H1|]. split; [exact H2|].
  refine (SliceAppend_pointer growcap fmt_s w_items
            (reflect.TBasic reflect.BInt) (reflect.Loc 0 [0]) None 0 0
            (reflect.Copy (reflect.VPtr (Some (reflect.Loc 1 []))))
            (Some (reflect.Loc 1 [])) H1 H2 _ _ eq_refl).
  - split; [lia|reflexivity].
  - intros c Hc. lia.
Defined.

Lemma SliceAppend_allocates_before_failing_witness :
  last (stack (b w_ptr_int)) = Some t_ptr_int
  /\ reflect.load (heap w_ptr_int) (reflect.Loc 0 [4])
     = Some (reflect.VPtr None)
  /\ exists w',
       SliceAppend growcap fmt_s
         (reflect.Val (reflect.TPtr tstring)
            (reflect.Copy (reflect.VPtr None)) reflect.RW) w_ptr_int
       = Returns (Some (IncorrectKindError reflect.Int reflect.Slice), w')
       /\ stack (b w') = stack (b w_ptr_int)
       /\ reflect.load (heap w_ptr_int)
            (reflect.Loc (List.length (heap w_ptr_int)) []) = None
       /\ reflect.load (heap w') (reflect.Loc 0 [4])
          = Some (reflect.VPtr
                    (Some (reflect.Loc (List.length (heap w_ptr_int)) [])))
       /\ reflect.load (heap w')
            (reflect.Loc (List.length (heap w_ptr_int)) [])
          = Some (reflect.VInt 0).
Proof.
  assert (H1 : last (stack (b w_ptr_int)) = Some t_ptr_int) by by_compute.
  assert (H2 : reflect.load (heap w_ptr_int) (reflect.Loc 0 [4])
               = Some (reflect.VPtr None)) by by_compute.
  split; [exact H1|]. split; [exact H2|].
  refine (SliceAppend_allocates_before_failing growcap fmt_s w_ptr_int
            (reflect.TBasic reflect.BInt) (reflect.Loc 0 [4])
            (reflect.Val (reflect.TPtr tstring)
               (reflect.Copy (reflect.VPtr None)) reflect.RW)
            H1 H2 _ eq_refl).
  discriminate.
Defined.



Lemma SetBool_spec_witness :
  last (stack (b w_on))
  = Some (reflect.Val (reflect.TBasic reflect.BBool)
            (reflect.Addr (reflect.Loc 0 [0])) reflect.RW)
  /\ (exists w', SetBool true w_on = Returns (None, w')
                 /\ reflect.load (heap w') (reflect.Loc 0 [0])
                    = Some (reflect.VBool true)
                 /\ stack (b w') = stack (b w_on))
  /\ last (stack (b w_name)) = Some t_name
  /\ SetBool true w_name
     = Returns (Some (IncorrectKindError reflect.String reflect.Bool), w_name).
Proof.
  assert (H1 : last (stack (b w_on))
               = Some (reflect.Val (reflect.TBasic reflect.BBool)
                         (reflect.Addr (reflect.Loc 0 [0])) reflect.RW))
    by by_compute.
  assert (H2 : reflect.load (heap w_on) (reflect.Loc 0 [0])
               = Some (reflect.VBool false)) by by_compute.
  assert (H3 : last (stack (b w_name)) = Some t_name) by by_compute.
  split; [exact H1|]. split; [|split; [exact H3|]].
  - exact (proj1 (SetBool_spec true w_on _ H1) _ _ _ eq_refl eq_refl H2).
  - refine (proj2 (SetBool_spec true w_name t_name H3) _ _ _ eq_refl _).
    discriminate.
Defined.

Lemma SetFloat_spec_witness :
  last (stack (b w_f64))
  = Some (reflect.Val (reflect.TBasic reflect.BFloat64)
            (reflect.Addr (reflect.Loc 0 [1])) reflect.RW)
  /\ (exists w', SetFloat float32_of 5 w_f64 = Returns (None, w')
                 /\ reflect.load (heap w') (reflect.Loc 0 [1])
                    = Some (reflect.VFloat 5)
                 /\ stack (b w') = stack (b w_f64))
  /\ last (stack (b w_f32))
     = Some (reflect.Val (reflect.TBasic reflect.BFloat32)
               (reflect.Addr (reflect.Loc 0 [2])) reflect.RW)
  /\ (exists w', SetFloat float32_of 5 w_f32 = Returns (None, w')
                 /\ reflect.load (heap w') (reflect.Loc 0 [2])
                    = Some (reflect.VFloat (float32_of 5))
                 /\ stack (b w') = stack (b w_f32))
  /\ last (stack (b w_name)) = Some t_name
  /\ SetFloat float32_of 5 w_name
     = Returns (Some (IncorrectKindError reflect.String reflect.Float64),
                w_name).
Proof.
  assert (H1 : last (stack (b w_f64))
               = Some (reflect.Val (reflect.TBasic reflect.BFloat64)
                         (reflect.Addr (reflect.Loc 0 [1])) reflect.RW))
    by by_compute.
  assert (H2 : reflect.load (heap w_f64) (reflect.Loc 0 [1])
               = Some (reflect.VFloat 0)) by by_compute.
  assert (H3 : last (stack (b w_f32))
               = Some (reflect.Val (reflect.TBasic reflect.BFloat32)
                         (reflect.Addr (reflect.Loc 0 [2])) reflect.RW))
    by by_compute.
  assert (H4 : reflect.load (heap w_f32) (reflect.Loc 0 [2])
               = Some (reflect.VFloat 0)) by by_compute.
  assert (H5 : last (stack (b w_name)) = Some t_name) by by_compute.
  split; [exact H1|]. split; [|split; [exact H3|split; [|split; [exact H5|]]]].
  - exact (proj1 (SetFloat_spec float32_of 5 w_f64 _ H1)
             _ _ _ eq_refl eq_refl H2).
  - exact (proj1 (proj2 (SetFloat_spec float32_of 5 w_f32 _ H3))
             _ _ _ eq_refl eq_refl H4).
  - refine (proj2 (proj2 (SetFloat_spec float32_of 5 w_name t_name H5))
              _ _ _ eq_refl _ _); discriminate.
Defined.

Lemma Set_spec_witness :
  last (stack (b w_name)) = Some t_name
  /\ reflect.load (heap w_name) (reflect.Loc 0 [0]) = Some (reflect.VString "")
  /\ exists w',
       Set_ (reflect.Val tstring (reflect.Copy (reflect.VString "z"))
               reflect.RW) w_name
       = Returns (None, w')
       /\ reflect.load (heap w') (reflect.Loc 0 [0])
          = Some (reflect.VString "z")
       /\ stack (b w') = stack (b w_name).
Proof.
  assert (H1 : last (stack (b w_name)) = Some t_name) by by_compute.
  assert (H2 : reflect.load (heap w_name) (reflect.Loc 0 [0])
               = Some (reflect.VString "")) by by_compute.
  split; [exact H1|]. split; [exact H2|].
  exact (proj1 (Set_spec w_name (reflect.Loc 0 [0]) tstring tstring
                  (reflect.Copy (reflect.VString "z")) (reflect.VString "z")
                  (reflect.VString "") H1 H2 eq_refl) eq_refl).
Defined.

Lemma setters_panic_when_unsettable_witness :
  last (stack (b w_box_on))
  = Some (reflect.Val (reflect.TBasic reflect.BBool)
            (reflect.Copy (reflect.VBool false)) reflect.RW)
  /\ exists msg, SetBool true w_box_on = Panics msg.
Proof.
  assert (H1 : last (stack (b w_box_on))
               = Some (reflect.Val (reflect.TBasic reflect.BBool)
                         (reflect.Copy (reflect.VBool false)) reflect.RW))
    by by_compute.
  split; [exact H1|].
  exact (proj1 (proj2 (setters_panic_when_unsettable w_box_on _ H1
                         eq_refl eq_refl)) eq_refl true).
Defined.

Lemma IsSliceOrPtr_spec_witness :
  last (stack (b w_tags)) = Some t_tags
  /\ IsSlice w_tags
     = Returns (bool_decide (reflect.Value_Kind t_tags = reflect.Slice),
                w_tags)
  /\ exists r,
       IsSliceOrPtr w_tags = Returns (r, w_tags)
       /\ (r = true <->
           exists e p ro,
             t_tags = reflect.Val (reflect.TSlice e) p ro
             \/ t_tags = reflect.Val (reflect.TPtr (reflect.TSlice e)) p ro).
Proof.
  assert (H1 : last (stack (b w_tags)) = Some t_tags) by by_compute.
  split; [exact H1|]. exact (IsSliceOrPtr_spec w_tags t_tags H1).
Defined.

Lemma Last_spec_witness :
  last (stack (b w_tags1)) = Some t_tags
  /\ reflect.read (heap w_tags1) t_tags
     = Returns (reflect.VSlice (Some (reflect.Loc 2 [], 0)) 1 1)
  /\ (exists w',
        Last w_tags1 = Returns (tt, w')
        /\ last (stack (b w'))
           = Some (reflect.Val tstring
                     (reflect.Addr (reflect.loc_at (reflect.Loc 2 []) (0 + 0)))
                     (reflect.ro_of reflect.RW))
        /\ removelast (stack (b w')) = removelast (stack (b w_tags1))
        /\ heap w' = heap w_tags1)
  /\ last (stack (b w_tags)) = Some t_tags
  /\ Last w_tags = Returns (tt, w_tags)
  /\ last (stack (b w_name)) = Some t_name
  /\ Last w_name = Returns (tt, w_name).
Proof.
  assert (H1 : last (stack (b w_tags1)) = Some t_tags) by by_compute.
  assert (H2 : reflect.read (heap w_tags1) t_tags
               = Returns (reflect.VSlice (Some (reflect.Loc 2 [], 0)) 1 1))
    by by_compute.
  assert (H3 : last (stack (b w_tags)) = Some t_tags) by by_compute.
  assert (H4 : reflect.read (heap w_tags) t_tags
               = Returns (reflect.VSlice None 0 0)) by by_compute.
  assert (H5 : last (stack (b w_name)) = Some t_name) by by_compute.
  split; [exact H1|]. split; [exact H2|].
  split; [|split; [exact H3|split; [|split; [exact H5|]]]].
  - exact (proj1 (Last_spec w_tags1 t_tags H1) _ _ _ _ _ _ _ eq_refl H2).
  - exact (proj1 (proj2 (Last_spec w_tags t_tags H3)) _ _ _ _ _ eq_refl H4).
  - refine (proj2 (proj2 (Last_spec w_name t_name H5)) _ _); discriminate.
Defined.

Lemma fieldGetter_sound_witness :
  walkable Person = true
  /\ own_getters w_back Person
  /\ fieldGetter_ Person "ID" w_back
     = Returns ((Some (makeFieldGetterByIndexes [6; 0]), None), w_back)
  /\ exists f,
       field_at Person (path_of (makeFieldGetterByIndexes [6; 0])) = Some f
       /\ reflect.PkgPath f = ""
       /\ reflect.Anonymous f = false
       /\ field_key (nameTag (b w_back)) f = "ID".
Proof.
  assert (H1 : walkable Person = true) by by_compute.
  assert (H2 : own_getters w_back Person) by by_compute.
  assert (H3 : fieldGetter_ Person "ID" w_back
               = Returns ((Some (makeFieldGetterByIndexes [6; 0]), None),
                          w_back)) by by_compute.
  split; [exact H1|]. split; [exact H2|]. split; [exact H3|].
  exact (proj2 (fieldGetter_sound Person "ID" w_back _ _ _ H1 H2 H3)).
Defined.

Lemma Save_returns_when_reachable_witness :
  NewBuilder h0 "toml"
    (Some (reflect.TPtr Person, reflect.VPtr (Some (reflect.Loc 0 []))))
  = Returns (b0, None)
  /\ reachable growcap float32_of fmt_s b0 w_saved
  /\ exists v w1,
       last (stack (b w_saved)) = Some v
       /\ Save fmt_s w_saved = Returns (tt, w1)
       /\ stack (b w1) = stack (b w_saved) ++ [v]
       /\ heap w1 = heap w_saved
       /\ reachable growcap float32_of fmt_s b0 w1.
Proof.
  assert (H1 : NewBuilder h0 "toml"
                 (Some (reflect.TPtr Person,
                        reflect.VPtr (Some (reflect.Loc 0 []))))
               = Returns (b0, None)) by by_compute.
  split; [exact H1|]. split; [exact OnExample.w_saved_reachable|].
  exact (Save_returns_when_reachable growcap float32_of fmt_s h0 "toml"
           Person (reflect.Loc 0 []) b0 w_saved H1
           OnExample.w_saved_reachable).
Defined.

End MoreOnExample.
